(** * nostr-mini-twitter: relay aggregation layer

    A shallow embedding of the TypeScript modules under [src/lib/nostr]
    ([relays.ts], [events.ts], [keys.ts], [hooks.ts]) and of the handlers
    of the pages built on them, together with the properties of the relay
    pool, the event cache and the identity helpers.

    Conventions of the embedding.
    - A JavaScript promise is represented by the value it settles to
      ([Settled]): [Fulfilled v] or [Rejected reason].  An [async] function
      that throws settles to [Rejected]; a synchronous [throw] is a
      [Rejected] result as well.
    - An [async] function is one Rocq function when nothing else can run
      during its [await]; where that matters ([connectToRelay]) the part
      before and the part after the [await] are separate functions.
    - The third-party packages ([nostr-tools], [@noble/hashes]) are not part
      of the repository.  Their behaviour enters either as an explicit
      argument (the network oracle, the pool's answers, the signer, the
      NIP-19 codec) or, for the two hex helpers, as a small executable
      model.  Built-ins of the language that work on text ([trim],
      [slice], [JSON.parse], [JSON.stringify]) are arguments too; [slice]
      comes with a reference implementation for texts of one code unit
      per character.
    - Module-level mutable variables ([pool], [activeRelays]) and the
      browser's [localStorage] are fields of an explicit state record that
      every operation threads through.
    - A plain object used as a map (such as [activeRelays]) is a [gmap] of
      its own entries; what it inherits from [Object.prototype] is
      modelled where the code reads it.
    - Numbers that the code only compares or subtracts ([created_at]) are
      integers in [Z]. *)

From Stdlib Require Import ZArith NArith List Bool Ascii String Lia Permutation.
From Stdlib Require Strings.Byte.
From Stdlib Require Import Sorting.Sorted.
From stdpp Require Import base option list gmap strings.

Local Open Scope string_scope.
Local Open Scope Z_scope.

(** ** Promises *)

Inductive Settled (A : Type) : Type :=
  | Fulfilled (value : A)
  | Rejected (reason : string).
Arguments Fulfilled {A} value.
Arguments Rejected {A} reason.

Definition is_fulfilled {A} (s : Settled A) : bool :=
  match s with Fulfilled _ => true | Rejected _ => false end.

Definition fulfilled_value {A} (s : Settled A) : option A :=
  match s with Fulfilled v => Some v | Rejected _ => None end.

(** ** Protocol data ([nostr-tools] types as the code uses them) *)

Record Event : Type := mkEvent {
  id : string;
  pubkey : string;
  created_at : Z;
  kind : Z;
  tags : list (list string);
  content : string;
  sig : string
}.

Record EventTemplate : Type := mkTemplate {
  t_kind : Z;
  t_created_at : Z;
  t_tags : list (list string);
  t_content : string
}.

Record Filter : Type := mkFilter {
  f_ids : option (list string);
  f_authors : option (list string);
  f_kinds : option (list Z);
  f_since : option Z;
  f_until : option Z;
  f_limit : option Z
}.

(** ** Built-ins of the language *)

(** The values [JSON.parse] can return.  A number is given by the bits of
    its IEEE 754 double; the fields of an object are kept in their order. *)
Local Unset Elimination Schemes.
Inductive Json : Type :=
  | JNull
  | JBool (b : bool)
  | JNumber (bits : N)
  | JString (s : string)
  | JArray (items : list Json)
  | JObject (fields : list (string * Json)).
Local Set Elimination Schemes.

(** [String.prototype.slice(begin, end)], a built-in that counts UTF-16
    code units; [None] is an omitted [end]. *)
Definition Slice : Type := string -> Z -> option Z -> string.

(** [slice] on a text in which every character is one code unit, as in
    hexadecimal and bech32 texts. *)
Definition ascii_slice : Slice :=
  fun s begin_ end_ =>
    let len := Z.of_nat (String.length s) in
    let clamp := fun i => if i <? 0 then Z.max (len + i) 0 else Z.min i len in
    let from := clamp begin_ in
    let to := match end_ with Some e => clamp e | None => len end in
    String.substring (Z.to_nat from) (Z.to_nat (to - from)) s.

(** ** Relay handles *)

(** A connected relay handle, as returned by [SimplePool.ensureRelay]: an
    object of the library.  The repository stores and returns such objects
    and never looks inside them; [relay_properties] lists the names under
    which the object, with the class it is an instance of, holds a truthy
    value (its properties are taken to be ordinary writable ones), which
    matters only once such an object has become the prototype of
    [activeRelays] (see [Relays.activeRelays_set]). *)
Record Relay : Type := mkRelay {
  relay_url : string;
  relay_properties : list string
}.

(** constants.ts *)
Definition TEXT_NOTE_KIND : Z := 1.
Definition METADATA_KIND : Z := 0.
Definition REACTION_KIND : Z := 7.
Definition CONTACTS_KIND : Z := 3.
Definition ENCRYPTED_DM_KIND : Z := 4.
Definition EVENT_DELETION_KIND : Z := 5.
Definition REPOST_KIND : Z := 6.

(** ** relays.ts *)

Module Relays.

Definition DEFAULT_RELAYS : list string :=
  [ "wss://relay.damus.io"; "wss://nos.lol";
    "wss://relay.nostr.band"; "wss://relay.snort.social" ].

(** *** The plain object [activeRelays]

    [let activeRelays: Record<string, Relay> = {}] is an ordinary object.
    A read [activeRelays[url]] finds the entries of the object itself and,
    failing that, whatever the object inherits from its prototype; a write
    [activeRelays[url] = relay] creates or replaces an entry, except for
    the name [__proto__], which is an accessor of [Object.prototype]: its
    setter makes the relay object the new prototype and creates no
    entry; [delete] removes an entry of the object itself only. *)

(** [Object.getOwnPropertyNames(Object.prototype)]; each of these
    properties holds a function or an object, hence a truthy value. *)
Definition Object_prototype : list string :=
  [ "constructor"; "__defineGetter__"; "__defineSetter__"; "hasOwnProperty";
    "__lookupGetter__"; "__lookupSetter__"; "isPrototypeOf";
    "propertyIsEnumerable"; "toString"; "valueOf"; "__proto__";
    "toLocaleString" ].

(** The prototype of [activeRelays]: [Object.prototype] for the literal
    [{}], a relay object after [activeRelays['__proto__'] = relay]. *)
Inductive Prototype : Type :=
  | ObjectPrototype
  | RelayPrototype (relay : Relay).

(** What [activeRelays[url]] evaluates to: a relay object, a truthy value
    found on the prototype chain under [name], or a falsy value
    ([undefined], or a falsy property of a relay prototype; the code
    only tests the value, so these are not told apart). *)
Inductive Value : Type :=
  | Undefined
  | RelayObject (relay : Relay)
  | Inherited (name : string).

Definition truthy (v : Value) : bool :=
  match v with
  | Undefined => false
  | RelayObject _ => true
  | Inherited _ => true
  end.

(** The names under which a prototype offers a truthy value.  A relay
    object is itself an object, so the names of [Object.prototype] are
    found through it as well. *)
Definition inherits (proto : Prototype) (name : string) : bool :=
  match proto with
  | ObjectPrototype => bool_decide (name ∈ Object_prototype)
  | RelayPrototype relay =>
      bool_decide (name ∈ relay_properties relay) || bool_decide (name ∈ Object_prototype)
  end.

(** The state the module reads and writes.
    - [window_defined]: [typeof window !== 'undefined'] (false during
      server-side rendering).
    - [stored_relays]: the [nostr_relays] item of [localStorage]; the
      JSON text is represented by the array it encodes, [None] when the
      item is absent.
    - [pool]: the module variable [pool]; [None] is [null], [Some c] is a
      [SimplePool] with open connections to the URLs in [c].
    - [activeRelays]: the entries of the object held by the module
      variable of that name.
    - [prototype]: the prototype of that object. *)
Record State : Type := mkState {
  window_defined : bool;
  stored_relays : option (list string);
  pool : option (gset string);
  activeRelays : gmap string Relay;
  prototype : Prototype
}.

Definition set_stored (v : option (list string)) (st : State) : State :=
  mkState (window_defined st) v (pool st) (activeRelays st) (prototype st).
Definition set_pool (p : option (gset string)) (st : State) : State :=
  mkState (window_defined st) (stored_relays st) p (activeRelays st) (prototype st).
Definition set_active (a : gmap string Relay) (st : State) : State :=
  mkState (window_defined st) (stored_relays st) (pool st) a (prototype st).
Definition set_prototype (proto : Prototype) (st : State) : State :=
  mkState (window_defined st) (stored_relays st) (pool st) (activeRelays st) proto.

(** [activeRelays[url]] as an expression.  The inherited [__proto__]
    accessor returns the prototype itself. *)
Definition activeRelays_get (url : string) (st : State) : Value :=
  match activeRelays st !! url with
  | Some relay => RelayObject relay
  | None =>
      match prototype st, String.eqb url "__proto__" with
      | RelayPrototype relay, true => RelayObject relay
      | proto, _ => if inherits proto url then Inherited url else Undefined
      end
  end.

(** [activeRelays[url] = relay] *)
Definition activeRelays_set (url : string) (relay : Relay) (st : State) : State :=
  match activeRelays st !! url, String.eqb url "__proto__" with
  | None, true => set_prototype (RelayPrototype relay) st
  | _, _ => set_active (<[url := relay]> (activeRelays st)) st
  end.

(** [SimplePool.close(urls)] drops the connections to [urls]. *)
Definition pool_close (urls : list string) (c : gset string) : gset string :=
  c ∖ list_to_set urls.

(** The network: what a connection attempt to a URL settles to. *)
Definition Network : Type := string -> Settled Relay.

Definition getPool (st : State) : gset string * State :=
  match pool st with
  | Some c => (c, st)
  | None => (∅, set_pool (Some ∅) st)
  end.

Definition getSavedRelays (st : State) : list string :=
  if window_defined st then
    match stored_relays st with
    | Some relays => relays
    | None => DEFAULT_RELAYS
    end
  else DEFAULT_RELAYS.

Definition saveRelays (relays : list string) (st : State) : State :=
  if window_defined st then set_stored (Some relays) st else st.

(** [pool.close(getSavedRelays())] acts on the pool object that is given
    up in the next statement; [activeRelays = {}] installs a fresh object,
    whose prototype is [Object.prototype] again. *)
Definition closePool (st : State) : State :=
  match pool st with
  | Some _ => set_prototype ObjectPrototype (set_active ∅ (set_pool None st))
  | None => st
  end.

(** [SimplePool.ensureRelay(url)]: on success the pool holds a connection
    to [url]. *)
Definition ensureRelay (net : Network) (url : string) (st : State)
  : Settled Relay * State :=
  let '(c, st1) := getPool st in
  match net url with
  | Fulfilled r => (Fulfilled r, set_pool (Some (c ∪ {[url]})) st1)
  | Rejected e => (Rejected e, st1)
  end.

(** [connectToRelay] is [async]: it runs up to [await p.ensureRelay(url)],
    is suspended there, and goes on when the promise has settled.  Other
    code of the application can run in between. *)
Inductive Suspended : Type :=
  | Returned (result : Settled Value)
  | Awaiting (promise : Settled Relay).

(** Up to the [await]. *)
Definition connectToRelay_call (net : Network) (url : string) (st : State)
  : Suspended * State :=
  if truthy (activeRelays_get url st)
  then (Returned (Fulfilled (activeRelays_get url st)), st)
  else
    let '(promise, st1) := ensureRelay net url st in
    (Awaiting promise, st1).

(** After the [await], in the state the module has by then. *)
Definition connectToRelay_resume (url : string) (promise : Settled Relay) (st : State)
  : Settled Value * State :=
  match promise with
  | Fulfilled relay => (Fulfilled (RelayObject relay), activeRelays_set url relay st)
  | Rejected _ => (Rejected ("Failed to connect to relay: " ++ url), st)
  end.

(** A call during whose [await] nothing else touches the module. *)
Definition connectToRelay (net : Network) (url : string) (st : State)
  : Settled Value * State :=
  match connectToRelay_call net url st with
  | (Returned result, st1) => (result, st1)
  | (Awaiting promise, st1) => connectToRelay_resume url promise st1
  end.

(** One element of [urls.map(url => p.ensureRelay(url).then(..).catch(..))]:
    the promise settles to the relay, or to [null] ([None]). *)
Definition connect_one (net : Network) (url : string) (st : State)
  : option Relay * State :=
  match ensureRelay net url st with
  | (Fulfilled relay, st1) => (Some relay, activeRelays_set url relay st1)
  | (Rejected _, st1) => (None, st1)
  end.

(** The whole batch.  The registrations of different URLs write under
    different names, and the pool answers the same URL with the same
    relay, so the order in which the promises settle makes no difference
    to the state that results; the order of the list is taken. *)
Fixpoint connect_all (net : Network) (urls : list string) (st : State)
  : list (option Relay) * State :=
  match urls with
  | [] => ([], st)
  | url :: rest =>
      let '(r, st1) := connect_one net url st in
      let '(rs, st2) := connect_all net rest st1 in
      (r :: rs, st2)
  end.

(** [relays.filter(Boolean)]: a relay object is truthy, [null] is not. *)
Definition filter_Boolean (rs : list (option Relay)) : list Relay :=
  omap (fun r => r) rs.

(** A call during whose [await] nothing else touches the module. *)
Definition connectToRelays (net : Network) (urls : list string) (st : State)
  : Settled (list Relay) * State :=
  let '(_, st0) := getPool st in
  let '(relays, st1) := connect_all net urls st0 in
  (Fulfilled (filter_Boolean relays), st1).

Definition disconnectFromRelay (url : string) (st : State) : State :=
  match truthy (activeRelays_get url st), pool st with
  | true, Some c =>
      set_active (delete url (activeRelays st))
                 (set_pool (Some (pool_close [url] c)) st)
  | _, _ => st
  end.

(** [relays.includes(url)] *)
Definition includes (relays : list string) (url : string) : bool :=
  existsb (String.eqb url) relays.

Definition addRelay (url : string) (st : State) : State :=
  let relays := getSavedRelays st in
  if negb (includes relays url) then saveRelays (relays ++ [url]) st
  else st.

Definition removeRelay (url : string) (st : State) : State :=
  let relays := getSavedRelays st in
  let st1 :=
    saveRelays (List.filter (fun relay => negb (String.eqb relay url)) relays) st in
  disconnectFromRelay url st1.

Definition isRelayActive (url : string) (st : State) : bool :=
  truthy (activeRelays_get url st).

(** [{...activeRelays}]: the entries of the object itself. *)
Definition getActiveRelays (st : State) : gmap string Relay := activeRelays st.

(** The pool holds an open connection to [url]. *)
Definition pool_connected (url : string) (st : State) : bool :=
  match pool st with
  | Some c => bool_decide (url ∈ c)
  | None => false
  end.

(** The module as it is when first loaded. *)
Definition initial (w : bool) (stored : option (list string)) : State :=
  mkState w stored None ∅ ObjectPrototype.

End Relays.

(** ** keys.ts *)

Module Keys.

(** *** [@noble/hashes/utils]: [hexToBytes] and [bytesToHex]

    Executable models of the two helpers the repository imports.
    [hexToBytes] accepts an even number of hexadecimal digits in either
    case and throws otherwise; [bytesToHex] prints two lower-case digits
    per byte. *)

Definition asciiToBase16 (ch : ascii) : option N :=
  let c := N_of_ascii ch in
  if ((48 <=? c) && (c <=? 57))%N then Some (c - 48)%N
  else if ((65 <=? c) && (c <=? 70))%N then Some (c - 55)%N
  else if ((97 <=? c) && (c <=? 102))%N then Some (c - 87)%N
  else None.

Fixpoint hexToBytes (hex : string) : Settled (list Byte.byte) :=
  match hex with
  | EmptyString => Fulfilled []
  | String _ EmptyString => Rejected "hex string expected, got unpadded hex"
  | String c1 (String c2 rest) =>
      match asciiToBase16 c1, asciiToBase16 c2 with
      | Some n1, Some n2 =>
          match Byte.of_N (n1 * 16 + n2), hexToBytes rest with
          | Some b, Fulfilled bs => Fulfilled (b :: bs)
          | _, Rejected e => Rejected e
          | None, _ => Rejected "hex string expected, got non-hex character"
          end
      | _, _ => Rejected "hex string expected, got non-hex character"
      end
  end.

Definition hex_digit (d : N) : ascii :=
  if (d <? 10)%N then ascii_of_N (48 + d) else ascii_of_N (87 + d).

Fixpoint bytesToHex (bytes : list Byte.byte) : string :=
  match bytes with
  | [] => EmptyString
  | b :: rest =>
      let n := Byte.to_N b in
      String (hex_digit (n / 16)) (String (hex_digit (n mod 16)) (bytesToHex rest))
  end.

(** *** [nostr-tools/nip19]

    The bech32 codec is external.  The repository uses three of its
    entry points; [decode] returns a tagged value whose [data] is a hex
    string for [npub] and raw bytes for [nsec]. *)

Inductive Data : Type :=
  | DString (s : string)
  | DBytes (bytes : list Byte.byte).

Record Decoded : Type := mkDecoded { d_type : string; d_data : Data }.

Record Nip19 : Type := mkNip19 {
  npubEncode : string -> string;
  nsecEncode : list Byte.byte -> string;
  decode : string -> Settled Decoded
}.

(** The contract of the codec on well-formed keys: [decode] inverts the
    two encoders. *)
Record Nip19_laws (nip19 : Nip19) (valid : string -> Prop) : Prop := {
  decode_npubEncode : forall hex,
    valid hex ->
    decode nip19 (npubEncode nip19 hex) = Fulfilled (mkDecoded "npub" (DString hex));
  decode_nsecEncode : forall bytes,
    List.length bytes = 32%nat ->
    decode nip19 (nsecEncode nip19 bytes) = Fulfilled (mkDecoded "nsec" (DBytes bytes))
}.

(** A key in canonical form: 64 lower-case hexadecimal digits. *)
Definition is_lower_hex (ch : ascii) : bool :=
  let c := N_of_ascii ch in
  (((48 <=? c) && (c <=? 57)) || ((97 <=? c) && (c <=? 102)))%N.

Fixpoint all_chars (p : ascii -> bool) (s : string) : bool :=
  match s with
  | EmptyString => true
  | String c rest => p c && all_chars p rest
  end.

Definition valid_key (hex : string) : Prop :=
  String.length hex = 64%nat /\ all_chars is_lower_hex hex = true.

Section Codec.
Variable nip19 : Nip19.

Definition hexToNpub (publicKey : string) : string :=
  npubEncode nip19 publicKey.

(** [hexToBytes] may throw; there is no handler, so the exception
    escapes. *)
Definition hexToNsec (privateKeyHex : string) : Settled string :=
  match hexToBytes privateKeyHex with
  | Fulfilled privateKeyBytes => Fulfilled (nsecEncode nip19 privateKeyBytes)
  | Rejected e => Rejected e
  end.

(** [data as string] is a compile-time cast only: whatever [decode]
    produced is returned. *)
Definition npubToHex (npub : string) : Settled Data :=
  match decode nip19 npub with
  | Fulfilled d => Fulfilled (d_data d)
  | Rejected _ => Rejected "Invalid npub format"
  end.

(** [bytesToHex] rejects anything that is not a byte array; the
    handler turns that into the same error as a failed decode. *)
Definition nsecToHex (nsec : string) : Settled string :=
  match decode nip19 nsec with
  | Fulfilled d =>
      match d_data d with
      | DBytes bytes => Fulfilled (bytesToHex bytes)
      | DString _ => Rejected "Invalid nsec format"
      end
  | Rejected _ => Rejected "Invalid nsec format"
  end.
End Codec.

(** A reference codec with the NIP-19 interface: the human-readable
    part, the separator [1] and the payload in hexadecimal.  It serves as
    a concrete inhabitant of [Nip19_laws]. *)
Definition strip_prefix (p s : string) : option string :=
  if String.prefix p s
  then Some (String.substring (String.length p) (String.length s - String.length p) s)
  else None.

Definition hex_nip19 : Nip19 :=
  mkNip19
    (fun hex => "npub1" ++ hex)
    (fun bytes => "nsec1" ++ bytesToHex bytes)
    (fun s =>
       match strip_prefix "npub1" s with
       | Some payload => Fulfilled (mkDecoded "npub" (DString payload))
       | None =>
           match strip_prefix "nsec1" s with
           | Some payload =>
               match hexToBytes payload with
               | Fulfilled bytes => Fulfilled (mkDecoded "nsec" (DBytes bytes))
               | Rejected e => Rejected e
               end
           | None => Rejected "Unknown prefix"
           end
       end).

(** [getPrivateKey]: the [nostr_private_key] item of [localStorage], or
    [null] outside the browser. *)
Record KeyStore : Type := mkKeyStore {
  ks_window_defined : bool;
  ks_private_key : option string
}.

Definition getPrivateKey (ks : KeyStore) : option string :=
  if ks_window_defined ks then ks_private_key ks else None.

Definition hasPrivateKey (ks : KeyStore) : bool :=
  match getPrivateKey ks with Some _ => true | None => false end.

(** [savePrivateKey] and [clearPrivateKey]: [setItem] and [removeItem] on
    the same [localStorage] item, guarded by the same test for the
    browser. *)
Definition savePrivateKey (privateKeyHex : string) (ks : KeyStore) : KeyStore :=
  if ks_window_defined ks then mkKeyStore (ks_window_defined ks) (Some privateKeyHex)
  else ks.

Definition clearPrivateKey (ks : KeyStore) : KeyStore :=
  if ks_window_defined ks then mkKeyStore (ks_window_defined ks) None
  else ks.

(** [getPublicKey] of [nostr-tools/pure]: the derivation of the public key
    from the secret key bytes, which throws on an invalid scalar. *)
Definition Derivation : Type := list Byte.byte -> Settled string.

Definition getNostrPublicKey (getPublicKey : Derivation) (privateKeyHex : string)
  : Settled string :=
  match hexToBytes privateKeyHex with
  | Fulfilled privateKeyBytes =>
      match getPublicKey privateKeyBytes with
      | Fulfilled publicKey => Fulfilled publicKey
      | Rejected _ => Rejected "Invalid private key format"
      end
  | Rejected _ => Rejected "Invalid private key format"
  end.

(** [if (!privateKeyHex) return null]: [null] and the empty string. *)
Definition getCurrentUserPublicKey (getPublicKey : Derivation) (ks : KeyStore)
  : Settled (option string) :=
  match getPrivateKey ks with
  | None => Fulfilled None
  | Some privateKeyHex =>
      if String.eqb privateKeyHex "" then Fulfilled None
      else
        match getNostrPublicKey getPublicKey privateKeyHex with
        | Fulfilled publicKey => Fulfilled (Some publicKey)
        | Rejected e => Rejected e
        end
  end.

End Keys.

(** ** [Array.prototype.sort] with a comparator

    The sort is stable: elements the comparator does not separate keep
    their relative order.  For a consistent comparator the result of a
    stable sort is unique, so an insertion sort that places an element in
    front of the first element it does not have to follow is a faithful
    model. *)

Fixpoint insert_sorted {A} (cmp : A -> A -> Z) (x : A) (l : list A) : list A :=
  match l with
  | [] => [x]
  | y :: rest =>
      if cmp x y <=? 0 then x :: y :: rest
      else y :: insert_sorted cmp x rest
  end.

Fixpoint Array_sort {A} (cmp : A -> A -> Z) (l : list A) : list A :=
  match l with
  | [] => []
  | x :: rest => insert_sorted cmp x (Array_sort cmp rest)
  end.

(** The comparator [(a, b) => b.created_at - a.created_at]. *)
Definition by_created_at_desc (a b : Event) : Z := created_at b - created_at a.

(** [self.findIndex(p)]: the first index whose element satisfies [p], or -1. *)
Fixpoint findIndex_from {A} (p : A -> bool) (index : Z) (l : list A) : Z :=
  match l with
  | [] => -1
  | x :: rest => if p x then index else findIndex_from p (index + 1) rest
  end.

Definition findIndex {A} (p : A -> bool) (l : list A) : Z := findIndex_from p 0 l.

(** [self.filter((element, index) => f(element, index))] *)
Fixpoint filter_indexed_from {A} (f : A -> Z -> bool) (index : Z) (l : list A) : list A :=
  match l with
  | [] => []
  | x :: rest =>
      if f x index then x :: filter_indexed_from f (index + 1) rest
      else filter_indexed_from f (index + 1) rest
  end.

Definition filter_indexed {A} (f : A -> Z -> bool) (l : list A) : list A :=
  filter_indexed_from f 0 l.

(** [forEach((element, index) => ...)] as a left fold that sees the index. *)
Fixpoint forEach_from {A T} (f : T -> nat -> A -> T) (index : nat) (l : list A) (s : T) : T :=
  match l with
  | [] => s
  | x :: rest => forEach_from f (index + 1)%nat rest (f s index x)
  end.

(** Descending order of [created_at]. *)
Definition newer_first (a b : Event) : Prop := created_at b <= created_at a.

(** Number of events of a list that carry a given id. *)
Definition occurrences (i : string) (l : list Event) : nat :=
  List.length (List.filter (fun e => String.eqb (id e) i) l).

(** ** events.ts *)

Module Events.
Import Keys.

(** What the [SimplePool] of [nostr-tools] answers to the three calls
    [events.ts] makes.
    - [publish urls event]: the array of promises, each already settled,
      or a synchronous exception.
    - [querySync urls filter maxWait]: the promise of the collected
      events.
    - [subscribeMany urls filters]: the events the pool hands to the
      [onevent] callback, in order of delivery. *)
Record SimplePool : Type := mkPool {
  publish : list string -> Event -> Settled (list (Settled string));
  querySync : list string -> Filter -> Z -> Settled (list Event);
  subscribeMany : list string -> list Filter -> list Event
}.

(** [finalizeEvent(template, secretKey)] *)
Definition Signer : Type := EventTemplate -> list Byte.byte -> Settled Event.

(** Optional [relayUrls] arguments default to [getSavedRelays()]. *)
Definition relayUrls_or_saved (rst : Relays.State) (relayUrls : option (list string))
  : list string :=
  match relayUrls with
  | Some urls => urls
  | None => Relays.getSavedRelays rst
  end.

(** [Math.floor(Date.now() / 1000)] *)
Definition now_seconds (now_ms : Z) : Z := now_ms / 1000.

(** [!privateKeyHex]: [null] and the empty string are falsy. *)
Definition usable_key (privateKeyHex : option string) : option string :=
  match privateKeyHex with
  | Some k => if String.eqb k "" then None else Some k
  | None => None
  end.

(** The body of the [try] block shared by the three constructors: decode
    the key and sign; the [catch] logs and yields [null]. *)
Definition sign_or_null (finalizeEvent : Signer) (privateKeyHex : string)
    (eventTemplate : EventTemplate) : option Event :=
  match hexToBytes privateKeyHex with
  | Fulfilled privateKeyBytes =>
      match finalizeEvent eventTemplate privateKeyBytes with
      | Fulfilled signedEvent => Some signedEvent
      | Rejected _ => None
      end
  | Rejected _ => None
  end.

Definition createNoteEvent (finalizeEvent : Signer) (ks : KeyStore) (now_ms : Z)
    (content : string) (tags : list (list string)) : Settled (option Event) :=
  match usable_key (getPrivateKey ks) with
  | None => Rejected "No private key available"
  | Some privateKeyHex =>
      Fulfilled (sign_or_null finalizeEvent privateKeyHex
                   (mkTemplate TEXT_NOTE_KIND (now_seconds now_ms) tags content))
  end.

Definition createReactionEvent (finalizeEvent : Signer) (ks : KeyStore) (now_ms : Z)
    (eventId pubkey content : string) : Settled (option Event) :=
  match usable_key (getPrivateKey ks) with
  | None => Rejected "No private key available"
  | Some privateKeyHex =>
      Fulfilled (sign_or_null finalizeEvent privateKeyHex
                   (mkTemplate REACTION_KIND (now_seconds now_ms)
                      [ ["e"; eventId]; ["p"; pubkey] ] content))
  end.

(** [relayUrls[index]]; reading past the end gives [undefined], which as
    a property key is the string "undefined". *)
Definition url_at (relayUrls : list string) (index : nat) : string :=
  match relayUrls !! index with
  | Some url => url
  | None => "undefined"
  end.

(** [results[key] = value] on [const results: Record<string, boolean> = {}],
    a plain object as well: the assignment creates or replaces an entry,
    except under the name [__proto__], whose inherited setter ignores a
    boolean and leaves the object as it is.  The map holds the entries of
    the object itself, which is what the caller receives. *)
Definition results_set (key : string) (value : bool) (results : gmap string bool)
  : gmap string bool :=
  if String.eqb key "__proto__" then results else <[key := value]> results.

Definition init_results (relayUrls : list string) : gmap string bool :=
  fold_left (fun results relayUrl => results_set relayUrl false results) relayUrls ∅.

Definition mark_settled (relayUrls : list string)
    (results : gmap string bool) (index : nat) (result : Settled string)
  : gmap string bool :=
  if is_fulfilled result then results_set (url_at relayUrls index) true results
  else results.

Definition publishEvent (p : SimplePool) (event : Event) (relayUrls : list string)
  : Settled (gmap string bool) :=
  match publish p relayUrls event with
  | Rejected _ => Rejected "Failed to publish event"
  | Fulfilled settledResults =>
      Fulfilled (forEach_from (mark_settled relayUrls) 0 settledResults
                   (init_results relayUrls))
  end.

Definition createAndPublishNote (finalizeEvent : Signer) (p : SimplePool)
    (ks : KeyStore) (rst : Relays.State) (now_ms : Z)
    (content : string) (tags : list (list string)) (relayUrls : option (list string))
  : Settled (option Event) :=
  match createNoteEvent finalizeEvent ks now_ms content tags with
  | Fulfilled (Some event) =>
      match publishEvent p event (relayUrls_or_saved rst relayUrls) with
      | Fulfilled _ => Fulfilled (Some event)
      | Rejected _ => Fulfilled None
      end
  | Fulfilled None => Fulfilled None
  | Rejected _ => Fulfilled None
  end.

(** [subscribeToEvents]: every event the pool delivers is passed on to
    [onEvent], with the constant relay name.  The callback acts on a
    state [T] of the caller. *)
Definition subscribeToEvents {T} (p : SimplePool) (filter : Filter)
    (onEvent : Event -> string -> T -> T) (relayUrls : list string) (s : T) : T :=
  fold_left (fun acc event => onEvent event "unknown-relay" acc)
            (subscribeMany p relayUrls [filter]) s.

(** A callback that records its invocations. *)
Definition record_call (event : Event) (relay : string)
    (calls : list (Event * string)) : list (Event * string) :=
  calls ++ [(event, relay)].

Definition fetchEvents (p : SimplePool) (filter : Filter) (relayUrls : list string)
    (timeout : Z) : Settled (list Event) :=
  match querySync p relayUrls filter timeout with
  | Fulfilled events => Fulfilled events
  | Rejected _ => Fulfilled []
  end.

Definition DEFAULT_TIMEOUT : Z := 3000.

Definition fetchRecentNotes (p : SimplePool) (rst : Relays.State)
    (limit since : Z) (relayUrls : option (list string)) : Settled (list Event) :=
  fetchEvents p (mkFilter None None (Some [TEXT_NOTE_KIND]) (Some since) None (Some limit))
              (relayUrls_or_saved rst relayUrls) DEFAULT_TIMEOUT.

(** [events[0]] after the in-place sort, [null] for an empty array. *)
Definition latest (events : list Event) : option Event :=
  head (Array_sort by_created_at_desc events).

Definition fetchUserMetadata (p : SimplePool) (rst : Relays.State)
    (pubkey : string) (relayUrls : option (list string)) : Settled (option Event) :=
  match fetchEvents p (mkFilter None (Some [pubkey]) (Some [METADATA_KIND]) None None (Some 1))
                    (relayUrls_or_saved rst relayUrls) DEFAULT_TIMEOUT with
  | Fulfilled events => Fulfilled (latest events)
  | Rejected e => Rejected e
  end.

Definition updateUserMetadata {Metadata : Type} (JSON_stringify : Metadata -> string)
    (finalizeEvent : Signer) (p : SimplePool) (ks : KeyStore) (rst : Relays.State)
    (now_ms : Z) (metadata : Metadata) (relayUrls : option (list string))
  : Settled (option Event) :=
  match usable_key (getPrivateKey ks) with
  | None => Rejected "No private key available"
  | Some privateKeyHex =>
      match sign_or_null finalizeEvent privateKeyHex
              (mkTemplate METADATA_KIND (now_seconds now_ms) [] (JSON_stringify metadata)) with
      | Some signedEvent =>
          match publishEvent p signedEvent (relayUrls_or_saved rst relayUrls) with
          | Fulfilled _ => Fulfilled (Some signedEvent)
          | Rejected _ => Fulfilled None
          end
      | None => Fulfilled None
      end
  end.

(** Modelled from the spec: the subscription cache of [SimplePool]
    ([subscribeMany] belongs to [nostr-tools], not to the repository),
    which the spec describes as a pool-level deduplication cache keyed by
    [id], unbounded for the session.  [arrivals] is the interleaving of
    the frames the relays send, each tagged with the relay it came from;
    an event is handed on unless its id is already in [knownIds]. *)
Fixpoint deliver (knownIds : gset string) (arrivals : list (string * Event)) : list Event :=
  match arrivals with
  | [] => []
  | (_, event) :: rest =>
      if bool_decide (id event ∈ knownIds) then deliver knownIds rest
      else event :: deliver ({[ id event ]} ∪ knownIds) rest
  end.

(** Only the listed relays are subscribed to. *)
Definition from_listed (relayUrls : list string) (a : string * Event) : bool :=
  existsb (String.eqb (fst a)) relayUrls.

(** A pool whose subscriptions run through that cache. *)
Definition caching_pool (arrivals : list (string * Event)) : SimplePool :=
  mkPool (fun urls _ => Fulfilled (map (fun _ => Rejected "not connected") urls))
         (fun _ _ _ => Fulfilled [])
         (fun urls _ => deliver ∅ (List.filter (from_listed urls) arrivals)).

(** Pools with a fixed answer to [querySync], and one with a fixed list
    of settled publish promises. *)
Definition answering_pool (answer : Settled (list Event)) : SimplePool :=
  mkPool (fun urls _ => Fulfilled (map (fun _ => Rejected "not connected") urls))
         (fun _ _ _ => answer)
         (fun _ _ => []).

Definition publishing_pool (outcomes : list (Settled string)) : SimplePool :=
  mkPool (fun _ _ => Fulfilled outcomes)
         (fun _ _ _ => Fulfilled [])
         (fun _ _ => []).

(** A signer that, like the Schnorr signer behind [finalizeEvent],
    refuses keys that are not 32 bytes long. *)
Definition strict_signer : Signer :=
  fun template key =>
    if Nat.eqb (List.length key) 32
    then Fulfilled (mkEvent "id" "pubkey" (t_created_at template) (t_kind template)
                            (t_tags template) (t_content template) "sig")
    else Rejected "private key must be 32 bytes".

Definition fetchUserNotes (p : SimplePool) (rst : Relays.State)
    (pubkey : string) (limit : Z) (relayUrls : option (list string))
  : Settled (list Event) :=
  fetchEvents p (mkFilter None (Some [pubkey]) (Some [TEXT_NOTE_KIND]) None None (Some limit))
              (relayUrls_or_saved rst relayUrls) DEFAULT_TIMEOUT.

(** [events.length > 0 ? events[0] : null] *)
Definition fetchEventById (p : SimplePool) (rst : Relays.State)
    (id : string) (relayUrls : option (list string)) : Settled (option Event) :=
  match fetchEvents p (mkFilter (Some [id]) None None None None None)
                    (relayUrls_or_saved rst relayUrls) DEFAULT_TIMEOUT with
  | Fulfilled events => Fulfilled (head events)
  | Rejected e => Rejected e
  end.

(** [parseUserMetadata]: [JSON.parse(event.content)], whatever value that
    is (the declared return type is not checked at run time), or the empty
    object when parsing throws. *)
Definition parseUserMetadata (JSON_parse : string -> Settled Json) (event : Event) : Json :=
  match JSON_parse (content event) with
  | Fulfilled metadata => metadata
  | Rejected _ => JObject []
  end.

End Events.

(** ** hooks.ts: [useNostrEvents] *)

Module Hooks.
Import Events.

(** The state cells of the hook. *)
Record HookState : Type := mkHook {
  events : list Event;
  pendingEvents : list Event;
  hasNewEvents : bool;
  isLoading : bool
}.

Definition fetchEventsData (p : SimplePool) (filter : Filter) (relayUrls : list string)
    (enabled : bool) (st : HookState) : HookState :=
  if negb enabled then st
  else
    match fetchEvents p filter relayUrls DEFAULT_TIMEOUT with
    | Fulfilled fetchedEvents =>
        mkHook (Array_sort by_created_at_desc fetchedEvents) [] false false
    | Rejected _ =>
        mkHook (events st) (pendingEvents st) (hasNewEvents st) false
    end.

(** [allEvents.filter((event, index, self) =>
       index === self.findIndex(e => e.id === event.id))] *)
Definition uniqueEvents (allEvents : list Event) : list Event :=
  filter_indexed
    (fun event index =>
       index =? findIndex (fun e => String.eqb (id e) (id event)) allEvents)
    allEvents.

(** The updater passed to [setEvents] by [applyPendingEvents]. *)
Definition merge_pending (pending prev : list Event) : list Event :=
  Array_sort by_created_at_desc (uniqueEvents (prev ++ pending)).

Definition applyPendingEvents (st : HookState) : HookState :=
  if (0 <? Z.of_nat (List.length (pendingEvents st)))
  then mkHook (merge_pending (pendingEvents st) (events st)) [] false (isLoading st)
  else st.

(** [array.some(e => e.id === event.id)] *)
Definition some_id (i : string) (l : list Event) : bool :=
  existsb (fun e => String.eqb (id e) i) l.

(** The subscription callback.  [seen_events] and [seen_pending] are the
    values of [events] and [pendingEvents] captured by the closure when
    the effect ran; the updaters act on the current state. *)
Definition on_subscription_event (autoUpdate : bool)
    (seen_events seen_pending : list Event)
    (event : Event) (_relay : string) (st : HookState) : HookState :=
  let isDuplicate := some_id (id event) seen_events || some_id (id event) seen_pending in
  if isDuplicate then st
  else if autoUpdate then
    mkHook (Array_sort by_created_at_desc (event :: events st))
           (pendingEvents st) (hasNewEvents st) (isLoading st)
  else
    mkHook (events st)
           (Array_sort by_created_at_desc (event :: pendingEvents st))
           true (isLoading st).

(** *** [useNostrUser] *)

Record UserState : Type := mkUser {
  isLoggedIn : bool;
  publicKey : option string;
  user_isLoading : bool
}.

(** [checkAuth]; an exception of [getCurrentUserPublicKey] escapes before
    any state is set. *)
Definition checkAuth (getPublicKey : Keys.Derivation) (ks : Keys.KeyStore)
  : Settled UserState :=
  let hasKey := Keys.hasPrivateKey ks in
  match Keys.getCurrentUserPublicKey getPublicKey ks with
  | Fulfilled pubKey => Fulfilled (mkUser hasKey pubKey false)
  | Rejected e => Rejected e
  end.

(** *** [useNostrProfile] *)

(** The state cells of the hook; a [profile] of [JNull] is [null]. *)
Record ProfileState : Type := mkProfile {
  profile : Json;
  profile_event : option Event;
  profile_isLoading : bool
}.

(** [fetchProfile]; [pubkey] is [None] for [null], and the empty string is
    falsy as well. *)
Definition fetchProfile (JSON_parse : string -> Settled Json) (slice : Slice)
    (p : SimplePool) (rst : Relays.State)
    (pubkey : option string) (enabled : bool) (relayUrls : list string)
    (st : ProfileState) : ProfileState :=
  match Events.usable_key pubkey with
  | None => mkProfile (profile st) (profile_event st) false
  | Some pk =>
      if negb enabled then mkProfile (profile st) (profile_event st) false
      else
        match fetchUserMetadata p rst pk (Some relayUrls) with
        | Fulfilled (Some metadataEvent) =>
            mkProfile (parseUserMetadata JSON_parse metadataEvent)
                      (Some metadataEvent) false
        | Fulfilled None =>
            mkProfile (JObject [ ("name", JString (slice pk 0 (Some 8) ++ "...")) ])
                      None false
        | Rejected _ => mkProfile JNull (profile_event st) false
        end
  end.

End Hooks.

(** ** Login form ([handleExistingKeyLogin]) *)

Module Login.

Record LoginState : Type := mkLogin {
  error : option string;
  success : option string
}.

(** The regular expression [/^[a-f0-9]{64}$/i]. *)
Definition is_hex_digit (ch : ascii) : bool :=
  let c := N_of_ascii ch in
  (((48 <=? c) && (c <=? 57)) || ((65 <=? c) && (c <=? 70))
   || ((97 <=? c) && (c <=? 102)))%N.

Definition hex64 (s : string) : bool :=
  Nat.eqb (String.length s) 64 && Keys.all_chars is_hex_digit s.

(** [`Successfully logged in as ${npub.slice(0, 8)}...${npub.slice(-4)}`] *)
Definition success_message (slice : Slice) (npub : string) : string :=
  "Successfully logged in as " ++ slice npub 0 (Some 8) ++ "..." ++ slice npub (-4) None.

(** [trim] is [String.prototype.trim]; [privateKey] is the content of the
    input field. *)
Definition handleExistingKeyLogin (trim : string -> string) (slice : Slice)
    (nip19 : Keys.Nip19)
    (getPublicKey : Keys.Derivation) (privateKey : string)
    (ks : Keys.KeyStore) (ui : LoginState) : Keys.KeyStore * LoginState :=
  let trimmed := trim privateKey in
  let converted :=
    if String.prefix "nsec" trimmed then Keys.nsecToHex nip19 trimmed
    else Fulfilled trimmed in
  match converted with
  | Rejected _ =>
      (ks, mkLogin (Some "Invalid nsec format. Please check your private key.")
                   (success ui))
  | Fulfilled keyToSave =>
      if negb (hex64 keyToSave) then
        (ks, mkLogin
               (Some "Invalid private key format. It should be 64 hex characters or an nsec string.")
               (success ui))
      else
        match Keys.getNostrPublicKey getPublicKey keyToSave with
        | Fulfilled pubkey =>
            (Keys.savePrivateKey keyToSave ks,
             mkLogin None (Some (success_message slice (Keys.hexToNpub nip19 pubkey))))
        | Rejected _ =>
            (ks, mkLogin (Some "Invalid private key. Could not derive public key.")
                         (success ui))
        end
  end.

End Login.

(** ** Settings page ([RelaySettings]) *)

Module Settings.

(** The two state cells of the component and the relay module behind
    them. *)
Record RelaySettings : Type := mkSettings {
  relays : list string;
  newRelay : string;
  module : Relays.State
}.

(** [useState(getSavedRelays())], [useState("")] *)
Definition mount (rst : Relays.State) : RelaySettings :=
  mkSettings (Relays.getSavedRelays rst) "" rst.

Definition handleAddRelay (ui : RelaySettings) : RelaySettings :=
  if String.eqb (newRelay ui) "" || negb (String.prefix "wss://" (newRelay ui)) then ui
  else
    let rst := Relays.addRelay (newRelay ui) (module ui) in
    mkSettings (Relays.getSavedRelays rst) "" rst.

Definition handleRemoveRelay (url : string) (ui : RelaySettings) : RelaySettings :=
  let rst := Relays.removeRelay url (module ui) in
  mkSettings (Relays.getSavedRelays rst) (newRelay ui) rst.

(** What the user can do on the page: type into the field, press "Add",
    press "Remove" next to a listed relay. *)
Inductive Action : Type :=
  | Type_ (text : string)
  | ClickAdd
  | ClickRemove (url : string).

Definition act (a : Action) (ui : RelaySettings) : RelaySettings :=
  match a with
  | Type_ text => mkSettings (relays ui) text (module ui)
  | ClickAdd => handleAddRelay ui
  | ClickRemove url => handleRemoveRelay url ui
  end.

Definition act_all (actions : list Action) (ui : RelaySettings) : RelaySettings :=
  fold_left (fun s a => act a s) actions ui.

End Settings.

(** ** hooks.ts as first written: the subscription callback of
    [useNostrEvents] *)

Module HooksV1.

(** The updater passed to [setEvents]: it looks at the current list. *)
Definition add_event (event : Event) (prev : list Event) : list Event :=
  if Hooks.some_id (id event) prev then prev
  else Array_sort by_created_at_desc (event :: prev).

Definition on_event (event : Event) (_relay : string) (prev : list Event) : list Event :=
  add_event event prev.

(** The list of events after the subscription has delivered what the
    pool hands over. *)
Definition subscribed (p : Events.SimplePool) (filter : Filter)
    (relayUrls : list string) (events : list Event) : list Event :=
  Events.subscribeToEvents p filter on_event relayUrls events.

End HooksV1.

(** ** Note form ([handleSubmit]) *)

Module NoteForm.

Record FormState : Type := mkForm {
  content : string;
  isSubmitting : bool
}.

(** [replyTo ? [['e', replyTo]] : []]; an absent and an empty [replyTo]
    are both falsy. *)
Definition reply_tags (replyTo : option string) : list (list string) :=
  match Events.usable_key replyTo with
  | Some target => [ ["e"; target] ]
  | None => []
  end.

(** The result pairs the new state with the event that was published, if
    any.  [trim] is [String.prototype.trim]. *)
Definition handleSubmit (trim : string -> string) (finalizeEvent : Events.Signer)
    (p : Events.SimplePool) (ks : Keys.KeyStore) (rst : Relays.State) (now_ms : Z)
    (replyTo : option string) (ui : FormState) : FormState * option Event :=
  if String.eqb (trim (content ui)) "" || isSubmitting ui then (ui, None)
  else
    match Events.createAndPublishNote finalizeEvent p ks rst now_ms (content ui)
            (reply_tags replyTo) None with
    | Fulfilled (Some event) => (mkForm "" false, Some event)
    | Fulfilled None => (mkForm (content ui) false, None)
    | Rejected _ => (mkForm (content ui) false, None)
    end.

End NoteForm.

(** ** Profile page ([UserProfileView]) *)

Module ProfilePage.

(** The key the page works with: the address itself, or its decoding when
    it starts with "npub"; [None] stands for the redirection to the 404
    page. *)
Definition resolve (nip19 : Keys.Nip19) (pubkey : string) : option Keys.Data :=
  if String.prefix "npub" pubkey then
    match Keys.npubToHex nip19 pubkey with
    | Fulfilled hexKey => Some hexKey
    | Rejected _ => None
    end
  else Some (Keys.DString pubkey).

End ProfilePage.

(** ** Specification vocabulary *)

Local Open Scope list_scope.

(** [winner] is the resolution of [candidates]: nothing for an empty list,
    otherwise the first event, in arrival order, that carries the largest
    [created_at]. *)
Definition first_newest (candidates : list Event) (winner : option Event) : Prop :=
  match winner with
  | None => candidates = []
  | Some w =>
      exists before after,
        candidates = before ++ w :: after /\
        Forall (fun e => created_at e < created_at w) before /\
        Forall (fun e => created_at e <= created_at w) after
  end.


(** Keep the first event of every id that is not in [seen]. *)
Fixpoint keep_first (seen : list string) (l : list Event) : list Event :=
  match l with
  | [] => []
  | e :: rest =>
      if existsb (String.eqb (id e)) seen then keep_first seen rest
      else e :: keep_first (id e :: seen) rest
  end.

(** Some promise at or after position [index] that belongs to [url] was
    fulfilled. *)
Fixpoint acked_from (relayUrls : list string) (index : nat)
    (outcomes : list (Settled string)) (url : string) : bool :=
  match outcomes with
  | [] => false
  | result :: rest =>
      (is_fulfilled result && String.eqb (Events.url_at relayUrls index) url)
      || acked_from relayUrls (index + 1) rest url
  end.

(** The same hexadecimal digits, with [A]..[F] in lower case. *)
Definition lower_case_digit (ch : ascii) : ascii :=
  let c := N_of_ascii ch in
  if ((65 <=? c) && (c <=? 70))%N then ascii_of_N (c + 32) else ch.

Fixpoint lower_case_digits (s : string) : string :=
  match s with
  | EmptyString => EmptyString
  | String c rest => String (lower_case_digit c) (lower_case_digits rest)
  end.

(** A relay URL with the secure WebSocket scheme. *)
Definition wss (url : string) : Prop := String.prefix "wss://" url = true.

(** The lists of the hook are tidy: no id occurs twice in the shown and
    the pending events together, and both lists are in descending order
    of [created_at]. *)
Definition tidy (st : Hooks.HookState) : Prop :=
  NoDup (map id (Hooks.events st ++ Hooks.pendingEvents st)) /\
  StronglySorted newer_first (Hooks.events st) /\
  StronglySorted newer_first (Hooks.pendingEvents st).

(** * Properties *)

(** ** Relay list and connections *)

Section RelayFacts.
Import Relays.

Lemma includes_spec (relays : list string) (url : string) :
  includes relays url = true <-> url ∈ relays.
Proof.
  unfold includes. rewrite existsb_exists, list_elem_of_In. split.
  - intros (x & Hin & Heq). apply String.eqb_eq in Heq. now subst.
  - intros Hin. exists url. split; [assumption | apply String.eqb_refl].
Qed.

Lemma getSavedRelays_saveRelays (relays : list string) (st : State) :
  window_defined st = true ->
  getSavedRelays (saveRelays relays st) = relays.
Proof.
  intros Hw. unfold saveRelays, getSavedRelays. rewrite Hw. simpl. now rewrite Hw.
Qed.

Lemma saveRelays_keeps (relays : list string) (st : State) :
  window_defined (saveRelays relays st) = window_defined st /\
  pool (saveRelays relays st) = pool st /\
  activeRelays (saveRelays relays st) = activeRelays st /\
  prototype (saveRelays relays st) = prototype st.
Proof.
  unfold saveRelays. destruct (window_defined st) eqn:Hw; simpl; now rewrite ?Hw.
Qed.

Lemma get_saveRelays (relays : list string) (url : string) (st : State) :
  activeRelays_get url (saveRelays relays st) = activeRelays_get url st.
Proof.
  unfold activeRelays_get.
  destruct (saveRelays_keeps relays st) as (_ & _ & -> & ->). reflexivity.
Qed.

Lemma disconnect_keeps (url : string) (st : State) :
  window_defined (disconnectFromRelay url st) = window_defined st /\
  stored_relays (disconnectFromRelay url st) = stored_relays st /\
  prototype (disconnectFromRelay url st) = prototype st.
Proof.
  unfold disconnectFromRelay.
  destruct (truthy (activeRelays_get url st)), (pool st); now repeat split.
Qed.

Lemma getSavedRelays_disconnect (url : string) (st : State) :
  getSavedRelays (disconnectFromRelay url st) = getSavedRelays st.
Proof.
  unfold getSavedRelays. destruct (disconnect_keeps url st) as (-> & -> & _). reflexivity.
Qed.

Lemma not_in_filter_neq (url : string) (relays : list string) :
  url ∉ List.filter (fun relay => negb (String.eqb relay url)) relays.
Proof.
  rewrite list_elem_of_In, filter_In. intros [_ Hneq].
  rewrite String.eqb_refl in Hneq. discriminate.
Qed.

(** *** Reads and writes of the plain object *)

Lemma inherits_proto (proto : Prototype) : inherits proto "__proto__" = true.
Proof. destruct proto; [reflexivity |]. simpl. apply orb_true_r. Qed.

(** A name that is not an entry is found exactly when it is inherited. *)
Lemma truthy_get_unowned (url : string) (st : State) :
  activeRelays st !! url = None ->
  truthy (activeRelays_get url st) = inherits (prototype st) url.
Proof.
  intros Hown. unfold activeRelays_get. rewrite Hown.
  destruct (prototype st) as [|relay] eqn:Hproto.
  - now destruct (inherits ObjectPrototype url).
  - destruct (String.eqb url "__proto__") eqn:Hname.
    + apply String.eqb_eq in Hname. subst url. now rewrite inherits_proto.
    + now destruct (inherits (RelayPrototype relay) url).
Qed.

Lemma truthy_get_owned (url : string) (relay : Relay) (st : State) :
  activeRelays st !! url = Some relay -> activeRelays_get url st = RelayObject relay.
Proof. intros Hown. unfold activeRelays_get. now rewrite Hown. Qed.

(** A falsy read: no entry, nothing inherited, and not [__proto__]. *)
Lemma falsy_get (url : string) (st : State) :
  truthy (activeRelays_get url st) = false ->
  activeRelays st !! url = None /\ inherits (prototype st) url = false /\
  String.eqb url "__proto__" = false.
Proof.
  intros Hfalse.
  destruct (activeRelays st !! url) as [relay|] eqn:Hown.
  - rewrite (truthy_get_owned url relay st Hown) in Hfalse. discriminate.
  - rewrite (truthy_get_unowned url st Hown) in Hfalse.
    split; [reflexivity |]. split; [exact Hfalse |].
    destruct (String.eqb url "__proto__") eqn:Hname; [| reflexivity].
    apply String.eqb_eq in Hname. subst url. now rewrite inherits_proto in Hfalse.
Qed.

Lemma set_keeps (url : string) (relay : Relay) (st : State) :
  window_defined (activeRelays_set url relay st) = window_defined st /\
  stored_relays (activeRelays_set url relay st) = stored_relays st /\
  pool (activeRelays_set url relay st) = pool st.
Proof.
  unfold activeRelays_set.
  destruct (activeRelays st !! url), (String.eqb url "__proto__"); now repeat split.
Qed.

(** After [activeRelays[url] = relay] the read [activeRelays[url]] gives
    [relay], under every name. *)
Lemma get_set_eq (url : string) (relay : Relay) (st : State) :
  activeRelays_get url (activeRelays_set url relay st) = RelayObject relay.
Proof.
  unfold activeRelays_set.
  destruct (activeRelays st !! url) as [old|] eqn:Hown;
    destruct (String.eqb url "__proto__") eqn:Hname;
    unfold activeRelays_get; simpl; rewrite ?lookup_insert_eq, ?Hown, ?Hname; reflexivity.
Qed.

Lemma own_set_ne (url other : string) (relay : Relay) (st : State) :
  other <> url ->
  activeRelays (activeRelays_set url relay st) !! other = activeRelays st !! other.
Proof.
  intros Hne. unfold activeRelays_set.
  destruct (activeRelays st !! url), (String.eqb url "__proto__"); simpl;
    rewrite ?lookup_insert_ne by congruence; reflexivity.
Qed.

Lemma own_set_eq (url : string) (relay : Relay) (st : State) :
  url <> "__proto__" ->
  activeRelays (activeRelays_set url relay st) = <[url := relay]> (activeRelays st).
Proof.
  intros Hne. apply String.eqb_neq in Hne. unfold activeRelays_set. rewrite Hne.
  now destruct (activeRelays st !! url).
Qed.

(** An entry is never removed by a write. *)
Lemma own_set_some (url other : string) (relay : Relay) (st : State) :
  is_Some (activeRelays st !! other) ->
  is_Some (activeRelays (activeRelays_set url relay st) !! other).
Proof.
  intros Hsome. destruct (decide (other = url)) as [-> | Hne].
  - unfold activeRelays_set. destruct Hsome as [old Hold]. rewrite Hold. simpl.
    rewrite lookup_insert_eq. now eexists.
  - now rewrite own_set_ne.
Qed.

(** A read that gives a relay keeps giving it when another name is
    written. *)
Lemma get_set_ne (url other : string) (relay found : Relay) (st : State) :
  other <> url ->
  activeRelays_get other st = RelayObject found ->
  activeRelays_get other (activeRelays_set url relay st) = RelayObject found.
Proof.
  intros Hne Hget.
  destruct (activeRelays st !! other) as [own|] eqn:Hown.
  - rewrite (truthy_get_owned other own st Hown) in Hget. injection Hget as ->.
    apply truthy_get_owned. now rewrite own_set_ne.
  - unfold activeRelays_get in Hget. rewrite Hown in Hget.
    destruct (prototype st) as [|proto] eqn:Hproto.
    + destruct (inherits ObjectPrototype other); discriminate.
    + destruct (String.eqb other "__proto__") eqn:Hname;
        [| destruct (inherits (RelayPrototype proto) other); discriminate].
      apply String.eqb_eq in Hname. subst other.
      assert (Hurl : String.eqb url "__proto__" = false)
        by (apply String.eqb_neq; congruence).
      unfold activeRelays_set. rewrite Hurl.
      unfold activeRelays_get.
      assert (Hstill : activeRelays
                (match activeRelays st !! url with
                 | Some _ | _ => set_active (<[url := relay]> (activeRelays st)) st
                 end) !! "__proto__" = None).
      { destruct (activeRelays st !! url); simpl;
          rewrite lookup_insert_ne by congruence; exact Hown. }
      destruct (activeRelays st !! url); simpl in *;
        rewrite Hstill, Hproto; simpl; exact Hget.
Qed.

Lemma ensureRelay_keeps (net : Network) (url : string) (st : State) :
  window_defined (snd (ensureRelay net url st)) = window_defined st /\
  stored_relays (snd (ensureRelay net url st)) = stored_relays st /\
  activeRelays (snd (ensureRelay net url st)) = activeRelays st /\
  prototype (snd (ensureRelay net url st)) = prototype st /\
  fst (ensureRelay net url st) = net url.
Proof.
  unfold ensureRelay, getPool.
  destruct (pool st), (net url); now repeat split.
Qed.

Lemma get_ensureRelay (net : Network) (url other : string) (st : State) :
  activeRelays_get other (snd (ensureRelay net url st)) = activeRelays_get other st.
Proof.
  unfold activeRelays_get.
  destruct (ensureRelay_keeps net url st) as (_ & _ & -> & -> & _). reflexivity.
Qed.

Lemma connect_all_results (net : Network) (urls : list string) (st : State) :
  fst (connect_all net urls st) = map (fun url => fulfilled_value (net url)) urls.
Proof.
  revert st. induction urls as [|url rest IH]; intros st; simpl; [reflexivity |].
  unfold connect_one.
  pose proof (ensureRelay_keeps net url st) as (_ & _ & _ & _ & Hnet).
  destruct (ensureRelay net url st) as [promise st0]. simpl in Hnet. subst promise.
  destruct (net url) as [r|e]; simpl;
    match goal with |- context [connect_all net rest ?s] =>
      specialize (IH s); destruct (connect_all net rest s) as [rs st2] end;
    simpl in *; now rewrite IH.
Qed.

End RelayFacts.

Section RelayClaims.
Import Relays.

(** C9 (as the code has it). In the browser, for a relay URL that is not
    in the saved list, the persisted list contains [url] after
    [addRelay url]; outside the browser [addRelay] persists nothing and the
    list stays the default one.  After [removeRelay url], in the browser,
    the persisted list no longer contains [url].  The connection is torn
    down only when [activeRelays[url]] is truthy and the pool exists:
    then the pool closes its connection to [url] and the entry is deleted,
    after which [url] is active only if it is a name [activeRelays]
    inherits (such as "constructor").  In every other case [removeRelay]
    leaves the pool and the active relays as they are. *)
Theorem addRelay_then_removeRelay (url : string) (st st1 : State) :
  (window_defined st = true -> url ∉ getSavedRelays st ->
   url ∈ getSavedRelays (addRelay url st)) /\
  (window_defined st = false ->
   addRelay url st = st /\ getSavedRelays (addRelay url st) = DEFAULT_RELAYS) /\
  (window_defined st1 = true -> url ∉ getSavedRelays (removeRelay url st1)) /\
  (forall c, isRelayActive url st1 = true -> pool st1 = Some c ->
     pool (removeRelay url st1) = Some (pool_close [url] c) /\
     pool_connected url (removeRelay url st1) = false /\
     getActiveRelays (removeRelay url st1) = delete url (getActiveRelays st1) /\
     isRelayActive url (removeRelay url st1) = inherits (prototype st1) url) /\
  (isRelayActive url st1 = false \/ pool st1 = None ->
     pool (removeRelay url st1) = pool st1 /\
     getActiveRelays (removeRelay url st1) = getActiveRelays st1 /\
     forall other, isRelayActive other (removeRelay url st1) = isRelayActive other st1).
Proof.
  split; [| split; [| split; [| split]]].
  - intros Hw Hnew. unfold addRelay.
    destruct (includes (getSavedRelays st) url) eqn:Hinc.
    + apply includes_spec in Hinc. contradiction.
    + simpl. rewrite getSavedRelays_saveRelays by assumption.
      apply elem_of_app. right. constructor.
  - intros Hw. unfold addRelay, saveRelays, getSavedRelays. rewrite Hw.
    destruct (negb _); rewrite Hw; split; reflexivity.
  - intros Hw. unfold removeRelay.
    rewrite getSavedRelays_disconnect, getSavedRelays_saveRelays by assumption.
    apply not_in_filter_neq.
  - intros c Hactive Hpool. unfold removeRelay, isRelayActive in *.
    set (kept := List.filter (fun relay => negb (String.eqb relay url)) (getSavedRelays st1)).
    destruct (saveRelays_keeps kept st1) as (_ & Hp & Ha & Hproto).
    unfold disconnectFromRelay. rewrite get_saveRelays, Hactive, Hp, Hpool.
    unfold getActiveRelays, pool_connected. cbn [pool activeRelays set_active set_pool].
    rewrite Ha. split; [reflexivity |]. split; [| split; [reflexivity |]].
    + apply bool_decide_eq_false. unfold pool_close.
      rewrite elem_of_difference, elem_of_list_to_set.
      intros [_ Hout]. apply Hout. constructor.
    + rewrite truthy_get_unowned; cbn [prototype activeRelays set_active set_pool].
      * now rewrite Hproto.
      * apply lookup_delete_eq.
  - intros Hskip. unfold removeRelay, isRelayActive in *.
    set (kept := List.filter (fun relay => negb (String.eqb relay url)) (getSavedRelays st1)).
    destruct (saveRelays_keeps kept st1) as (_ & Hp & Ha & Hproto).
    assert (Hsame : disconnectFromRelay url (saveRelays kept st1) = saveRelays kept st1).
    { unfold disconnectFromRelay. rewrite get_saveRelays, Hp.
      destruct Hskip as [-> | ->]; [reflexivity |].
      now destruct (truthy (activeRelays_get url st1)). }
    rewrite Hsame. unfold getActiveRelays. rewrite Hp, Ha.
    split; [reflexivity |]. split; [reflexivity |].
    intros other. now rewrite get_saveRelays.
Qed.

Lemma addRelay_then_removeRelay_witness :
  let net : Network := fun url => Fulfilled (mkRelay url []) in
  let st := initial true None in
  let url := "wss://relay.test" in
  let st1 := snd (connectToRelays net (getSavedRelays (addRelay url st)) (addRelay url st)) in
  url ∈ getSavedRelays (addRelay url st) /\
  isRelayActive url st1 = true /\
  (url ∉ getSavedRelays (removeRelay url st1)) /\
  pool_connected url (removeRelay url st1) = false /\
  isRelayActive url (removeRelay url st1) = false.
Proof.
  intros net st url st1.
  assert (Hnew : url ∉ getSavedRelays st)
    by (apply (bool_decide_unpack _); vm_compute; exact I).
  assert (Hact : isRelayActive url st1 = true) by (vm_compute; reflexivity).
  destruct (pool st1) as [c|] eqn:Hpool; [| vm_compute in Hpool; discriminate Hpool].
  destruct (addRelay_then_removeRelay url st st1)
    as (Hadd & _ & Hgone & Hdown & _).
  destruct (Hdown c Hact Hpool) as (_ & Hclosed & _ & Hinactive).
  exact (conj (Hadd eq_refl Hnew)
           (conj Hact (conj (Hgone eq_refl) (conj Hclosed Hinactive)))).
Defined.

(** C9, as stated, fails in two ways.  Outside the browser [addRelay]
    persists nothing: the URL is not in the list afterwards.  In the
    browser, a URL that is a property name every object inherits is still
    reported active after [removeRelay]. *)
Lemma addRelay_removeRelay_not_as_stated :
  let server := initial false None in
  let browser := initial true None in
  (("wss://relay.test" ∉ getSavedRelays server) /\
   ("wss://relay.test" ∉ getSavedRelays (addRelay "wss://relay.test" server))) /\
  (("constructor" ∉ getSavedRelays browser) /\
   ("constructor" ∈ getSavedRelays (addRelay "constructor" browser)) /\
   isRelayActive "constructor"
     (removeRelay "constructor" (addRelay "constructor" browser)) = true).
Proof.
  cbv zeta. split; [split | split; [| split]].
  - apply (bool_decide_unpack _). vm_compute. exact I.
  - apply (bool_decide_unpack _). vm_compute. exact I.
  - apply (bool_decide_unpack _). vm_compute. exact I.
  - apply (bool_decide_unpack _). vm_compute. exact I.
  - vm_compute. reflexivity.
Qed.

(** C10. [addRelay] is idempotent: for a URL already in the saved list
    the state, and with it the persisted relay list, is left exactly as
    it was (no duplicate, same order). *)
Theorem addRelay_idempotent (st : State) (url : string) :
  url ∈ getSavedRelays st ->
  addRelay url st = st /\
  getSavedRelays (addRelay url st) = getSavedRelays st.
Proof.
  intros Hin. apply includes_spec in Hin.
  assert (H : addRelay url st = st) by (unfold addRelay; now rewrite Hin).
  split; [exact H | now rewrite H].
Qed.

Lemma addRelay_idempotent_witness :
  let st := mkState true (Some ["wss://nos.lol"; "wss://relay.test"]) None ∅
              ObjectPrototype in
  addRelay "wss://relay.test" st = st /\
  getSavedRelays (addRelay "wss://relay.test" st) = ["wss://nos.lol"; "wss://relay.test"].
Proof.
  intros st.
  apply (addRelay_idempotent st "wss://relay.test").
  apply (bool_decide_unpack _). vm_compute. exact I.
Defined.

Lemma filter_Boolean_map {A} (f : A -> option Relay) (l : list A) :
  filter_Boolean (map f l) = omap f l.
Proof.
  unfold filter_Boolean. induction l as [|x l IH]; [reflexivity |].
  simpl. destruct (f x); simpl; [f_equal |]; exact IH.
Qed.

(** C6. [connectToRelays] always resolves, whatever connections fail:
    its result is the list of relays whose connection attempt succeeded,
    in the order of the URLs, and nothing else. *)
Theorem connectToRelays_partial_success (net : Network) (urls : list string) (st : State) :
  let connected := omap (fun url => fulfilled_value (net url)) urls in
  fst (connectToRelays net urls st) = Fulfilled connected /\
  (forall relay, relay ∈ connected <->
                 exists url, url ∈ urls /\ net url = Fulfilled relay).
Proof.
  cbv zeta. split.
  - unfold connectToRelays. destruct (getPool st) as [c st0].
    pose proof (connect_all_results net urls st0) as Hres.
    destruct (connect_all net urls st0) as [rs st1]. simpl in *.
    now rewrite Hres, filter_Boolean_map.
  - intros relay. rewrite list_elem_of_omap. split.
    + intros (url & Hin & Hval). exists url. split; [assumption |].
      destruct (net url); simpl in Hval; congruence.
    + intros (url & Hin & Hnet). exists url. split; [assumption |].
      now rewrite Hnet.
Qed.

End RelayClaims.

(** ** Sorting *)

Section SortFacts.
Context {A : Type} (cmp : A -> A -> Z).

Lemma insert_sorted_perm (x : A) (l : list A) :
  Permutation (insert_sorted cmp x l) (x :: l).
Proof.
  induction l as [|y l IH]; simpl; [reflexivity |].
  destruct (cmp x y <=? 0); [reflexivity |].
  rewrite IH. apply perm_swap.
Qed.

Lemma Array_sort_perm (l : list A) : Permutation (Array_sort cmp l) l.
Proof.
  induction l as [|x l IH]; simpl; [reflexivity |].
  rewrite insert_sorted_perm. now constructor.
Qed.

Lemma head_insert_sorted (x : A) (l : list A) :
  head (insert_sorted cmp x l) =
  match head l with
  | None => Some x
  | Some h => if cmp x h <=? 0 then Some x else Some h
  end.
Proof.
  destruct l as [|y l]; simpl; [reflexivity |].
  destruct (cmp x y <=? 0); reflexivity.
Qed.

End SortFacts.

Lemma insert_sorted_newer_first (x : Event) (l : list Event) :
  StronglySorted newer_first l ->
  StronglySorted newer_first (insert_sorted by_created_at_desc x l).
Proof.
  induction 1 as [|y l Hl IH Hy]; simpl.
  - repeat constructor.
  - destruct (by_created_at_desc x y <=? 0) eqn:Hcmp.
    + apply Z.leb_le in Hcmp. unfold by_created_at_desc in Hcmp.
      constructor; [now constructor |].
      constructor; [unfold newer_first; lia |].
      eapply Forall_impl; [exact Hy |].
      unfold newer_first. intros z Hz. lia.
    + apply Z.leb_gt in Hcmp. unfold by_created_at_desc in Hcmp.
      constructor; [exact IH |].
      rewrite (insert_sorted_perm by_created_at_desc x l).
      constructor; [unfold newer_first; lia | exact Hy].
Qed.

Lemma Array_sort_newer_first (l : list Event) :
  StronglySorted newer_first (Array_sort by_created_at_desc l).
Proof.
  induction l as [|x l IH]; simpl; [constructor |].
  now apply insert_sorted_newer_first.
Qed.

(** Stability: events with the same [created_at] keep their order. *)
Lemma insert_sorted_stable (k : Z) (x : Event) (l : list Event) :
  List.filter (fun e => created_at e =? k) (insert_sorted by_created_at_desc x l)
  = List.filter (fun e => created_at e =? k) (x :: l).
Proof.
  induction l as [|y l IH]; [reflexivity |].
  cbn [insert_sorted].
  destruct (by_created_at_desc x y <=? 0) eqn:Hcmp; [reflexivity |].
  apply Z.leb_gt in Hcmp. unfold by_created_at_desc in Hcmp.
  cbn [List.filter] in *. rewrite IH.
  destruct (created_at x =? k) eqn:Hx; [| reflexivity].
  apply Z.eqb_eq in Hx.
  assert (Hy : (created_at y =? k) = false) by (apply Z.eqb_neq; lia).
  now rewrite Hy.
Qed.

Lemma Array_sort_stable (k : Z) (l : list Event) :
  List.filter (fun e => created_at e =? k) (Array_sort by_created_at_desc l)
  = List.filter (fun e => created_at e =? k) l.
Proof.
  induction l as [|x l IH]; [reflexivity |].
  cbn [Array_sort]. rewrite insert_sorted_stable. cbn [List.filter]. now rewrite IH.
Qed.


(** ** Replaceable-event resolution *)

Lemma latest_first_newest (candidates : list Event) :
  first_newest candidates (Events.latest candidates).
Proof.
  unfold Events.latest.
  induction candidates as [|x rest IH]; simpl; [reflexivity |].
  rewrite head_insert_sorted.
  destruct (head (Array_sort by_created_at_desc rest)) as [h|]; simpl in *.
  - destruct IH as (before & after & Heq & Hb & Ha).
    destruct (by_created_at_desc x h <=? 0) eqn:Hcmp; unfold by_created_at_desc in Hcmp.
    + apply Z.leb_le in Hcmp. exists [], rest. split; [reflexivity |].
      split; [constructor |]. subst rest.
      apply Forall_app. split.
      * eapply Forall_impl; [exact Hb |]. simpl. intros; lia.
      * constructor; [lia |]. eapply Forall_impl; [exact Ha |]. simpl. intros; lia.
    + apply Z.leb_gt in Hcmp. exists (x :: before), after. subst rest.
      split; [reflexivity |]. split; [| exact Ha].
      constructor; [lia | exact Hb].
  - subst rest. exists [], []. repeat split; constructor.
Qed.

Lemma first_newest_max (candidates : list Event) (w : Event) :
  first_newest candidates (Some w) ->
  w ∈ candidates /\ forall e, e ∈ candidates -> created_at e <= created_at w.
Proof.
  intros (before & after & -> & Hb & Ha). split.
  - apply elem_of_app. right. constructor.
  - intros e He. rewrite Forall_forall in Hb, Ha.
    apply elem_of_app in He as [He | He].
    + specialize (Hb e He). lia.
    + apply elem_of_cons in He as [-> | He]; [lia |].
      now apply Ha.
Qed.

Lemma latest_perm_created_at (l1 l2 : list Event) :
  Permutation l1 l2 ->
  created_at <$> Events.latest l1 = created_at <$> Events.latest l2.
Proof.
  intros Hperm.
  pose proof (latest_first_newest l1) as H1.
  pose proof (latest_first_newest l2) as H2.
  destruct (Events.latest l1) as [w1|], (Events.latest l2) as [w2|]; simpl in *.
  - apply first_newest_max in H1 as [Hin1 Hmax1].
    apply first_newest_max in H2 as [Hin2 Hmax2].
    f_equal. apply Z.le_antisymm.
    + apply Hmax2. now rewrite <- Hperm.
    + apply Hmax1. now rewrite Hperm.
  - subst l2. apply Permutation_nil_r in Hperm. subst l1.
    destruct H1 as (b & a & Hnil & _). now destruct b.
  - subst l1. apply Permutation_nil in Hperm. subst l2.
    destruct H2 as (b & a & Hnil & _). now destruct b.
  - reflexivity.
Qed.

(** C1 (as the code has it). [fetchUserMetadata] always resolves.  Its
    result is [null] when the query returned no event; otherwise it is an
    event of the answer with the largest [created_at], and that timestamp
    does not depend on the order of arrival.  Among events that share the
    largest [created_at] the one that arrived first is returned: the id
    takes no part in the choice. *)
Theorem fetchUserMetadata_first_newest
    (p : Events.SimplePool) (rst : Relays.State) (pubkey : string)
    (relayUrls : option (list string)) :
  exists candidates,
    Events.fetchEvents p
      (mkFilter None (Some [pubkey]) (Some [METADATA_KIND]) None None (Some 1))
      (Events.relayUrls_or_saved rst relayUrls) Events.DEFAULT_TIMEOUT
      = Fulfilled candidates /\
    Events.fetchUserMetadata p rst pubkey relayUrls
      = Fulfilled (Events.latest candidates) /\
    first_newest candidates (Events.latest candidates) /\
    (forall reordered, Permutation candidates reordered ->
       created_at <$> Events.latest reordered
       = created_at <$> Events.latest candidates).
Proof.
  unfold Events.fetchUserMetadata.
  destruct (Events.fetchEvents p _ _ _) as [candidates | reason] eqn:Hfetch.
  - exists candidates. repeat split.
    + apply latest_first_newest.
    + intros reordered Hperm. symmetry. now apply latest_perm_created_at.
  - unfold Events.fetchEvents in Hfetch.
    destruct (Events.querySync p _ _ _); discriminate.
Qed.

(** C1, as stated, fails on a tie: both events carry [created_at = 100];
    with arrival order [a; b] the resolver returns [a] although [b] has
    the lexicographically larger id, and with arrival order [b; a] it
    returns [b]. *)
Lemma fetchUserMetadata_tie_not_by_id :
  let a := mkEvent "aa" "pk" 100 METADATA_KIND [] "first" "sig" in
  let b := mkEvent "bb" "pk" 100 METADATA_KIND [] "second" "sig" in
  let rst := Relays.initial true None in
  String.ltb (id a) (id b) = true /\
  created_at a = created_at b /\
  Events.fetchUserMetadata (Events.answering_pool (Fulfilled [a; b])) rst "pk" None
    = Fulfilled (Some a) /\
  Events.fetchUserMetadata (Events.answering_pool (Fulfilled [b; a])) rst "pk" None
    = Fulfilled (Some b).
Proof. cbv zeta. repeat split. Qed.

(** ** Deduplication in the merge step *)

Lemma findIndex_from_prefix {A} (p : A -> bool) (k : Z) (pre : list A) (x : A) (rest : list A) :
  p x = true ->
  (k + Z.of_nat (List.length pre) =? findIndex_from p k (pre ++ x :: rest))
  = negb (existsb p pre).
Proof.
  intros Hx. revert k.
  induction pre as [|y pre IH]; intros k; cbn [app findIndex_from existsb List.length].
  - rewrite Hx. simpl. apply Z.eqb_eq. lia.
  - destruct (p y) eqn:Hy; simpl negb.
    + apply Z.eqb_neq. lia.
    + rewrite <- (IH (k + 1)). f_equal. lia.
Qed.

(** The index test of [uniqueEvents] keeps exactly the first event of
    each id. *)
Lemma filter_indexed_keep_first (pre l : list Event) (seen : list string) :
  (forall i, existsb (String.eqb i) seen
             = existsb (fun e => String.eqb (id e) i) pre) ->
  filter_indexed_from
    (fun event index =>
       index =? findIndex (fun e => String.eqb (id e) (id event)) (pre ++ l))
    (Z.of_nat (List.length pre)) l
  = keep_first seen l.
Proof.
  revert pre seen. induction l as [|e rest IH]; intros pre seen Hrel; simpl; [reflexivity |].
  unfold findIndex.
  pose proof (findIndex_from_prefix (fun e' => String.eqb (id e') (id e)) 0 pre e rest
                (String.eqb_refl _)) as Hidx.
  rewrite Z.add_0_l in Hidx. rewrite Hidx.
  assert (Hstep : Z.of_nat (List.length pre) + 1 = Z.of_nat (List.length (pre ++ [e])))
    by (rewrite length_app; simpl; lia).
  assert (Hall : pre ++ e :: rest = (pre ++ [e]) ++ rest)
    by (now rewrite <- app_assoc).
  rewrite Hstep, Hall.
  destruct (existsb (String.eqb (id e)) seen) eqn:Hseen.
  - rewrite <- Hrel, Hseen. simpl.
    apply IH. intros i. rewrite existsb_app, <- Hrel. simpl.
    destruct (String.eqb (id e) i) eqn:Hei; [| now rewrite !orb_false_r].
    apply String.eqb_eq in Hei. subst i. now rewrite Hseen.
  - rewrite <- Hrel, Hseen. simpl. f_equal.
    apply IH. intros i. rewrite existsb_app, <- Hrel. simpl.
    rewrite orb_false_r, (String.eqb_sym i (id e)). apply orb_comm.
Qed.

Lemma uniqueEvents_keep_first (allEvents : list Event) :
  Hooks.uniqueEvents allEvents = keep_first [] allEvents.
Proof.
  unfold Hooks.uniqueEvents, filter_indexed.
  apply (filter_indexed_keep_first [] allEvents []). reflexivity.
Qed.







(** ** Publishing *)

Lemma results_set_lookup (key : string) (value : bool) (results : gmap string bool)
    (url : string) :
  Events.results_set key value results !! url
  = if String.eqb url key && negb (String.eqb url "__proto__") then Some value
    else results !! url.
Proof.
  unfold Events.results_set.
  destruct (String.eqb url key) eqn:Hkey.
  - apply String.eqb_eq in Hkey. subst key.
    destruct (String.eqb url "__proto__"); simpl; [reflexivity |].
    apply lookup_insert_eq.
  - apply String.eqb_neq in Hkey. simpl.
    destruct (String.eqb key "__proto__"); [reflexivity |].
    now rewrite lookup_insert_ne.
Qed.

Lemma init_results_lookup (relayUrls : list string) (url : string) (acc : gmap string bool) :
  fold_left (fun results relayUrl => Events.results_set relayUrl false results) relayUrls acc
    !! url
  = if Relays.includes relayUrls url && negb (String.eqb url "__proto__") then Some false
    else acc !! url.
Proof.
  revert acc. unfold Relays.includes.
  induction relayUrls as [|u rest IH]; intros acc; simpl; [reflexivity |].
  rewrite IH, results_set_lookup.
  destruct (String.eqb url u), (existsb (String.eqb url) rest),
    (String.eqb url "__proto__"); reflexivity.
Qed.

Lemma forEach_mark_lookup (relayUrls : list string) (outcomes : list (Settled string))
    (index : nat) (acc : gmap string bool) (url : string) :
  forEach_from (Events.mark_settled relayUrls) index outcomes acc !! url
  = if acked_from relayUrls index outcomes url && negb (String.eqb url "__proto__")
    then Some true else acc !! url.
Proof.
  revert index acc. induction outcomes as [|result rest IH]; intros index acc; simpl;
    [reflexivity |].
  rewrite IH. unfold Events.mark_settled.
  destruct (is_fulfilled result); simpl.
  - rewrite results_set_lookup, (String.eqb_sym url (Events.url_at relayUrls index)).
    destruct (String.eqb (Events.url_at relayUrls index) url),
      (acked_from relayUrls (index + 1) rest url), (String.eqb url "__proto__");
      reflexivity.
  - reflexivity.
Qed.

Lemma acked_from_spec (relayUrls : list string) (outcomes : list (Settled string))
    (index : nat) (url : string) :
  acked_from relayUrls index outcomes url = true <->
  exists i result,
    outcomes !! i = Some result /\ is_fulfilled result = true /\
    Events.url_at relayUrls (index + i) = url.
Proof.
  revert index. induction outcomes as [|r rest IH]; intros index; simpl.
  - split; [discriminate | intros (i & result & H & _); destruct i; discriminate].
  - rewrite orb_true_iff, andb_true_iff, IH, String.eqb_eq. split.
    + intros [[Hr Hu] | (i & result & Hi & Hr & Hu)].
      * exists 0%nat, r. rewrite Nat.add_0_r. now repeat split.
      * exists (S i), result. repeat split; [exact Hi | exact Hr |].
        rewrite <- Hu. f_equal. lia.
    + intros ([|i] & result & Hi & Hr & Hu).
      * left. simpl in Hi. injection Hi as <-. rewrite Nat.add_0_r in Hu. now split.
      * right. exists i, result. repeat split; [exact Hi | exact Hr |].
        rewrite <- Hu. f_equal. lia.
Qed.

Lemma publishEvent_lookup (p : Events.SimplePool) (event : Event)
    (relayUrls : list string) (outcomes : list (Settled string)) :
  Events.publish p relayUrls event = Fulfilled outcomes ->
  exists results,
    Events.publishEvent p event relayUrls = Fulfilled results /\
    forall url,
      results !! url =
      if String.eqb url "__proto__" then None
      else if acked_from relayUrls 0 outcomes url then Some true
      else if Relays.includes relayUrls url then Some false else None.
Proof.
  intros Hpub. unfold Events.publishEvent. rewrite Hpub.
  eexists. split; [reflexivity |]. intros url.
  rewrite forEach_mark_lookup. unfold Events.init_results.
  rewrite init_results_lookup, lookup_empty.
  destruct (String.eqb url "__proto__"), (acked_from relayUrls 0 outcomes url),
    (Relays.includes relayUrls url); reflexivity.
Qed.

Lemma url_at_listed (relayUrls : list string) (index : nat) (url : string) :
  (index < List.length relayUrls)%nat ->
  Events.url_at relayUrls index = url <-> relayUrls !! index = Some url.
Proof.
  intros Hlt. unfold Events.url_at.
  destruct (relayUrls !! index) as [u|] eqn:Hu.
  - split; congruence.
  - apply lookup_ge_None in Hu. lia.
Qed.

Lemma acked_iff_fulfilled (relayUrls : list string) (outcomes : list (Settled string))
    (url : string) :
  List.length outcomes = List.length relayUrls ->
  acked_from relayUrls 0 outcomes url = true <->
  exists index result,
    relayUrls !! index = Some url /\ outcomes !! index = Some result /\
    is_fulfilled result = true.
Proof.
  intros Hlen. rewrite acked_from_spec. simpl.
  split; intros (i & result & H1 & H2 & H3); exists i, result.
  - apply url_at_listed in H3; [now repeat split |].
    apply lookup_lt_Some in H1. lia.
  - repeat split; try assumption.
    apply url_at_listed; [| assumption].
    apply lookup_lt_Some in H2. lia.
Qed.

(** C3 (as the code has it). When [pool.publish] itself throws,
    [publishEvent] rejects with "Failed to publish event".  Otherwise,
    with one promise per listed URL, it resolves with a map that has an
    entry for exactly the listed URLs other than "__proto__" (under which
    a plain object stores nothing); a URL is marked [true] exactly when a
    publish to it was fulfilled and [false] exactly when every publish to
    it was rejected (an explicit rejection and a timeout both settle as
    rejected); the entry of a URL depends on the outcomes for that URL
    only, so a partial outcome is returned as it is. *)
Theorem publishEvent_acknowledgments (p : Events.SimplePool) (event : Event)
    (relayUrls : list string) :
  (forall reason,
     Events.publish p relayUrls event = Rejected reason ->
     Events.publishEvent p event relayUrls = Rejected "Failed to publish event") /\
  (forall outcomes,
     Events.publish p relayUrls event = Fulfilled outcomes ->
     List.length outcomes = List.length relayUrls ->
     exists results,
       Events.publishEvent p event relayUrls = Fulfilled results /\
       (forall url, is_Some (results !! url) <-> url ∈ relayUrls /\ url <> "__proto__") /\
       (forall url, results !! url = Some true <->
          url <> "__proto__" /\
          exists index result,
            relayUrls !! index = Some url /\ outcomes !! index = Some result /\
            is_fulfilled result = true) /\
       (forall url, results !! url = Some false <->
          url ∈ relayUrls /\ url <> "__proto__" /\
          forall index result,
            relayUrls !! index = Some url -> outcomes !! index = Some result ->
            is_fulfilled result = false) /\
       (forall outcomes' url,
          List.length outcomes' = List.length relayUrls ->
          (forall index, relayUrls !! index = Some url ->
                         is_fulfilled <$> outcomes' !! index
                         = is_fulfilled <$> outcomes !! index) ->
          exists results',
            Events.publishEvent (Events.publishing_pool outcomes') event relayUrls
              = Fulfilled results' /\
            results' !! url = results !! url)).
Proof.
  split.
  { intros reason Hthrow. unfold Events.publishEvent. now rewrite Hthrow. }
  intros outcomes Hpub Hlen.
  destruct (publishEvent_lookup p event relayUrls outcomes Hpub) as (results & Hres & Hlook).
  exists results. split; [exact Hres |].
  assert (Hacked_listed : forall url,
            acked_from relayUrls 0 outcomes url = true -> url ∈ relayUrls).
  { intros url Hack. apply acked_iff_fulfilled in Hack as (i & r & Hi & _); [| exact Hlen].
    apply list_elem_of_lookup. now exists i. }
  assert (Hname : forall url, String.eqb url "__proto__" = false <-> url <> "__proto__")
    by (intros url; apply String.eqb_neq).
  split; [| split; [| split]].
  - intros url. rewrite Hlook, <- includes_spec, <- Hname.
    destruct (String.eqb url "__proto__").
    + split; [intros [b Hb]; discriminate | intros [_ H]; discriminate].
    + destruct (acked_from relayUrls 0 outcomes url) eqn:Hack.
      * split; [intros _ | intros _; now eexists].
        split; [| reflexivity]. apply includes_spec. now apply Hacked_listed.
      * destruct (Relays.includes relayUrls url); split.
        -- now intros _.
        -- intros _. now eexists.
        -- intros [b Hb]. discriminate.
        -- intros [H _]. discriminate.
  - intros url. rewrite Hlook, <- (acked_iff_fulfilled relayUrls outcomes url Hlen), <- Hname.
    destruct (String.eqb url "__proto__").
    + split; [discriminate | intros [H _]; discriminate].
    + destruct (acked_from relayUrls 0 outcomes url); [tauto |].
      destruct (Relays.includes relayUrls url); split; try discriminate;
        intros [_ H]; discriminate.
  - intros url. rewrite Hlook, <- includes_spec, <- Hname.
    destruct (String.eqb url "__proto__").
    + split; [discriminate | intros (_ & H & _); discriminate].
    + destruct (acked_from relayUrls 0 outcomes url) eqn:Hack.
      * split; [discriminate |]. intros (_ & _ & Hall).
        apply acked_iff_fulfilled in Hack as (i & r & Hi & Hr & Hf); [| exact Hlen].
        rewrite (Hall i r Hi Hr) in Hf. discriminate.
      * destruct (Relays.includes relayUrls url).
        -- split; [intros _ | reflexivity]. split; [reflexivity |].
           split; [reflexivity |]. intros i r Hi Hr.
           destruct (is_fulfilled r) eqn:Hf; [| reflexivity].
           assert (Hyes : acked_from relayUrls 0 outcomes url = true)
             by (apply acked_iff_fulfilled; [exact Hlen | now exists i, r]).
           congruence.
        -- split; [discriminate |]. intros [Hno _]. discriminate Hno.
  - intros outcomes' url Hlen' Hsame.
    destruct (publishEvent_lookup (Events.publishing_pool outcomes') event relayUrls
                outcomes' eq_refl) as (results' & Hres' & Hlook').
    exists results'. split; [exact Hres' |].
    rewrite Hlook, Hlook'.
    assert (Heq : acked_from relayUrls 0 outcomes' url = acked_from relayUrls 0 outcomes url).
    { apply eq_true_iff_eq. rewrite !acked_iff_fulfilled by assumption.
      split; intros (i & r & Hi & Hr & Hf); specialize (Hsame i Hi); rewrite Hr in Hsame;
        simpl in Hsame.
      - destruct (outcomes !! i) as [r0|] eqn:Hr0; [| discriminate].
        exists i, r0. simpl in Hsame.
        split; [exact Hi | split; [exact Hr0 | congruence]].
      - destruct (outcomes' !! i) as [r0|] eqn:Hr0; [| discriminate].
        exists i, r0. simpl in Hsame.
        split; [exact Hi | split; [exact Hr0 | congruence]]. }
    now rewrite Heq.
Qed.

Lemma publishEvent_acknowledgments_witness :
  let relayUrls := ["wss://relay.damus.io"; "wss://nos.lol"; "wss://relay.nostr.band"] in
  let outcomes := [Fulfilled ""; Rejected "publish timed out"; Fulfilled ""] in
  let event := mkEvent "id" "pk" 1700000000 TEXT_NOTE_KIND [] "hello" "sig" in
  exists results,
    Events.publishEvent (Events.publishing_pool outcomes) event relayUrls = Fulfilled results /\
    results !! "wss://relay.damus.io" = Some true /\
    results !! "wss://nos.lol" = Some false /\
    results !! "wss://relay.nostr.band" = Some true /\
    results !! "wss://relay.snort.social" = None.
Proof.
  intros relayUrls outcomes event.
  destruct (publishEvent_acknowledgments (Events.publishing_pool outcomes) event relayUrls)
    as [_ Hsettled].
  destruct (Hsettled outcomes eq_refl eq_refl)
    as (results & Hres & Hdom & Htrue & Hfalse & _).
  exists results. split; [exact Hres |]. repeat split.
  - apply Htrue. split; [discriminate |]. exists 0%nat, (Fulfilled "").
    split; [reflexivity | split; reflexivity].
  - apply Hfalse. split; [| split; [discriminate |]].
    + apply (bool_decide_unpack _). vm_compute. exact I.
    + intros [|[|[|index]]] result Hurl Hout; simpl in *; try discriminate.
      now injection Hout as <-.
  - apply Htrue. split; [discriminate |]. exists 2%nat, (Fulfilled "").
    split; [reflexivity | split; reflexivity].
  - destruct (results !! "wss://relay.snort.social") as [b|] eqn:Hb; [| reflexivity].
    assert (Hin : "wss://relay.snort.social" ∈ relayUrls)
      by (apply Hdom; rewrite Hb; now eexists).
    assert (Hout : "wss://relay.snort.social" ∉ relayUrls)
      by (apply (bool_decide_unpack _); vm_compute; exact I).
    contradiction.
Defined.

(** C3, as stated, fails in two ways.  A pool whose [publish] throws makes
    [publishEvent] reject instead of resolving.  And for the listed URL
    "__proto__", although its publish succeeds, the map has no entry. *)
Lemma publishEvent_rejects_or_omits :
  let event := mkEvent "id" "pk" 1700000000 TEXT_NOTE_KIND [] "hello" "sig" in
  let throwing :=
    Events.mkPool (fun _ _ => Rejected "invalid relay URL")
                  (fun _ _ _ => Fulfilled []) (fun _ _ => []) in
  Events.publishEvent throwing event ["wss://nos.lol"]
    = Rejected "Failed to publish event" /\
  Events.publishEvent (Events.publishing_pool [Fulfilled ""]) event ["__proto__"]
    = Fulfilled ∅.
Proof. cbv zeta. split; reflexivity. Qed.

(** ** Querying *)

(** C4 (as the code has it). [fetchEvents] never rejects.  When the pool's
    query fails, or yields nothing because every relay failed, the result
    is the empty list; that is the very value a successful query without
    matches produces, so the return value carries no separate "all relays
    failed" signal. *)
Theorem fetchEvents_all_failed_is_empty (p_failed p_nomatch : Events.SimplePool)
    (filter : Filter) (relayUrls : list string) (timeout : Z) :
  ((exists reason, Events.querySync p_failed relayUrls filter timeout = Rejected reason) \/
   Events.querySync p_failed relayUrls filter timeout = Fulfilled []) ->
  Events.querySync p_nomatch relayUrls filter timeout = Fulfilled [] ->
  Events.fetchEvents p_failed filter relayUrls timeout = Fulfilled [] /\
  Events.fetchEvents p_failed filter relayUrls timeout
    = Events.fetchEvents p_nomatch filter relayUrls timeout /\
  (forall p, is_fulfilled (Events.fetchEvents p filter relayUrls timeout) = true).
Proof.
  intros Hfailed Hnone. unfold Events.fetchEvents. rewrite Hnone.
  repeat split.
  - destruct Hfailed as [[reason ->] | ->]; reflexivity.
  - destruct Hfailed as [[reason ->] | ->]; reflexivity.
  - intros p. now destruct (Events.querySync p relayUrls filter timeout).
Qed.

Lemma fetchEvents_all_failed_is_empty_witness :
  let filter := mkFilter None None (Some [TEXT_NOTE_KIND]) None None (Some 20) in
  let down := Events.answering_pool (Rejected "all relays unreachable") in
  let nomatch := Events.answering_pool (Fulfilled []) in
  Events.fetchEvents down filter Relays.DEFAULT_RELAYS 3000 = Fulfilled [] /\
  Events.fetchEvents down filter Relays.DEFAULT_RELAYS 3000
    = Events.fetchEvents nomatch filter Relays.DEFAULT_RELAYS 3000.
Proof.
  intros filter down nomatch.
  destruct (fetchEvents_all_failed_is_empty down nomatch filter Relays.DEFAULT_RELAYS 3000
              (or_introl (ex_intro _ "all relays unreachable" eq_refl)) eq_refl)
    as (Hempty & Hsame & _).
  exact (conj Hempty Hsame).
Defined.

(** C4, as stated, fails: no observation of the value [fetchEvents]
    returns tells "every relay failed" from "nothing matched". *)
Lemma fetchEvents_no_failure_signal :
  let filter := mkFilter None None (Some [TEXT_NOTE_KIND]) None None (Some 20) in
  ~ exists signal : Settled (list Event) -> bool,
      signal (Events.fetchEvents (Events.answering_pool (Rejected "all relays unreachable"))
                filter Relays.DEFAULT_RELAYS 3000)
      <> signal (Events.fetchEvents (Events.answering_pool (Fulfilled []))
                   filter Relays.DEFAULT_RELAYS 3000).
Proof.
  cbv zeta. intros [signal Hdiff]. apply Hdiff. reflexivity.
Qed.

(** ** Subscriptions *)

Lemma subscribeToEvents_calls (p : Events.SimplePool) (filter : Filter)
    (relayUrls : list string) :
  Events.subscribeToEvents p filter Events.record_call relayUrls []
  = map (fun event => (event, "unknown-relay")) (Events.subscribeMany p relayUrls [filter]).
Proof.
  unfold Events.subscribeToEvents.
  generalize (Events.subscribeMany p relayUrls [filter]). intros delivered.
  change (map (fun event => (event, "unknown-relay")) delivered)
    with ([] ++ map (fun event : Event => (event, "unknown-relay")) delivered).
  generalize (@nil (Event * string)).
  induction delivered as [|e rest IH]; intros calls; simpl.
  - now rewrite app_nil_r.
  - rewrite IH. unfold Events.record_call. now rewrite <- app_assoc.
Qed.

Lemma occurrences_deliver (i : string) (arrivals : list (string * Event))
    (knownIds : gset string) :
  occurrences i (Events.deliver knownIds arrivals)
  = if bool_decide (i ∈ knownIds) then 0%nat
    else if Hooks.some_id i (map snd arrivals) then 1%nat else 0%nat.
Proof.
  revert knownIds. induction arrivals as [|[relay e] rest IH]; intros knownIds; simpl.
  - now destruct (bool_decide _).
  - destruct (bool_decide (id e ∈ knownIds)) eqn:Hknown.
    + rewrite IH. destruct (bool_decide (i ∈ knownIds)) eqn:Hi; [reflexivity |].
      destruct (String.eqb (id e) i) eqn:Hei; [| reflexivity].
      apply String.eqb_eq in Hei. subst i. congruence.
    + unfold occurrences in *. simpl.
      apply bool_decide_eq_false in Hknown.
      destruct (String.eqb (id e) i) eqn:Hei; simpl; rewrite IH.
      * apply String.eqb_eq in Hei. subst i.
        rewrite bool_decide_eq_true_2 by (apply elem_of_union_l, elem_of_singleton; reflexivity).
        now rewrite bool_decide_eq_false_2.
      * apply String.eqb_neq in Hei.
        destruct (bool_decide (i ∈ knownIds)) eqn:Hi.
        -- apply bool_decide_eq_true in Hi.
           now rewrite bool_decide_eq_true_2 by (now apply elem_of_union_r).
        -- apply bool_decide_eq_false in Hi.
           rewrite bool_decide_eq_false_2; [reflexivity |].
           rewrite elem_of_union, elem_of_singleton. intros [Heq | Hin]; congruence.
Qed.

(** C5. [subscribeToEvents] invokes [onEvent] once for every event the
    pool delivers and never otherwise; with the pool's deduplication
    cache keyed by id, every id is therefore passed to [onEvent] at most
    once over all relays (exactly once when a listed relay sent it). *)
Theorem subscribeToEvents_once_per_id (arrivals : list (string * Event))
    (filter : Filter) (relayUrls : list string) (i : string) :
  let calls := Events.subscribeToEvents (Events.caching_pool arrivals) filter
                 Events.record_call relayUrls [] in
  (occurrences i (map fst calls) <= 1)%nat /\
  occurrences i (map fst calls)
  = (if Hooks.some_id i (map snd (List.filter (Events.from_listed relayUrls) arrivals))
     then 1%nat else 0%nat) /\
  (forall p, Events.subscribeToEvents p filter Events.record_call relayUrls []
             = map (fun event => (event, "unknown-relay"))
                   (Events.subscribeMany p relayUrls [filter])).
Proof.
  cbv zeta.
  assert (Hcount : occurrences i
             (map fst (Events.subscribeToEvents (Events.caching_pool arrivals) filter
                         Events.record_call relayUrls []))
           = if Hooks.some_id i (map snd (List.filter (Events.from_listed relayUrls) arrivals))
             then 1%nat else 0%nat).
  { rewrite subscribeToEvents_calls, map_map. simpl. rewrite map_id.
    rewrite occurrences_deliver.
    rewrite bool_decide_eq_false_2 by apply not_elem_of_empty. reflexivity. }
  split; [| split].
  - rewrite Hcount. destruct (Hooks.some_id _ _); lia.
  - exact Hcount.
  - intros p. apply subscribeToEvents_calls.
Qed.

(** The hook's own callback is a second filter: an event whose id the
    closure has already seen, in [events] or in [pendingEvents], leaves the
    state as it is; a new one is inserted in descending order. *)
Lemma on_subscription_event_duplicate (autoUpdate : bool)
    (seen_events seen_pending : list Event) (event : Event) (relay : string)
    (st : Hooks.HookState) :
  Hooks.some_id (id event) (seen_events ++ seen_pending) = true ->
  Hooks.on_subscription_event autoUpdate seen_events seen_pending event relay st = st.
Proof.
  unfold Hooks.on_subscription_event, Hooks.some_id.
  rewrite existsb_app. now intros ->.
Qed.

Lemma on_subscription_event_fresh (autoUpdate : bool)
    (seen_events seen_pending : list Event) (event : Event) (relay : string)
    (st : Hooks.HookState) :
  Hooks.some_id (id event) (seen_events ++ seen_pending) = false ->
  let st' := Hooks.on_subscription_event autoUpdate seen_events seen_pending event relay st in
  Permutation (Hooks.events st' ++ Hooks.pendingEvents st')
              (event :: Hooks.events st ++ Hooks.pendingEvents st) /\
  (StronglySorted newer_first (Hooks.events st) ->
   StronglySorted newer_first (Hooks.pendingEvents st) ->
   StronglySorted newer_first (Hooks.events st') /\
   StronglySorted newer_first (Hooks.pendingEvents st')).
Proof.
  unfold Hooks.on_subscription_event, Hooks.some_id.
  rewrite existsb_app. intros ->. cbv zeta.
  destruct autoUpdate; cbn [orb Hooks.events Hooks.pendingEvents]; split.
  - now rewrite (Array_sort_perm by_created_at_desc (event :: Hooks.events st)).
  - intros _ Hp. split; [apply Array_sort_newer_first | exact Hp].
  - rewrite (Array_sort_perm by_created_at_desc (event :: Hooks.pendingEvents st)).
    symmetry. apply Permutation_middle.
  - intros He _. split; [exact He | apply Array_sort_newer_first].
Qed.

(** ** Event construction *)

(** C7 (as the code has it). Without a usable signing key each of the
    three constructors rejects with "No private key available".  When the
    stored key cannot be decoded or the signer refuses it, no error
    reaches the caller: the failure is logged and the operation resolves
    to [null]. *)
Theorem constructors_key_failures {Metadata : Type} (JSON_stringify : Metadata -> string)
    (finalizeEvent : Events.Signer) (p : Events.SimplePool) (ks : Keys.KeyStore)
    (rst : Relays.State) (now_ms : Z)
    (content : string) (tags : list (list string))
    (eventId pubkey reaction : string)
    (metadata : Metadata) (relayUrls : option (list string)) :
  (Events.usable_key (Keys.getPrivateKey ks) = None ->
   Events.createNoteEvent finalizeEvent ks now_ms content tags
     = Rejected "No private key available" /\
   Events.createReactionEvent finalizeEvent ks now_ms eventId pubkey reaction
     = Rejected "No private key available" /\
   Events.updateUserMetadata JSON_stringify finalizeEvent p ks rst now_ms metadata relayUrls
     = Rejected "No private key available") /\
  (forall privateKeyHex,
     Events.usable_key (Keys.getPrivateKey ks) = Some privateKeyHex ->
     ((exists reason, Keys.hexToBytes privateKeyHex = Rejected reason) \/
      (exists bytes, Keys.hexToBytes privateKeyHex = Fulfilled bytes /\
                     forall template, exists reason,
                       finalizeEvent template bytes = Rejected reason)) ->
     Events.createNoteEvent finalizeEvent ks now_ms content tags = Fulfilled None /\
     Events.createReactionEvent finalizeEvent ks now_ms eventId pubkey reaction
       = Fulfilled None /\
     Events.updateUserMetadata JSON_stringify finalizeEvent p ks rst now_ms metadata relayUrls
       = Fulfilled None).
Proof.
  unfold Events.createNoteEvent, Events.createReactionEvent, Events.updateUserMetadata.
  split.
  - intros ->. now repeat split.
  - intros privateKeyHex -> Hfail.
    assert (Hnull : forall template,
              Events.sign_or_null finalizeEvent privateKeyHex template = None).
    { intros template. unfold Events.sign_or_null.
      destruct Hfail as [[reason ->] | (bytes & -> & Hsigner)]; [reflexivity |].
      destruct (Hsigner template) as [reason ->]. reflexivity. }
    now rewrite !Hnull.
Qed.

Lemma constructors_key_failures_witness :
  let stringify := fun fields : list (string * string) => "{}" in
  let p := Events.publishing_pool [] in
  let rst := Relays.initial true None in
  let no_key := Keys.mkKeyStore true None in
  let short_key := Keys.mkKeyStore true (Some "abcd") in
  Events.createNoteEvent Events.strict_signer no_key 1700000000000 "hello" []
    = Rejected "No private key available" /\
  Events.createNoteEvent Events.strict_signer short_key 1700000000000 "hello" []
    = Fulfilled None /\
  Events.createReactionEvent Events.strict_signer short_key 1700000000000 "id" "pk" "+"
    = Fulfilled None /\
  Events.updateUserMetadata stringify Events.strict_signer p short_key rst
    1700000000000 [("name", "alice")] None = Fulfilled None.
Proof.
  intros stringify p rst no_key short_key.
  destruct (constructors_key_failures stringify Events.strict_signer p no_key rst
              1700000000000 "hello" [] "id" "pk" "+" [("name", "alice")] None)
    as [Hnone _].
  destruct (constructors_key_failures stringify Events.strict_signer p short_key rst
              1700000000000 "hello" [] "id" "pk" "+" [("name", "alice")] None)
    as [_ Hrejected].
  destruct (Hnone eq_refl) as (Hnote & _).
  destruct (Hrejected "abcd" eq_refl) as (Hnote' & Hreaction & Hupdate).
  - right. eexists. split; [reflexivity |].
    intros template. now eexists.
  - exact (conj Hnote (conj Hnote' (conj Hreaction Hupdate))).
Defined.

(** C7, as stated, fails: the stored key decodes to two bytes, the signer
    rejects it, and [createNoteEvent] resolves to [null] instead of
    raising a signing error. *)
Lemma createNoteEvent_signer_rejection_is_null :
  let ks := Keys.mkKeyStore true (Some "abcd") in
  let template := mkTemplate TEXT_NOTE_KIND 1700000000 [] "hello" in
  (exists bytes,
     Keys.hexToBytes "abcd" = Fulfilled bytes /\
     Events.strict_signer template bytes = Rejected "private key must be 32 bytes") /\
  Events.createNoteEvent Events.strict_signer ks 1700000000000 "hello" []
    = Fulfilled None /\
  is_fulfilled (Events.createNoteEvent Events.strict_signer ks 1700000000000 "hello" [])
    = true.
Proof.
  cbv zeta. split; [| split; reflexivity].
  eexists. split; reflexivity.
Qed.

(** ** Key encodings *)

Lemma asciiToBase16_hex_digit (d : N) :
  (d < 16)%N -> Keys.asciiToBase16 (Keys.hex_digit d) = Some d.
Proof.
  intros Hd.
  destruct d as [|q]; [reflexivity |].
  do 4 (destruct q as [q|q|]; try reflexivity); lia.
Qed.

Lemma lower_hex_digit (c : ascii) :
  Keys.is_lower_hex c = true ->
  exists d, Keys.asciiToBase16 c = Some d /\ (d < 16)%N /\ Keys.hex_digit d = c.
Proof.
  destruct c as [b0 b1 b2 b3 b4 b5 b6 b7].
  destruct b0, b1, b2, b3, b4, b5, b6, b7; intros H; vm_compute in H;
    try discriminate H;
    eexists; (split; [vm_compute; reflexivity | split; [reflexivity | reflexivity]]).
Qed.

Lemma byte_of_digits (n1 n2 : N) :
  (n1 < 16)%N -> (n2 < 16)%N ->
  exists b, Byte.of_N (n1 * 16 + n2) = Some b /\
            (Byte.to_N b / 16 = n1)%N /\ (Byte.to_N b mod 16 = n2)%N.
Proof.
  intros H1 H2.
  destruct (Byte.of_N (n1 * 16 + n2)) as [b|] eqn:Hb.
  - exists b. apply Byte.to_of_N in Hb. rewrite Hb. split; [reflexivity |].
    split.
    + rewrite N.div_add_l by lia. rewrite N.div_small by lia. lia.
    + rewrite N.add_comm, N.Div0.mod_add. now apply N.mod_small.
  - apply Byte.of_N_None_iff in Hb. lia.
Qed.

(** On an even number of lower-case hexadecimal digits [hexToBytes]
    succeeds and [bytesToHex] restores the text. *)
Lemma hexToBytes_lower_hex (n : nat) (hex : string) :
  String.length hex = (2 * n)%nat ->
  Keys.all_chars Keys.is_lower_hex hex = true ->
  exists bytes,
    Keys.hexToBytes hex = Fulfilled bytes /\
    Keys.bytesToHex bytes = hex /\
    List.length bytes = n.
Proof.
  revert hex. induction n as [|n IH]; intros hex Hlen Hall.
  - destruct hex; [| discriminate]. exists []. now repeat split.
  - destruct hex as [|c1 [|c2 rest]]; simpl in Hlen; try discriminate; try lia.
    simpl in Hall. apply andb_true_iff in Hall as [Hc1 Hall].
    apply andb_true_iff in Hall as [Hc2 Hall].
    destruct (IH rest ltac:(lia) Hall) as (bytes & Hrest & Hback & Hn).
    destruct (lower_hex_digit c1 Hc1) as (d1 & Hd1 & Hlt1 & Hch1).
    destruct (lower_hex_digit c2 Hc2) as (d2 & Hd2 & Hlt2 & Hch2).
    destruct (byte_of_digits d1 d2 Hlt1 Hlt2) as (b & Hb & Hdiv & Hmod).
    exists (b :: bytes). cbn [Keys.hexToBytes Keys.bytesToHex List.length].
    rewrite Hd1, Hd2, Hb, Hrest, Hdiv, Hmod, Hch1, Hch2, Hback, Hn.
    now repeat split.
Qed.

Lemma hexToBytes_bytesToHex (bytes : list Byte.byte) :
  Keys.hexToBytes (Keys.bytesToHex bytes) = Fulfilled bytes.
Proof.
  induction bytes as [|b rest IH]; [reflexivity |].
  cbn [Keys.bytesToHex Keys.hexToBytes].
  pose proof (Byte.to_N_bounded b) as Hb.
  rewrite !asciiToBase16_hex_digit.
  - replace (Byte.to_N b / 16 * 16 + Byte.to_N b mod 16)%N with (Byte.to_N b)
      by (rewrite (N.div_mod (Byte.to_N b) 16) at 1; lia).
    now rewrite Byte.of_to_N, IH.
  - apply N.mod_lt. lia.
  - apply N.Div0.div_lt_upper_bound. lia.
Qed.

Lemma substring_all (s : string) : String.substring 0 (String.length s) s = s.
Proof. induction s as [|c s IH]; simpl; [reflexivity | now rewrite IH]. Qed.

Lemma append_String (c : ascii) (p s : string) :
  String.append (String c p) s = String c (String.append p s).
Proof. reflexivity. Qed.

Lemma prefix_append (p s : string) : String.prefix p (String.append p s) = true.
Proof.
  induction p as [|c p IH]; [now destruct s |].
  rewrite append_String. cbn [String.prefix].
  destruct (ascii_dec c c); [exact IH | contradiction].
Qed.

Lemma substring_append (p s : string) :
  String.substring (String.length p)
    (String.length (String.append p s) - String.length p) (String.append p s) = s.
Proof.
  induction p as [|c p IH].
  - change (String.append "" s) with s. cbn [String.length].
    rewrite Nat.sub_0_r. apply substring_all.
  - rewrite append_String. cbn [String.length String.substring Nat.sub]. exact IH.
Qed.

Lemma strip_prefix_append (p s : string) :
  Keys.strip_prefix p (String.append p s) = Some s.
Proof.
  unfold Keys.strip_prefix. now rewrite prefix_append, substring_append.
Qed.

Lemma hex_nip19_laws : Keys.Nip19_laws Keys.hex_nip19 Keys.valid_key.
Proof.
  split.
  - intros hex _. cbn [Keys.decode Keys.npubEncode Keys.hex_nip19].
    now rewrite strip_prefix_append.
  - intros bytes _. cbn [Keys.decode Keys.nsecEncode Keys.hex_nip19].
    assert (Hnpub : Keys.strip_prefix "npub1" (String.append "nsec1" (Keys.bytesToHex bytes))
                    = None) by reflexivity.
    now rewrite Hnpub, strip_prefix_append, hexToBytes_bytesToHex.
Qed.

Lemma hex_digit_value (c : ascii) :
  Login.is_hex_digit c = true ->
  exists d, Keys.asciiToBase16 c = Some d /\ (d < 16)%N /\
            Keys.hex_digit d = lower_case_digit c.
Proof.
  destruct c as [b0 b1 b2 b3 b4 b5 b6 b7].
  destruct b0, b1, b2, b3, b4, b5, b6, b7; intros H; vm_compute in H;
    try discriminate H;
    eexists; (split; [vm_compute; reflexivity | split; [reflexivity | reflexivity]]).
Qed.

Lemma hexToBytes_hex (n : nat) (hex : string) :
  String.length hex = (2 * n)%nat ->
  Keys.all_chars Login.is_hex_digit hex = true ->
  exists bytes,
    Keys.hexToBytes hex = Fulfilled bytes /\
    Keys.bytesToHex bytes = lower_case_digits hex /\
    List.length bytes = n.
Proof.
  revert hex. induction n as [|n IH]; intros hex Hlen Hall.
  - destruct hex; [| discriminate]. exists []. now repeat split.
  - destruct hex as [|c1 [|c2 rest]]; simpl in Hlen; try discriminate; try lia.
    simpl in Hall. apply andb_true_iff in Hall as [Hc1 Hall].
    apply andb_true_iff in Hall as [Hc2 Hall].
    destruct (IH rest ltac:(lia) Hall) as (bytes & Hrest & Hback & Hn).
    destruct (hex_digit_value c1 Hc1) as (d1 & Hd1 & Hlt1 & Hch1).
    destruct (hex_digit_value c2 Hc2) as (d2 & Hd2 & Hlt2 & Hch2).
    destruct (byte_of_digits d1 d2 Hlt1 Hlt2) as (b & Hb & Hdiv & Hmod).
    exists (b :: bytes).
    cbn [Keys.hexToBytes Keys.bytesToHex List.length lower_case_digits].
    rewrite Hd1, Hd2, Hb, Hrest, Hdiv, Hmod, Hch1, Hch2, Hback, Hn.
    now repeat split.
Qed.

Lemma hex64_decodes (key : string) :
  Login.hex64 key = true ->
  exists bytes,
    Keys.hexToBytes key = Fulfilled bytes /\
    Keys.bytesToHex bytes = lower_case_digits key /\
    List.length bytes = 32%nat.
Proof.
  unfold Login.hex64. intros H. apply andb_true_iff in H as [Hlen Hall].
  apply Nat.eqb_eq in Hlen. now apply hexToBytes_hex.
Qed.

Lemma all_chars_impl (p q : ascii -> bool) (s : string) :
  (forall c, p c = true -> q c = true) ->
  Keys.all_chars p s = true -> Keys.all_chars q s = true.
Proof.
  intros Hpq. induction s as [|c s IH]; simpl; [reflexivity |].
  intros H. apply andb_true_iff in H as [Hc Hs].
  now rewrite (Hpq c Hc), IH.
Qed.

Lemma lower_hex_is_hex_digit (c : ascii) :
  Keys.is_lower_hex c = true -> Login.is_hex_digit c = true.
Proof.
  unfold Keys.is_lower_hex, Login.is_hex_digit.
  destruct ((48 <=? N_of_ascii c) && (N_of_ascii c <=? 57))%N; simpl; [reflexivity |].
  intros ->. apply orb_true_r.
Qed.

Lemma valid_key_hex64 (key : string) : Keys.valid_key key -> Login.hex64 key = true.
Proof.
  intros [Hlen Hall]. unfold Login.hex64. rewrite Hlen. simpl.
  now apply (all_chars_impl _ _ _ lower_hex_is_hex_digit).
Qed.

Lemma lower_case_digit_fixed (c : ascii) :
  Login.is_hex_digit c = true ->
  lower_case_digit c = c <-> Keys.is_lower_hex c = true.
Proof.
  destruct c as [b0 b1 b2 b3 b4 b5 b6 b7].
  destruct b0, b1, b2, b3, b4, b5, b6, b7; intros H; vm_compute in H;
    try discriminate H; vm_compute; split; intros H'; try reflexivity;
    discriminate H'.
Qed.

Lemma lower_case_digits_fixed (key : string) :
  Keys.all_chars Login.is_hex_digit key = true ->
  lower_case_digits key = key <-> Keys.all_chars Keys.is_lower_hex key = true.
Proof.
  induction key as [|c rest IH]; simpl; [now split |].
  intros H. apply andb_true_iff in H as [Hc Hrest].
  rewrite andb_true_iff, <- (IH Hrest), <- (lower_case_digit_fixed c Hc).
  split; [intros [= H1 H2]; now split | intros [-> ->]; reflexivity].
Qed.

(** C8 (as the code has it). With a NIP-19 codec whose [decode] inverts
    its encoders: for every key of 64 hexadecimal digits, in either case
    (the form the login accepts and stores as typed), [hexToNsec]
    succeeds and [nsecToHex] of its result is the key with its digits in
    lower case; that is the key itself exactly when the key is in
    canonical form (no upper-case digit).  For keys in canonical form both
    pairs round-trip: [npubToHex (hexToNpub pk)] is [pk] and
    [nsecToHex (hexToNsec sk)] is [sk]. *)
Theorem key_display_round_trip (nip19 : Keys.Nip19) (key : string) :
  Keys.Nip19_laws nip19 Keys.valid_key ->
  Login.hex64 key = true ->
  (exists nsec,
     Keys.hexToNsec nip19 key = Fulfilled nsec /\
     Keys.nsecToHex nip19 nsec = Fulfilled (lower_case_digits key)) /\
  (lower_case_digits key = key <-> Keys.valid_key key) /\
  (Keys.valid_key key ->
   Keys.npubToHex nip19 (Keys.hexToNpub nip19 key) = Fulfilled (Keys.DString key) /\
   exists nsec,
     Keys.hexToNsec nip19 key = Fulfilled nsec /\
     Keys.nsecToHex nip19 nsec = Fulfilled key).
Proof.
  intros [Hnpub Hnsec] Hhex.
  destruct (hex64_decodes key Hhex) as (bytes & Hbytes & Htext & Hlen).
  assert (Hround : Keys.hexToNsec nip19 key = Fulfilled (Keys.nsecEncode nip19 bytes) /\
                   Keys.nsecToHex nip19 (Keys.nsecEncode nip19 bytes)
                   = Fulfilled (lower_case_digits key)).
  { split.
    - unfold Keys.hexToNsec. now rewrite Hbytes.
    - unfold Keys.nsecToHex. rewrite (Hnsec bytes Hlen). simpl. now rewrite Htext. }
  assert (Hfixed : lower_case_digits key = key <-> Keys.valid_key key).
  { unfold Login.hex64 in Hhex. apply andb_true_iff in Hhex as [Hlength Hdigits].
    apply Nat.eqb_eq in Hlength.
    rewrite (lower_case_digits_fixed key Hdigits). unfold Keys.valid_key. tauto. }
  split; [now exists (Keys.nsecEncode nip19 bytes) |]. split; [exact Hfixed |].
  intros Hvalid. split.
  - unfold Keys.npubToHex, Keys.hexToNpub. now rewrite Hnpub.
  - exists (Keys.nsecEncode nip19 bytes). destruct Hround as [Henc Hdec].
    split; [exact Henc |]. apply Hfixed in Hvalid. now rewrite Hvalid in Hdec.
Qed.

Lemma key_display_round_trip_witness :
  let key := "3bf0c63fcb93463407af97a5e5ee64fa883d107ef9e558472c4eb9aaaefa459d" in
  Keys.npubToHex Keys.hex_nip19 (Keys.hexToNpub Keys.hex_nip19 key)
    = Fulfilled (Keys.DString key) /\
  exists nsec,
    Keys.hexToNsec Keys.hex_nip19 key = Fulfilled nsec /\
    Keys.nsecToHex Keys.hex_nip19 nsec = Fulfilled key.
Proof.
  intros key.
  destruct (key_display_round_trip Keys.hex_nip19 key hex_nip19_laws eq_refl)
    as (_ & _ & Hcanonical).
  apply Hcanonical. split; vm_compute; reflexivity.
Defined.

(** C8, as stated, fails for a private key the code accepts as valid: 64
    hexadecimal digits with upper-case letters pass the login form's test
    and are stored as typed, and with any codec that inverts its encoders
    the [nsec] pair returns the key in lower case, which is another
    text. *)
Lemma nsec_round_trip_changes_upper_case :
  let key := "3BF0C63FCB93463407AF97A5E5EE64FA883D107EF9E558472C4EB9AAAEFA459D" in
  let lowered := "3bf0c63fcb93463407af97a5e5ee64fa883d107ef9e558472c4eb9aaaefa459d" in
  let derive : Keys.Derivation := fun bytes => Fulfilled (Keys.bytesToHex bytes) in
  Login.hex64 key = true /\
  Keys.getPrivateKey
    (fst (Login.handleExistingKeyLogin (fun s => s) ascii_slice Keys.hex_nip19 derive key
            (Keys.mkKeyStore true None) (Login.mkLogin None None)))
    = Some key /\
  lowered <> key /\
  (forall nip19, Keys.Nip19_laws nip19 Keys.valid_key ->
     exists nsec,
       Keys.hexToNsec nip19 key = Fulfilled nsec /\
       Keys.nsecToHex nip19 nsec = Fulfilled lowered) /\
  (exists nsec,
     Keys.hexToNsec Keys.hex_nip19 key = Fulfilled nsec /\
     Keys.nsecToHex Keys.hex_nip19 nsec = Fulfilled lowered).
Proof.
  cbv zeta. split; [reflexivity |]. split; [vm_compute; reflexivity |].
  split; [discriminate |]. split.
  - intros nip19 [_ Hnsec].
    destruct (hex64_decodes
                "3BF0C63FCB93463407AF97A5E5EE64FA883D107EF9E558472C4EB9AAAEFA459D"
                eq_refl) as (bytes & Hbytes & Htext & Hlen).
    exists (Keys.nsecEncode nip19 bytes). split.
    + unfold Keys.hexToNsec. now rewrite Hbytes.
    + unfold Keys.nsecToHex. rewrite (Hnsec bytes Hlen). simpl. now rewrite Htext.
  - eexists. split; reflexivity.
Qed.

(** Outside the canonical form the text is normalised rather than
    restored: a key written with upper-case digits comes back in lower
    case.  It is still the same key: the bytes agree. *)
Lemma nsec_round_trip_same_bytes (nip19 : Keys.Nip19) (key : string)
    (bytes : list Byte.byte) :
  Keys.Nip19_laws nip19 Keys.valid_key ->
  Keys.hexToBytes key = Fulfilled bytes ->
  List.length bytes = 32%nat ->
  exists nsec,
    Keys.hexToNsec nip19 key = Fulfilled nsec /\
    Keys.nsecToHex nip19 nsec = Fulfilled (Keys.bytesToHex bytes) /\
    Keys.hexToBytes (Keys.bytesToHex bytes) = Fulfilled bytes.
Proof.
  intros [_ Hnsec] Hbytes Hlen.
  exists (Keys.nsecEncode nip19 bytes). split; [| split].
  - unfold Keys.hexToNsec. now rewrite Hbytes.
  - unfold Keys.nsecToHex. now rewrite (Hnsec bytes Hlen).
  - apply hexToBytes_bytesToHex.
Qed.

Example nsec_round_trip_lowers_case :
  exists nsec,
    Keys.hexToNsec Keys.hex_nip19 "AB" = Fulfilled nsec /\
    Keys.nsecToHex Keys.hex_nip19 nsec = Fulfilled "ab".
Proof. eexists. split; reflexivity. Qed.

(** * Further properties of the modules *)

(** ** relays.ts: the saved list *)

Section SavedList.
Import Relays.

Lemma saved_addRelay (url : string) (st : State) :
  getSavedRelays (addRelay url st)
  = if window_defined st && negb (includes (getSavedRelays st) url)
    then getSavedRelays st ++ [url]
    else getSavedRelays st.
Proof.
  unfold addRelay.
  destruct (window_defined st) eqn:Hw; simpl.
  - destruct (negb _); [now apply getSavedRelays_saveRelays | reflexivity].
  - destruct (negb _); [| reflexivity].
    unfold saveRelays. now rewrite Hw.
Qed.

Lemma saved_removeRelay (url : string) (st : State) :
  getSavedRelays (removeRelay url st)
  = if window_defined st
    then List.filter (fun relay => negb (String.eqb relay url)) (getSavedRelays st)
    else getSavedRelays st.
Proof.
  unfold removeRelay. rewrite getSavedRelays_disconnect.
  destruct (window_defined st) eqn:Hw.
  - now apply getSavedRelays_saveRelays.
  - unfold saveRelays. now rewrite Hw.
Qed.

Lemma filter_neq_absent (url : string) (l : list string) :
  url ∉ l -> List.filter (fun relay => negb (String.eqb relay url)) l = l.
Proof.
  induction l as [|x l IH]; intros Hout; [reflexivity |].
  apply not_elem_of_cons in Hout as [Hne Hout]. simpl.
  destruct (String.eqb x url) eqn:Hx.
  - apply String.eqb_eq in Hx. congruence.
  - simpl. now rewrite IH.
Qed.

(** X1. In the browser the saved list is exactly what was last saved,
    the empty list included: the bootstrap relays are returned only while
    nothing has ever been stored.  Outside the browser saving has no
    effect and the bootstrap relays are returned.  Saving touches neither
    the pool nor the active relays. *)
Theorem saveRelays_round_trip (relays : list string) (st : State) :
  (window_defined st = true -> getSavedRelays (saveRelays relays st) = relays) /\
  (window_defined st = true -> stored_relays st = None ->
   getSavedRelays st = DEFAULT_RELAYS) /\
  (window_defined st = false ->
   saveRelays relays st = st /\ getSavedRelays (saveRelays relays st) = DEFAULT_RELAYS) /\
  pool (saveRelays relays st) = pool st /\
  activeRelays (saveRelays relays st) = activeRelays st.
Proof.
  split; [| split; [| split; [| split]]].
  - apply getSavedRelays_saveRelays.
  - intros Hw Hnone. unfold getSavedRelays. now rewrite Hw, Hnone.
  - intros Hw. unfold saveRelays, getSavedRelays. rewrite Hw. split; [reflexivity |].
    now rewrite Hw.
  - unfold saveRelays. now destruct (window_defined st).
  - unfold saveRelays. now destruct (window_defined st).
Qed.

Lemma saveRelays_round_trip_witness :
  let st := initial true None in
  getSavedRelays st = DEFAULT_RELAYS /\
  getSavedRelays (saveRelays [] st) = [] /\
  getSavedRelays (saveRelays ["wss://relay.test"] (saveRelays [] st)) = ["wss://relay.test"].
Proof.
  intros st.
  destruct (saveRelays_round_trip [] st) as (Hsave & Hdefault & _).
  destruct (saveRelays_round_trip ["wss://relay.test"] (saveRelays [] st)) as (Hsave' & _).
  exact (conj (Hdefault eq_refl eq_refl) (conj (Hsave eq_refl) (Hsave' eq_refl))).
Defined.

(** X2. A relay that is not yet saved is appended at the end of the list:
    the relays already saved keep their positions. *)
Theorem addRelay_appends (url : string) (st : State) :
  window_defined st = true ->
  url ∉ getSavedRelays st ->
  getSavedRelays (addRelay url st) = getSavedRelays st ++ [url].
Proof.
  intros Hw Hout. rewrite saved_addRelay, Hw.
  destruct (includes (getSavedRelays st) url) eqn:Hinc; [| reflexivity].
  apply includes_spec in Hinc. contradiction.
Qed.

Lemma addRelay_appends_witness :
  getSavedRelays (addRelay "wss://relay.test" (initial true None))
  = DEFAULT_RELAYS ++ ["wss://relay.test"].
Proof.
  apply (addRelay_appends "wss://relay.test" (initial true None) eq_refl).
  apply (bool_decide_unpack _). vm_compute. exact I.
Defined.

(** X3. Adding a relay that was not saved and removing it again restores
    the saved list. *)
Theorem addRelay_removeRelay_restores (url : string) (st : State) :
  window_defined st = true ->
  url ∉ getSavedRelays st ->
  getSavedRelays (removeRelay url (addRelay url st)) = getSavedRelays st.
Proof.
  intros Hw Hout.
  assert (Hw' : window_defined (addRelay url st) = true).
  { unfold addRelay, saveRelays. rewrite Hw. now destruct (negb _). }
  assert (Hadd : getSavedRelays (addRelay url st) = getSavedRelays st ++ [url]).
  { rewrite saved_addRelay, Hw.
    destruct (includes (getSavedRelays st) url) eqn:Hinc; [| reflexivity].
    apply includes_spec in Hinc. contradiction. }
  rewrite saved_removeRelay, Hw', Hadd.
  rewrite List.filter_app. simpl. rewrite String.eqb_refl. simpl.
  now rewrite app_nil_r, filter_neq_absent.
Qed.

Lemma addRelay_removeRelay_restores_witness :
  let st := mkState true (Some ["wss://nos.lol"; "wss://relay.damus.io"]) None ∅
              ObjectPrototype in
  getSavedRelays (removeRelay "wss://relay.test" (addRelay "wss://relay.test" st))
  = ["wss://nos.lol"; "wss://relay.damus.io"].
Proof.
  intros st.
  apply (addRelay_removeRelay_restores "wss://relay.test" st eq_refl).
  apply (bool_decide_unpack _). vm_compute. exact I.
Defined.

(** X4. [removeRelay] deletes every occurrence of the URL and nothing
    else: the other relays stay saved, in the same order; removing a URL
    that is not saved leaves the list as it is, and so does removing it a
    second time. *)
Theorem removeRelay_only_that_url (url : string) (st : State) :
  window_defined st = true ->
  getSavedRelays (removeRelay url st)
  = List.filter (fun relay => negb (String.eqb relay url)) (getSavedRelays st) /\
  (forall other, other <> url ->
     (other ∈ getSavedRelays (removeRelay url st) <-> other ∈ getSavedRelays st)) /\
  (url ∉ getSavedRelays st -> getSavedRelays (removeRelay url st) = getSavedRelays st) /\
  getSavedRelays (removeRelay url (removeRelay url st))
  = getSavedRelays (removeRelay url st).
Proof.
  intros Hw.
  assert (Hrem : getSavedRelays (removeRelay url st)
                 = List.filter (fun relay => negb (String.eqb relay url)) (getSavedRelays st))
    by (now rewrite saved_removeRelay, Hw).
  assert (Hw' : window_defined (removeRelay url st) = true).
  { unfold removeRelay.
    destruct (disconnect_keeps url
                (saveRelays (List.filter (fun relay => negb (String.eqb relay url))
                               (getSavedRelays st)) st)) as (-> & _).
    destruct (saveRelays_keeps (List.filter (fun relay => negb (String.eqb relay url))
                                  (getSavedRelays st)) st) as (-> & _).
    exact Hw. }
  split; [exact Hrem |]. split; [| split].
  - intros other Hne. rewrite Hrem, !list_elem_of_In, filter_In.
    split; [now intros [Hin _] |]. intros Hin. split; [exact Hin |].
    apply negb_true_iff, String.eqb_neq. exact Hne.
  - intros Hout. rewrite Hrem. now apply filter_neq_absent.
  - rewrite saved_removeRelay, Hw'. apply filter_neq_absent.
    rewrite Hrem. apply not_in_filter_neq.
Qed.

Lemma removeRelay_only_that_url_witness :
  let st := mkState true (Some ["wss://a"; "wss://b"; "wss://a"; "wss://c"]) None ∅
              ObjectPrototype in
  getSavedRelays (removeRelay "wss://a" st) = ["wss://b"; "wss://c"] /\
  getSavedRelays (removeRelay "wss://a" (removeRelay "wss://a" st))
  = getSavedRelays (removeRelay "wss://a" st).
Proof.
  intros st.
  destruct (removeRelay_only_that_url "wss://a" st eq_refl) as (Hfilter & _ & _ & Htwice).
  split; [rewrite Hfilter; reflexivity | exact Htwice].
Defined.

End SavedList.

(** ** relays.ts: connections *)

Section Connections.
Import Relays.

Lemma disconnect_other (url other : string) (st : State) :
  other <> url ->
  activeRelays (disconnectFromRelay url st) !! other = activeRelays st !! other /\
  activeRelays_get other (disconnectFromRelay url st) = activeRelays_get other st /\
  pool_connected other (disconnectFromRelay url st) = pool_connected other st.
Proof.
  intros Hne. unfold disconnectFromRelay.
  destruct (truthy (activeRelays_get url st)); [| now repeat split].
  destruct (pool st) as [c|] eqn:Hp; [| now repeat split].
  assert (Hown : delete url (activeRelays st) !! other = activeRelays st !! other)
    by (apply lookup_delete_ne; congruence).
  split; [exact Hown |]. split.
  - unfold activeRelays_get. cbn [activeRelays prototype set_active set_pool].
    now rewrite Hown.
  - unfold pool_connected. cbn [pool set_active set_pool]. rewrite Hp.
    apply bool_decide_ext. unfold pool_close.
    rewrite elem_of_difference, elem_of_list_to_set, list_elem_of_singleton.
    split; [now intros [H _] | intros H; split; [exact H | congruence]].
Qed.

(** X5. Disconnecting or removing one relay leaves every other relay as
    it was: its entry in [activeRelays], what [activeRelays[other]]
    evaluates to, whether it is reported active, and whether the pool is
    connected to it are the same before and after, for
    [disconnectFromRelay] and for [removeRelay] alike. *)
Theorem removeRelay_keeps_other_relays (url other : string) (st : State) :
  other <> url ->
  (activeRelays (disconnectFromRelay url st) !! other = activeRelays st !! other /\
   activeRelays_get other (disconnectFromRelay url st) = activeRelays_get other st /\
   isRelayActive other (disconnectFromRelay url st) = isRelayActive other st /\
   pool_connected other (disconnectFromRelay url st) = pool_connected other st) /\
  (activeRelays (removeRelay url st) !! other = activeRelays st !! other /\
   activeRelays_get other (removeRelay url st) = activeRelays_get other st /\
   isRelayActive other (removeRelay url st) = isRelayActive other st /\
   pool_connected other (removeRelay url st) = pool_connected other st).
Proof.
  intros Hne.
  assert (Hdis : forall s,
            activeRelays (disconnectFromRelay url s) !! other = activeRelays s !! other /\
            activeRelays_get other (disconnectFromRelay url s) = activeRelays_get other s /\
            isRelayActive other (disconnectFromRelay url s) = isRelayActive other s /\
            pool_connected other (disconnectFromRelay url s) = pool_connected other s).
  { intros s. destruct (disconnect_other url other s Hne) as (Hown & Hget & Hconn).
    unfold isRelayActive. now rewrite Hget. }
  split; [apply Hdis |].
  unfold removeRelay.
  set (kept := List.filter (fun relay => negb (String.eqb relay url)) (getSavedRelays st)).
  destruct (Hdis (saveRelays kept st)) as (Hown & Hget & Hactive & Hconn).
  destruct (saveRelays_keeps kept st) as (_ & Hp & Ha & _).
  rewrite Hown, Hget, Hactive, Hconn.
  unfold isRelayActive, pool_connected. now rewrite get_saveRelays, Hp, Ha.
Qed.

Lemma removeRelay_keeps_other_relays_witness :
  let net : Network := fun url => Fulfilled (mkRelay url []) in
  let st := snd (connectToRelays net ["wss://a"; "wss://b"] (initial true None)) in
  isRelayActive "wss://b" st = true /\
  pool_connected "wss://b" st = true /\
  isRelayActive "wss://b" (disconnectFromRelay "wss://a" st) = isRelayActive "wss://b" st /\
  pool_connected "wss://b" (disconnectFromRelay "wss://a" st)
    = pool_connected "wss://b" st /\
  isRelayActive "wss://b" (removeRelay "wss://a" st) = isRelayActive "wss://b" st /\
  pool_connected "wss://b" (removeRelay "wss://a" st) = pool_connected "wss://b" st.
Proof.
  intros net st.
  assert (Hne : "wss://b" <> "wss://a") by discriminate.
  destruct (removeRelay_keeps_other_relays "wss://a" "wss://b" st Hne)
    as ((_ & _ & Hactive & Hconn) & (_ & _ & Hactive' & Hconn')).
  split; [vm_compute; reflexivity |]. split; [vm_compute; reflexivity |].
  exact (conj Hactive (conj Hconn (conj Hactive' Hconn'))).
Defined.

(** X6. [closePool] on a module that has a pool: afterwards the pool is
    gone, [activeRelays] has no entry, and [isRelayActive] is false for
    every URL except the property names every object inherits (such as
    "constructor"), for which it is true.  Without a pool [closePool] does
    nothing at all, so relays that are registered stay registered.  The
    saved relay list is untouched in both cases. *)
Theorem closePool_deactivates_all (st : State) :
  (pool st <> None ->
   pool (closePool st) = None /\
   getActiveRelays (closePool st) = ∅ /\
   (forall url, isRelayActive url (closePool st) = true <-> url ∈ Object_prototype)) /\
  (pool st = None -> closePool st = st) /\
  getSavedRelays (closePool st) = getSavedRelays st.
Proof.
  unfold closePool. destruct (pool st) as [c|] eqn:Hp.
  - split; [| split; [discriminate | reflexivity]].
    intros _. split; [reflexivity |]. split; [reflexivity |].
    intros url. unfold isRelayActive.
    rewrite truthy_get_unowned by apply lookup_empty.
    cbn [prototype set_prototype inherits]. apply bool_decide_eq_true.
  - split; [congruence |]. split; reflexivity.
Qed.

Lemma closePool_deactivates_all_witness :
  let net : Network := fun url => Fulfilled (mkRelay url []) in
  let st := snd (connectToRelays net DEFAULT_RELAYS (initial true None)) in
  isRelayActive "wss://nos.lol" st = true /\
  pool (closePool st) = None /\
  isRelayActive "wss://nos.lol" (closePool st) = false /\
  isRelayActive "constructor" (closePool st) = true /\
  getSavedRelays (closePool st) = DEFAULT_RELAYS.
Proof.
  intros net st.
  assert (Hpool : pool st <> None) by (vm_compute; discriminate).
  destruct (closePool_deactivates_all st) as (Hclosed & _ & Hsaved).
  destruct (Hclosed Hpool) as (Hnone & _ & Hactive).
  split; [vm_compute; reflexivity |]. split; [exact Hnone |]. split; [| split].
  - destruct (isRelayActive "wss://nos.lol" (closePool st)) eqn:H; [| reflexivity].
    apply Hactive in H.
    assert (Hout : "wss://nos.lol" ∉ Object_prototype)
      by (apply (bool_decide_unpack _); vm_compute; exact I).
    contradiction.
  - apply Hactive. apply (bool_decide_unpack _). vm_compute. exact I.
  - exact Hsaved.
Defined.

(** X7. Once [connectToRelay] has succeeded for a URL, every later call
    for that URL returns the same value and changes nothing, whatever the
    network would answer by then: what is recorded is reused without
    asking the pool. *)
Theorem connectToRelay_idempotent (net net' : Network) (url : string) (result : Value)
    (st : State) :
  fst (connectToRelay net url st) = Fulfilled result ->
  connectToRelay net' url (snd (connectToRelay net url st))
  = (Fulfilled result, snd (connectToRelay net url st)).
Proof.
  assert (Hagain : forall s, truthy (activeRelays_get url s) = true ->
            connectToRelay net' url s = (Fulfilled (activeRelays_get url s), s)).
  { intros s Hs. unfold connectToRelay, connectToRelay_call. now rewrite Hs. }
  unfold connectToRelay at 1 3 4. unfold connectToRelay_call.
  destruct (truthy (activeRelays_get url st)) eqn:Hact.
  - cbn [fst snd]. intros [= <-]. now apply Hagain.
  - destruct (ensureRelay net url st) as [[relay|e] st1]; cbn [connectToRelay_resume fst snd];
      [| discriminate].
    intros [= <-].
    rewrite Hagain; rewrite get_set_eq; reflexivity.
Qed.

Lemma connectToRelay_idempotent_witness :
  let up : Network := fun url => Fulfilled (mkRelay url []) in
  let down : Network := fun url => Rejected "connection refused" in
  let st := snd (connectToRelay up "wss://nos.lol" (initial true None)) in
  connectToRelay down "wss://nos.lol" st
  = (Fulfilled (RelayObject (mkRelay "wss://nos.lol" [])), st).
Proof.
  intros up down st.
  apply (connectToRelay_idempotent up down "wss://nos.lol"
           (RelayObject (mkRelay "wss://nos.lol" [])) (initial true None)).
  reflexivity.
Defined.

(** X8. [connectToRelay] on a URL that is not active: when the connection
    succeeds the relay is returned, recorded as active and connected in
    the pool; when it fails the call rejects with
    "Failed to connect to relay: <url>" and the active relays stay as they
    were.  In both cases the other active relays and the saved list are
    not touched. *)
Theorem connectToRelay_fresh (net : Network) (url : string) (st : State) :
  isRelayActive url st = false ->
  let result := fst (connectToRelay net url st) in
  let st' := snd (connectToRelay net url st) in
  match net url with
  | Fulfilled relay =>
      result = Fulfilled (RelayObject relay) /\
      activeRelays st' = <[url := relay]> (activeRelays st) /\
      isRelayActive url st' = true /\
      pool_connected url st' = true
  | Rejected _ =>
      result = Rejected ("Failed to connect to relay: " ++ url)%string /\
      activeRelays st' = activeRelays st /\
      isRelayActive url st' = false
  end /\
  getSavedRelays st' = getSavedRelays st.
Proof.
  intros Hact. cbv zeta. unfold isRelayActive in Hact.
  destruct (falsy_get url st Hact) as (Hown & Hinh & Hname).
  apply String.eqb_neq in Hname.
  unfold connectToRelay, connectToRelay_call. rewrite Hact.
  unfold ensureRelay, getPool.
  destruct (pool st) as [c|] eqn:Hp; destruct (net url) as [relay|e];
    cbn [connectToRelay_resume fst snd]; unfold isRelayActive, pool_connected.
  - destruct (set_keeps url relay (set_pool (Some (c ∪ {[url]})) st)) as (Hw & Hs & Hpl).
    rewrite get_set_eq, own_set_eq, Hpl by exact Hname.
    split; [split; [reflexivity | split; [reflexivity | split; [reflexivity |]]] |].
    + apply bool_decide_eq_true. apply elem_of_union_r, elem_of_singleton. reflexivity.
    + unfold getSavedRelays. now rewrite Hw, Hs.
  - cbn [activeRelays set_pool]. rewrite Hact. now repeat split.
  - destruct (set_keeps url relay (set_pool (Some (∅ ∪ {[url]})) (set_pool (Some ∅) st)))
      as (Hw & Hs & Hpl).
    rewrite get_set_eq, own_set_eq, Hpl by exact Hname.
    split; [split; [reflexivity | split; [reflexivity | split; [reflexivity |]]] |].
    + apply bool_decide_eq_true. apply elem_of_union_r, elem_of_singleton. reflexivity.
    + unfold getSavedRelays. now rewrite Hw, Hs.
  - assert (Hget : activeRelays_get url (set_pool (Some ∅) st) = activeRelays_get url st)
      by reflexivity.
    rewrite Hget, Hact. now repeat split.
Qed.

Lemma connectToRelay_fresh_witness :
  let net : Network := fun url =>
    if String.eqb url "wss://nos.lol" then Fulfilled (mkRelay url [])
    else Rejected "connection refused" in
  let st := initial true None in
  fst (connectToRelay net "wss://nos.lol" st)
    = Fulfilled (RelayObject (mkRelay "wss://nos.lol" [])) /\
  isRelayActive "wss://nos.lol" (snd (connectToRelay net "wss://nos.lol" st)) = true /\
  fst (connectToRelay net "wss://relay.down" st)
    = Rejected "Failed to connect to relay: wss://relay.down" /\
  isRelayActive "wss://relay.down" (snd (connectToRelay net "wss://relay.down" st)) = false.
Proof.
  intros net st.
  destruct (connectToRelay_fresh net "wss://nos.lol" st eq_refl) as [Hup _].
  destruct (connectToRelay_fresh net "wss://relay.down" st eq_refl) as [Hdown _].
  simpl in Hup, Hdown.
  destruct Hup as (Hr & _ & Ha & _). destruct Hdown as (Hr' & _ & Ha').
  exact (conj Hr (conj Ha (conj Hr' Ha'))).
Defined.

(** What one element of the batch does to the object. *)
Lemma connect_one_state (net : Network) (url : string) (st : State) :
  exists st0,
    activeRelays st0 = activeRelays st /\ prototype st0 = prototype st /\
    snd (connect_one net url st)
    = match net url with
      | Fulfilled relay => activeRelays_set url relay st0
      | Rejected _ => st0
      end.
Proof.
  unfold connect_one.
  pose proof (ensureRelay_keeps net url st) as (_ & _ & Ha & Hproto & Hnet).
  destruct (ensureRelay net url st) as [promise st0]. simpl in *. subst promise.
  exists st0. split; [exact Ha |]. split; [exact Hproto |].
  now destruct (net url).
Qed.

Lemma get_same_object (url : string) (s s' : State) :
  activeRelays s = activeRelays s' -> prototype s = prototype s' ->
  activeRelays_get url s = activeRelays_get url s'.
Proof. intros Ha Hp. unfold activeRelays_get. now rewrite Ha, Hp. Qed.

(** A listed URL whose connection succeeds reads as its relay from the
    step that registers it to the end of the batch. *)
Lemma connect_all_keeps_relay (net : Network) (urls : list string) (url : string)
    (relay : Relay) (st : State) :
  net url = Fulfilled relay ->
  activeRelays_get url st = RelayObject relay ->
  activeRelays_get url (snd (connect_all net urls st)) = RelayObject relay.
Proof.
  intros Hnet. revert st.
  induction urls as [|u rest IH]; intros st Hget; [exact Hget |].
  cbn [connect_all].
  destruct (connect_one_state net u st) as (st0 & Ha & Hp & Hone).
  destruct (connect_one net u st) as [r st1]. simpl in Hone.
  specialize (IH st1). destruct (connect_all net rest st1) as [rs st2]. simpl.
  apply IH. subst st1.
  assert (Hget0 : activeRelays_get url st0 = RelayObject relay)
    by (now rewrite (get_same_object url st0 st Ha Hp)).
  destruct (net u) as [r'|e] eqn:Hu; [| exact Hget0].
  destruct (decide (url = u)) as [<- | Hne].
  - assert (r' = relay) by congruence. subst r'. apply get_set_eq.
  - now apply get_set_ne.
Qed.

Lemma connect_all_registers (net : Network) (urls : list string) (url : string)
    (relay : Relay) (st : State) :
  url ∈ urls -> net url = Fulfilled relay ->
  activeRelays_get url (snd (connect_all net urls st)) = RelayObject relay.
Proof.
  intros Hin Hnet. revert st.
  induction urls as [|u rest IH]; intros st; [inversion Hin |].
  cbn [connect_all].
  destruct (connect_one_state net u st) as (st0 & Ha & Hp & Hone).
  pose proof (connect_all_keeps_relay net rest url relay) as Hkeep.
  destruct (connect_one net u st) as [r st1]. simpl in Hone.
  destruct (decide (url = u)) as [<- | Hne].
  - specialize (Hkeep st1 Hnet).
    destruct (connect_all net rest st1) as [rs st2]. simpl in *.
    apply Hkeep. subst st1. rewrite Hnet. apply get_set_eq.
  - apply elem_of_cons in Hin as [Heq | Hin]; [contradiction |].
    specialize (IH Hin st1).
    destruct (connect_all net rest st1) as [rs st2]. exact IH.
Qed.

(** The entry of a URL is changed by its own successful attempts only. *)
Lemma connect_all_own (net : Network) (urls : list string) (url : string) (st : State) :
  url ∉ urls \/ is_fulfilled (net url) = false ->
  activeRelays (snd (connect_all net urls st)) !! url = activeRelays st !! url.
Proof.
  intros Hskip. revert st.
  induction urls as [|u rest IH]; intros st; [reflexivity |].
  cbn [connect_all].
  destruct (connect_one_state net u st) as (st0 & Ha & Hp & Hone).
  destruct (connect_one net u st) as [r st1]. simpl in Hone.
  assert (Hrest : url ∉ rest \/ is_fulfilled (net url) = false).
  { destruct Hskip as [Hout | Hfail]; [left | now right].
    intros Hin. apply Hout. now constructor. }
  specialize (IH Hrest st1). destruct (connect_all net rest st1) as [rs st2].
  simpl in *. rewrite IH. subst st1. rewrite <- Ha.
  destruct (net u) as [r'|e] eqn:Hu; [| reflexivity].
  apply own_set_ne. intros ->.
  destruct Hskip as [Hout | Hfail].
  - apply Hout. constructor.
  - rewrite Hu in Hfail. discriminate.
Qed.

(** An entry is never lost in a batch. *)
Lemma connect_all_some (net : Network) (urls : list string) (url : string) (st : State) :
  is_Some (activeRelays st !! url) ->
  is_Some (activeRelays (snd (connect_all net urls st)) !! url).
Proof.
  revert st. induction urls as [|u rest IH]; intros st Hsome; [exact Hsome |].
  cbn [connect_all].
  destruct (connect_one_state net u st) as (st0 & Ha & Hp & Hone).
  destruct (connect_one net u st) as [r st1]. simpl in Hone.
  specialize (IH st1). destruct (connect_all net rest st1) as [rs st2]. simpl.
  apply IH. subst st1. rewrite <- Ha in Hsome.
  destruct (net u); [now apply own_set_some | exact Hsome].
Qed.

(** Only a successful connection to "__proto__" replaces the prototype. *)
Lemma connect_all_prototype (net : Network) (urls : list string) (st : State) :
  "__proto__" ∉ urls \/ is_fulfilled (net "__proto__") = false ->
  prototype (snd (connect_all net urls st)) = prototype st.
Proof.
  intros Hskip. revert st.
  induction urls as [|u rest IH]; intros st; [reflexivity |].
  cbn [connect_all].
  destruct (connect_one_state net u st) as (st0 & Ha & Hp & Hone).
  destruct (connect_one net u st) as [r st1]. simpl in Hone.
  assert (Hrest : "__proto__" ∉ rest \/ is_fulfilled (net "__proto__") = false).
  { destruct Hskip as [Hout | Hfail]; [left | now right].
    intros Hin. apply Hout. now constructor. }
  specialize (IH Hrest st1). destruct (connect_all net rest st1) as [rs st2].
  simpl in *. rewrite IH. subst st1. rewrite <- Hp.
  destruct (net u) as [r'|e] eqn:Hu; [| reflexivity].
  unfold activeRelays_set.
  destruct (String.eqb u "__proto__") eqn:Hname.
  - apply String.eqb_eq in Hname. subst u. exfalso.
    destruct Hskip as [Hout | Hfail].
    + apply Hout. constructor.
    + rewrite Hu in Hfail. discriminate.
  - now destruct (activeRelays st0 !! u).
Qed.

Lemma connectToRelays_state (net : Network) (urls : list string) (st : State) :
  exists st0,
    activeRelays st0 = activeRelays st /\ prototype st0 = prototype st /\
    snd (connectToRelays net urls st) = snd (connect_all net urls st0).
Proof.
  unfold connectToRelays, getPool.
  destruct (pool st).
  - exists st. destruct (connect_all net urls st). now repeat split.
  - exists (set_pool (Some ∅) st).
    destruct (connect_all net urls (set_pool (Some ∅) st)). now repeat split.
Qed.

(** X9. After [connectToRelays] every listed relay whose connection
    succeeded is recorded: [activeRelays[url]] evaluates to the relay the
    pool returned, and for every URL but "__proto__" (which a plain object
    does not store as an entry) it is an entry of [activeRelays].  A
    failed attempt, like a URL that was not listed, leaves the entry of
    that URL as it was.  Connecting never deactivates a relay: a relay
    that was registered stays active, and unless a connection to
    "__proto__" succeeded in the batch, whatever was reported active is
    still reported active. *)
Theorem connectToRelays_registers (net : Network) (urls : list string) (st : State)
    (url : string) :
  let st' := snd (connectToRelays net urls st) in
  (forall relay, url ∈ urls -> net url = Fulfilled relay ->
                 activeRelays_get url st' = RelayObject relay /\
                 isRelayActive url st' = true /\
                 (url <> "__proto__" -> activeRelays st' !! url = Some relay)) /\
  (url ∉ urls \/ is_fulfilled (net url) = false ->
   activeRelays st' !! url = activeRelays st !! url) /\
  (is_Some (activeRelays st !! url) -> isRelayActive url st' = true) /\
  ("__proto__" ∉ urls \/ is_fulfilled (net "__proto__") = false ->
   isRelayActive url st = true -> isRelayActive url st' = true).
Proof.
  cbv zeta.
  destruct (connectToRelays_state net urls st) as (st0 & Ha & Hp & ->).
  assert (Hkept : is_Some (activeRelays st !! url) ->
                  isRelayActive url (snd (connect_all net urls st0)) = true).
  { intros Hsome. rewrite <- Ha in Hsome.
    destruct (connect_all_some net urls url st0 Hsome) as [own Hown].
    unfold isRelayActive. now rewrite (truthy_get_owned url own _ Hown). }
  split; [| split; [| split; [exact Hkept |]]]; cycle 2.
  { intros Hproto Hactive.
    destruct (activeRelays st !! url) as [own|] eqn:Hown; [apply Hkept; now eexists |].
    unfold isRelayActive in *.
    rewrite (truthy_get_unowned url st Hown) in Hactive.
    destruct (activeRelays (snd (connect_all net urls st0)) !! url) as [own|] eqn:Hown';
      [now rewrite (truthy_get_owned url own _ Hown') |].
    rewrite (truthy_get_unowned url _ Hown').
    now rewrite (connect_all_prototype net urls st0 Hproto), Hp. }
  - intros relay Hin Hnet.
    pose proof (connect_all_registers net urls url relay st0 Hin Hnet) as Hget.
    split; [exact Hget |]. split; [unfold isRelayActive; now rewrite Hget |].
    intros Hname. unfold activeRelays_get in Hget.
    destruct (activeRelays (snd (connect_all net urls st0)) !! url) as [own|];
      [congruence |].
    apply String.eqb_neq in Hname. rewrite Hname in Hget.
    destruct (prototype (snd (connect_all net urls st0))) as [|proto];
      match type of Hget with
      | (if ?b then _ else _) = _ => destruct b; discriminate
      end.
  - intros Hskip. now rewrite connect_all_own, Ha.
Qed.

Lemma connectToRelays_registers_witness :
  let net : Network := fun url =>
    if String.eqb url "wss://relay.down" then Rejected "connection refused"
    else Fulfilled (mkRelay url []) in
  let st0 := snd (connectToRelays (fun url => Fulfilled (mkRelay url []))
                    ["wss://relay.down"] (initial true None)) in
  let st' := snd (connectToRelays net ["wss://nos.lol"; "wss://relay.down"] st0) in
  activeRelays st' !! "wss://nos.lol" = Some (mkRelay "wss://nos.lol" []) /\
  activeRelays st' !! "wss://relay.down" = activeRelays st0 !! "wss://relay.down" /\
  isRelayActive "wss://relay.down" st' = true.
Proof.
  intros net st0 st'.
  destruct (connectToRelays_registers net ["wss://nos.lol"; "wss://relay.down"] st0
              "wss://nos.lol") as (Hup & _ & _ & _).
  destruct (connectToRelays_registers net ["wss://nos.lol"; "wss://relay.down"] st0
              "wss://relay.down") as (_ & Hdown & Hkeep & _).
  split; [| split].
  - apply Hup; [| reflexivity | discriminate].
    apply (bool_decide_unpack _). vm_compute. exact I.
  - apply Hdown. right. reflexivity.
  - apply Hkeep. vm_compute. now eexists.
Defined.

(** X10. [connectToRelay] is suspended at its [await]; the registration
    [activeRelays[url] = relay] runs when the connection has been made, in
    whatever state the module has by then.  If [closePool] ran in between,
    the relay is registered without a pool: it is reported active, and
    neither [disconnectFromRelay] nor [removeRelay] nor a second
    [closePool] unregisters it, because each of them acts only when the
    pool exists. *)
Theorem closePool_during_connectToRelay (net : Network) (url : string) (relay : Relay)
    (st : State) :
  isRelayActive url st = false ->
  net url = Fulfilled relay ->
  exists at_await,
    connectToRelay_call net url st = (Awaiting (Fulfilled relay), at_await) /\
    pool at_await <> None /\
    let st' := snd (connectToRelay_resume url (Fulfilled relay) (closePool at_await)) in
    pool st' = None /\
    getActiveRelays st' = {[ url := relay ]} /\
    isRelayActive url st' = true /\
    disconnectFromRelay url st' = st' /\
    isRelayActive url (removeRelay url st') = true /\
    closePool st' = st'.
Proof.
  intros Hact Hnet. unfold isRelayActive in Hact.
  destruct (falsy_get url st Hact) as (_ & _ & Hname).
  unfold connectToRelay_call. rewrite Hact.
  pose proof (ensureRelay_keeps net url st) as (_ & _ & _ & _ & Hfst).
  assert (Hpool : pool (snd (ensureRelay net url st)) <> None)
    by (unfold ensureRelay, getPool; rewrite Hnet; destruct (pool st); discriminate).
  destruct (ensureRelay net url st) as [promise at_await]. simpl in *.
  rewrite Hnet in Hfst. subst promise.
  exists at_await. split; [reflexivity |]. split; [exact Hpool |].
  assert (Hclosed : closePool at_await
                    = set_prototype ObjectPrototype (set_active ∅ (set_pool None at_await)))
    by (unfold closePool; destruct (pool at_await); [reflexivity | contradiction]).
  rewrite Hclosed. cbn [connectToRelay_resume snd]. cbv zeta.
  set (closed := set_prototype ObjectPrototype (set_active ∅ (set_pool None at_await))).
  assert (Hset : activeRelays_set url relay closed
                 = set_active (<[url := relay]> ∅) closed).
  { unfold activeRelays_set. rewrite Hname.
    now destruct (activeRelays closed !! url). }
  assert (Hnone : pool (activeRelays_set url relay closed) = None)
    by (now rewrite Hset).
  assert (Hstill : disconnectFromRelay url (activeRelays_set url relay closed)
                   = activeRelays_set url relay closed).
  { unfold disconnectFromRelay. rewrite Hnone.
    now destruct (truthy (activeRelays_get url (activeRelays_set url relay closed))). }
  split; [exact Hnone |]. split; [| split; [| split; [| split]]].
  - rewrite Hset. unfold getActiveRelays. cbn [activeRelays set_active].
    apply insert_empty.
  - unfold isRelayActive. now rewrite get_set_eq.
  - exact Hstill.
  - unfold removeRelay, isRelayActive.
    set (kept := List.filter _ _).
    destruct (saveRelays_keeps kept (activeRelays_set url relay closed))
      as (_ & Hp & _ & _).
    assert (Hsame : disconnectFromRelay url
                      (saveRelays kept (activeRelays_set url relay closed))
                    = saveRelays kept (activeRelays_set url relay closed)).
    { unfold disconnectFromRelay. rewrite Hp, Hnone.
      now destruct (truthy (activeRelays_get url
                              (saveRelays kept (activeRelays_set url relay closed)))). }
    now rewrite Hsame, get_saveRelays, get_set_eq.
  - unfold closePool. now rewrite Hnone.
Qed.

Lemma closePool_during_connectToRelay_witness :
  let net : Network := fun url => Fulfilled (mkRelay url []) in
  let url := "wss://relay.test" in
  let relay := mkRelay url [] in
  let at_await := snd (connectToRelay_call net url (initial true None)) in
  let st' := snd (connectToRelay_resume url (Fulfilled relay) (closePool at_await)) in
  pool st' = None /\
  isRelayActive url st' = true /\
  isRelayActive url (removeRelay url st') = true.
Proof.
  intros net url relay at_await st'.
  destruct (closePool_during_connectToRelay net url relay (initial true None)
              eq_refl eq_refl)
    as (at_await' & Hcall & _ & Hnone & _ & Hactive & _ & Hremove & _).
  assert (Hsame : at_await' = at_await) by (injection Hcall as <-; reflexivity).
  subst at_await'.
  exact (conj Hnone (conj Hactive Hremove)).
Defined.

End Connections.

(** ** Settings page: the relay list *)

Section SettingsFacts.
Import Relays.

Lemma NoDup_snoc {A} (l : list A) (x : A) : x ∉ l -> NoDup l -> NoDup (l ++ [x]).
Proof.
  intros Hout Hl. apply NoDup_app. split; [exact Hl |]. split.
  - intros y Hy Hx. apply list_elem_of_singleton in Hx. now subst y.
  - apply NoDup_singleton.
Qed.

Lemma NoDup_List_filter {A} (f : A -> bool) (l : list A) :
  NoDup l -> NoDup (List.filter f l).
Proof.
  induction 1 as [|x l Hx Hl IH]; simpl; [constructor |].
  destruct (f x); [| exact IH].
  constructor; [| exact IH].
  rewrite list_elem_of_In, filter_In, <- list_elem_of_In. now intros [Hin _].
Qed.

Lemma saved_NoDup_addRelay (url : string) (st : State) :
  NoDup (getSavedRelays st) -> NoDup (getSavedRelays (addRelay url st)).
Proof.
  intros Hnd. rewrite saved_addRelay.
  destruct (window_defined st); simpl; [| exact Hnd].
  destruct (includes (getSavedRelays st) url) eqn:Hinc; simpl; [exact Hnd |].
  apply NoDup_snoc; [| exact Hnd]. intros Hin. apply includes_spec in Hin. congruence.
Qed.

Lemma saved_wss_addRelay (url : string) (st : State) :
  wss url -> Forall wss (getSavedRelays st) ->
  Forall wss (getSavedRelays (addRelay url st)).
Proof.
  intros Hurl Hall. rewrite saved_addRelay.
  destruct (window_defined st && negb (includes (getSavedRelays st) url)); [| exact Hall].
  apply Forall_app. split; [exact Hall | now constructor].
Qed.

Lemma saved_NoDup_removeRelay (url : string) (st : State) :
  NoDup (getSavedRelays st) -> NoDup (getSavedRelays (removeRelay url st)).
Proof.
  intros Hnd. rewrite saved_removeRelay.
  destruct (window_defined st); [| exact Hnd]. now apply NoDup_List_filter.
Qed.

Lemma saved_wss_removeRelay (url : string) (st : State) :
  Forall wss (getSavedRelays st) -> Forall wss (getSavedRelays (removeRelay url st)).
Proof.
  intros Hall. rewrite saved_removeRelay.
  destruct (window_defined st); [| exact Hall].
  rewrite Forall_forall in *. intros x Hx.
  apply list_elem_of_In, filter_In in Hx as [Hx _].
  apply Hall. now apply list_elem_of_In.
Qed.

(** Every action keeps a property of the saved list that adding a
    "wss://" URL and removing a URL keep. *)
Lemma settings_invariant (P : list string -> Prop) :
  (forall url st, wss url -> P (getSavedRelays st) -> P (getSavedRelays (addRelay url st))) ->
  (forall url st, P (getSavedRelays st) -> P (getSavedRelays (removeRelay url st))) ->
  forall actions ui,
    P (getSavedRelays (Settings.module ui)) ->
    P (getSavedRelays (Settings.module (Settings.act_all actions ui))).
Proof.
  intros Hadd Hremove actions. unfold Settings.act_all.
  induction actions as [|a rest IH]; intros ui Hui; [exact Hui |].
  simpl. apply IH. destruct a as [text | | url]; simpl.
  - exact Hui.
  - unfold Settings.handleAddRelay.
    destruct (String.eqb (Settings.newRelay ui) ""); simpl; [exact Hui |].
    destruct (String.prefix "wss://" (Settings.newRelay ui)) eqn:Hwss; simpl;
      [| exact Hui].
    now apply Hadd.
  - now apply Hremove.
Qed.

(** X11. Whatever the user types and clicks on the relay settings, the
    list the page shows is the saved list.  That list keeps two
    properties if it starts with them: no relay is listed twice, and every
    relay URL begins with "wss://" (anything else typed into the field is
    ignored by "Add"). *)
Theorem settings_keep_relay_list_tidy (actions : list Settings.Action) (rst : State) :
  let ui := Settings.act_all actions (Settings.mount rst) in
  Settings.relays ui = getSavedRelays (Settings.module ui) /\
  (NoDup (getSavedRelays rst) -> NoDup (Settings.relays ui)) /\
  (Forall wss (getSavedRelays rst) -> Forall wss (Settings.relays ui)).
Proof.
  cbv zeta.
  assert (Hview : forall actions ui,
            Settings.relays ui = getSavedRelays (Settings.module ui) ->
            Settings.relays (Settings.act_all actions ui)
            = getSavedRelays (Settings.module (Settings.act_all actions ui))).
  { clear actions. intros actions. unfold Settings.act_all.
    induction actions as [|a rest IH]; intros ui Hui; [exact Hui |].
    simpl. apply IH. destruct a as [text | | url]; simpl.
    - exact Hui.
    - unfold Settings.handleAddRelay.
      now destruct (String.eqb (Settings.newRelay ui) ""
                    || negb (String.prefix "wss://" (Settings.newRelay ui))).
    - reflexivity. }
  rewrite (Hview actions (Settings.mount rst) eq_refl).
  split; [reflexivity |]. split.
  - intros Hnd.
    apply (settings_invariant (fun l => NoDup l)); [| | exact Hnd].
    + intros url st _. apply saved_NoDup_addRelay.
    + apply saved_NoDup_removeRelay.
  - intros Hall.
    apply (settings_invariant (Forall wss)); [| | exact Hall].
    + apply saved_wss_addRelay.
    + apply saved_wss_removeRelay.
Qed.

Lemma settings_keep_relay_list_tidy_witness :
  let actions := [ Settings.Type_ "wss://relay.test"; Settings.ClickAdd;
                   Settings.Type_ "http://relay.example"; Settings.ClickAdd;
                   Settings.Type_ "wss://relay.test"; Settings.ClickAdd;
                   Settings.ClickRemove "wss://nos.lol" ] in
  let ui := Settings.act_all actions (Settings.mount (initial true None)) in
  Settings.relays ui
  = [ "wss://relay.damus.io"; "wss://relay.nostr.band"; "wss://relay.snort.social";
      "wss://relay.test" ] /\
  Settings.relays ui = getSavedRelays (Settings.module ui) /\
  NoDup (Settings.relays ui) /\
  Forall wss (Settings.relays ui).
Proof.
  intros actions ui. split; [vm_compute; reflexivity |].
  destruct (settings_keep_relay_list_tidy actions (initial true None))
    as (Hview & Hnd & Hwss).
  split; [exact Hview |]. split.
  - apply Hnd. apply (bool_decide_unpack _). vm_compute. exact I.
  - apply Hwss. repeat constructor.
Defined.

End SettingsFacts.

(** ** keys.ts: the stored key *)

(** X12. In the browser a saved private key is read back as it was saved
    and counts as present.  After [clearPrivateKey] (logout) there is no
    key: [hasPrivateKey] is false, the current public key is [null], and
    no note can be created any more ("No private key available"). *)
Theorem savePrivateKey_then_clear (getPublicKey : Keys.Derivation)
    (finalizeEvent : Events.Signer) (privateKeyHex : string) (ks : Keys.KeyStore)
    (now_ms : Z) (content : string) (tags : list (list string)) :
  Keys.ks_window_defined ks = true ->
  let saved := Keys.savePrivateKey privateKeyHex ks in
  let cleared := Keys.clearPrivateKey saved in
  Keys.getPrivateKey saved = Some privateKeyHex /\
  Keys.hasPrivateKey saved = true /\
  Keys.getPrivateKey cleared = None /\
  Keys.hasPrivateKey cleared = false /\
  Keys.getCurrentUserPublicKey getPublicKey cleared = Fulfilled None /\
  Events.createNoteEvent finalizeEvent cleared now_ms content tags
    = Rejected "No private key available".
Proof.
  intros Hw. cbv zeta. destruct ks as [w stored]. simpl in Hw. subst w.
  unfold Keys.savePrivateKey, Keys.clearPrivateKey, Keys.hasPrivateKey,
    Keys.getCurrentUserPublicKey, Events.createNoteEvent, Keys.getPrivateKey.
  cbn. split; [reflexivity |]. split; [reflexivity |]. split; [reflexivity |].
  split; [reflexivity |]. split; reflexivity.
Qed.

Lemma savePrivateKey_then_clear_witness :
  let ks := Keys.mkKeyStore true None in
  let key := "3bf0c63fcb93463407af97a5e5ee64fa883d107ef9e558472c4eb9aaaefa459d" in
  Keys.getPrivateKey (Keys.savePrivateKey key ks) = Some key /\
  Keys.hasPrivateKey (Keys.clearPrivateKey (Keys.savePrivateKey key ks)) = false /\
  Events.createNoteEvent Events.strict_signer
    (Keys.clearPrivateKey (Keys.savePrivateKey key ks)) 1700000000000 "hello" []
    = Rejected "No private key available".
Proof.
  intros ks key.
  destruct (savePrivateKey_then_clear (fun _ => Fulfilled "pk") Events.strict_signer key ks
              1700000000000 "hello" [] eq_refl)
    as (Hget & _ & _ & Hhas & _ & Hnote).
  exact (conj Hget (conj Hhas Hnote)).
Defined.

(** X13. [checkAuth] reports "logged in" without a public key in exactly
    one situation: the stored key is the empty string, which
    [hasPrivateKey] counts as a key and [getCurrentUserPublicKey] does
    not.  It throws in exactly one situation: a non-empty stored key that
    cannot be decoded or from which no public key can be derived. *)
Theorem checkAuth_edge_cases (getPublicKey : Keys.Derivation) (ks : Keys.KeyStore) :
  ((exists user, Hooks.checkAuth getPublicKey ks = Fulfilled user /\
                 Hooks.isLoggedIn user = true /\ Hooks.publicKey user = None)
   <-> Keys.getPrivateKey ks = Some "") /\
  ((exists reason, Hooks.checkAuth getPublicKey ks = Rejected reason)
   <-> exists key, Keys.getPrivateKey ks = Some key /\ key <> "" /\
                   Keys.getNostrPublicKey getPublicKey key
                   = Rejected "Invalid private key format") /\
  (Keys.getPrivateKey ks = None ->
   Hooks.checkAuth getPublicKey ks = Fulfilled (Hooks.mkUser false None false)).
Proof.
  unfold Hooks.checkAuth, Keys.getCurrentUserPublicKey, Keys.hasPrivateKey.
  assert (Hmsg : forall key reason,
            Keys.getNostrPublicKey getPublicKey key = Rejected reason ->
            reason = "Invalid private key format").
  { intros key reason. unfold Keys.getNostrPublicKey.
    destruct (Keys.hexToBytes key) as [bytes|]; [| congruence].
    destruct (getPublicKey bytes); congruence. }
  destruct (Keys.getPrivateKey ks) as [key|]; [| split; [| split]].
  - destruct (String.eqb key "") eqn:Hempty.
    + apply String.eqb_eq in Hempty. subst key. split; [| split].
      * split; [reflexivity |]. intros _. eexists. now repeat split.
      * split; [intros [reason H]; discriminate |].
        intros (key & [= <-] & Hne & _). congruence.
      * discriminate.
    + apply String.eqb_neq in Hempty.
      destruct (Keys.getNostrPublicKey getPublicKey key) as [pk|reason] eqn:Hpk;
        (split; [| split]); try discriminate.
      * split; [| congruence]. intros (user & [= <-] & _ & Hnone). discriminate.
      * split; [intros [reason H]; discriminate |].
        intros (key' & [= <-] & _ & Hrej). congruence.
      * split; [| congruence]. intros (user & H & _). discriminate.
      * split; [| intros _; now eexists]. intros _. exists key.
        rewrite (Hmsg key reason Hpk) in Hpk. now repeat split.
  - split; [| discriminate]. intros (user & [= <-] & Hlogged & _). discriminate.
  - split; [intros [reason H]; discriminate |]. intros (key & H & _). discriminate.
  - reflexivity.
Qed.

(** ** Login form *)

Lemma getNostrPublicKey_fulfilled (getPublicKey : Keys.Derivation) (key pk : string) :
  Keys.getNostrPublicKey getPublicKey key = Fulfilled pk <->
  exists bytes, Keys.hexToBytes key = Fulfilled bytes /\ getPublicKey bytes = Fulfilled pk.
Proof.
  unfold Keys.getNostrPublicKey. split.
  - destruct (Keys.hexToBytes key) as [bytes|]; [| discriminate].
    destruct (getPublicKey bytes) as [pk'|] eqn:Hpk; [| discriminate].
    intros [= <-]. now exists bytes.
  - intros (bytes & -> & ->). reflexivity.
Qed.

(** X14. The login form stores a key only after every check has passed:
    whenever [handleExistingKeyLogin] changes the key store, the key it
    saved consists of exactly 64 hexadecimal digits, decodes to 32 bytes,
    and a public key could be derived from it.  In every other case an
    error message is set and the key store and the success message are
    left as they were. *)
Theorem login_stores_only_checked_keys (trim : string -> string) (slice : Slice)
    (nip19 : Keys.Nip19)
    (getPublicKey : Keys.Derivation) (privateKey : string)
    (ks : Keys.KeyStore) (ui : Login.LoginState) :
  let ks' :=
    fst (Login.handleExistingKeyLogin trim slice nip19 getPublicKey privateKey ks ui) in
  let ui' :=
    snd (Login.handleExistingKeyLogin trim slice nip19 getPublicKey privateKey ks ui) in
  (Login.error ui' <> None /\ ks' = ks /\ Login.success ui' = Login.success ui) \/
  (Login.error ui' = None /\
   exists key bytes pubkey,
     ks' = Keys.savePrivateKey key ks /\
     Login.hex64 key = true /\
     Keys.hexToBytes key = Fulfilled bytes /\
     List.length bytes = 32%nat /\
     getPublicKey bytes = Fulfilled pubkey /\
     Login.success ui'
     = Some (Login.success_message slice (Keys.hexToNpub nip19 pubkey))).
Proof.
  cbv zeta. unfold Login.handleExistingKeyLogin.
  destruct (if String.prefix "nsec" (trim privateKey)
            then Keys.nsecToHex nip19 (trim privateKey)
            else Fulfilled (trim privateKey)) as [keyToSave | reason].
  - destruct (Login.hex64 keyToSave) eqn:Hhex; simpl.
    + destruct (Keys.getNostrPublicKey getPublicKey keyToSave) as [pubkey | reason] eqn:Hpk;
        simpl.
      * right. split; [reflexivity |].
        apply getNostrPublicKey_fulfilled in Hpk as (bytes & Hbytes & Hderive).
        destruct (hex64_decodes keyToSave Hhex) as (bytes' & Hbytes' & _ & Hlen).
        assert (bytes' = bytes) by congruence. subst bytes'.
        exists keyToSave, bytes, pubkey. now repeat split.
      * left. now repeat split.
    + left. now repeat split.
  - left. now repeat split.
Qed.

(** X15. Logging in with either display form of a key in canonical form
    stores that key: the 64 hexadecimal digits themselves, or the [nsec]
    text produced by [hexToNsec], provided the codec inverts its
    encoders, its [nsec] texts begin with "nsec", the text has no
    surrounding white space and a public key can be derived. *)
Theorem login_accepts_both_display_forms (trim : string -> string) (slice : Slice)
    (nip19 : Keys.Nip19)
    (getPublicKey : Keys.Derivation) (key nsec pubkey : string) (bytes : list Byte.byte)
    (ks : Keys.KeyStore) (ui : Login.LoginState) :
  Keys.Nip19_laws nip19 Keys.valid_key ->
  Keys.valid_key key ->
  Keys.hexToBytes key = Fulfilled bytes ->
  getPublicKey bytes = Fulfilled pubkey ->
  Keys.hexToNsec nip19 key = Fulfilled nsec ->
  String.prefix "nsec" nsec = true ->
  trim key = key ->
  trim nsec = nsec ->
  fst (Login.handleExistingKeyLogin trim slice nip19 getPublicKey key ks ui)
    = Keys.savePrivateKey key ks /\
  fst (Login.handleExistingKeyLogin trim slice nip19 getPublicKey nsec ks ui)
    = Keys.savePrivateKey key ks /\
  Login.error (snd (Login.handleExistingKeyLogin trim slice nip19 getPublicKey nsec ks ui))
    = None.
Proof.
  intros [_ Hlaw] Hvalid Hbytes Hderive Hnsec Hprefix Htrim Htrim'.
  pose proof (valid_key_hex64 key Hvalid) as Hhex.
  assert (Hpk : Keys.getNostrPublicKey getPublicKey key = Fulfilled pubkey)
    by (apply getNostrPublicKey_fulfilled; now exists bytes).
  assert (Hplain : String.prefix "nsec" key = false).
  { destruct Hvalid as [Hlen Hall]. destruct key as [|c rest]; [reflexivity |].
    simpl in Hall. apply andb_true_iff in Hall as [Hc _].
    change (String.prefix "nsec" (String c rest))
      with (if ascii_dec "n" c then String.prefix "sec" rest else false).
    destruct (ascii_dec "n" c) as [<- | Hne]; [| reflexivity].
    vm_compute in Hc. discriminate Hc. }
  assert (Hback : Keys.nsecToHex nip19 nsec = Fulfilled key).
  { destruct Hvalid as [Hlen Hall].
    destruct (hexToBytes_lower_hex 32 key Hlen Hall) as (bytes' & Hbytes' & Htext & Hn).
    assert (bytes' = bytes) by congruence. subst bytes'.
    unfold Keys.hexToNsec in Hnsec. rewrite Hbytes in Hnsec. injection Hnsec as <-.
    unfold Keys.nsecToHex. rewrite (Hlaw bytes Hn). simpl. now rewrite Htext. }
  unfold Login.handleExistingKeyLogin.
  rewrite Htrim, Htrim', Hplain, Hprefix, Hback, Hhex, Hpk. simpl. now repeat split.
Qed.

Lemma login_accepts_both_display_forms_witness :
  let key := "3bf0c63fcb93463407af97a5e5ee64fa883d107ef9e558472c4eb9aaaefa459d" in
  let nsec := String.append "nsec1" key in
  let ks := Keys.mkKeyStore true None in
  let ui := Login.mkLogin None None in
  let derive : Keys.Derivation := fun bytes => Fulfilled (Keys.bytesToHex bytes) in
  Keys.getPrivateKey
    (fst (Login.handleExistingKeyLogin (fun s => s) ascii_slice Keys.hex_nip19 derive
            key ks ui))
    = Some key /\
  Keys.getPrivateKey
    (fst (Login.handleExistingKeyLogin (fun s => s) ascii_slice Keys.hex_nip19 derive
            nsec ks ui))
    = Some key.
Proof.
  intros key nsec ks ui derive.
  assert (Hvalid : Keys.valid_key key) by (split; vm_compute; reflexivity).
  destruct (hexToBytes_lower_hex 32 key (proj1 Hvalid) (proj2 Hvalid))
    as (bytes & Hbytes & Htext & _).
  assert (Hnsec : Keys.hexToNsec Keys.hex_nip19 key = Fulfilled nsec).
  { unfold Keys.hexToNsec. rewrite Hbytes. simpl. now rewrite Htext. }
  destruct (login_accepts_both_display_forms (fun s => s) ascii_slice Keys.hex_nip19 derive
              key nsec (Keys.bytesToHex bytes) bytes ks ui
              hex_nip19_laws Hvalid Hbytes eq_refl Hnsec eq_refl eq_refl eq_refl)
    as (Hhex & Hvia_nsec & _).
  rewrite Hhex, Hvia_nsec. split; reflexivity.
Defined.

(** X16. For any key of 64 hexadecimal digits, in either case,
    [hexToNsec] succeeds and [nsecToHex] of its result is the key with its
    digits in lower case: the pair restores the key up to the case of its
    digits. *)
Theorem nsec_round_trip_lower_case (nip19 : Keys.Nip19) (key : string) :
  Keys.Nip19_laws nip19 Keys.valid_key ->
  Login.hex64 key = true ->
  exists nsec,
    Keys.hexToNsec nip19 key = Fulfilled nsec /\
    Keys.nsecToHex nip19 nsec = Fulfilled (lower_case_digits key).
Proof.
  intros [_ Hlaw] Hhex.
  destruct (hex64_decodes key Hhex) as (bytes & Hbytes & Htext & Hlen).
  exists (Keys.nsecEncode nip19 bytes). split.
  - unfold Keys.hexToNsec. now rewrite Hbytes.
  - unfold Keys.nsecToHex. rewrite (Hlaw bytes Hlen). simpl. now rewrite Htext.
Qed.

Lemma nsec_round_trip_lower_case_witness :
  let key := "3BF0C63FCB93463407AF97A5E5EE64FA883D107EF9E558472C4EB9AAAEFA459D" in
  exists nsec,
    Keys.hexToNsec Keys.hex_nip19 key = Fulfilled nsec /\
    Keys.nsecToHex Keys.hex_nip19 nsec
    = Fulfilled "3bf0c63fcb93463407af97a5e5ee64fa883d107ef9e558472c4eb9aaaefa459d".
Proof.
  intros key.
  apply (nsec_round_trip_lower_case Keys.hex_nip19 key hex_nip19_laws).
  vm_compute. reflexivity.
Defined.

(** ** events.ts: publishing wrappers and query helpers *)

(** X17. [createAndPublishNote] never rejects.  In particular the
    missing-key error of [createNoteEvent] does not reach its caller: the
    result is [null].  It returns an event only if [createNoteEvent]
    produced that event and the pool accepted the publish call. *)
Theorem createAndPublishNote_never_rejects (finalizeEvent : Events.Signer)
    (p : Events.SimplePool) (ks : Keys.KeyStore) (rst : Relays.State) (now_ms : Z)
    (content : string) (tags : list (list string)) (relayUrls : option (list string)) :
  let result := Events.createAndPublishNote finalizeEvent p ks rst now_ms content tags
                  relayUrls in
  is_fulfilled result = true /\
  (Events.createNoteEvent finalizeEvent ks now_ms content tags
     = Rejected "No private key available" ->
   result = Fulfilled None) /\
  (forall event, result = Fulfilled (Some event) ->
     Events.createNoteEvent finalizeEvent ks now_ms content tags = Fulfilled (Some event) /\
     is_fulfilled (Events.publish p (Events.relayUrls_or_saved rst relayUrls) event) = true).
Proof.
  cbv zeta. unfold Events.createAndPublishNote.
  destruct (Events.createNoteEvent finalizeEvent ks now_ms content tags)
    as [[event|] | reason].
  - unfold Events.publishEvent.
    destruct (Events.publish p (Events.relayUrls_or_saved rst relayUrls) event)
      as [outcomes | reason] eqn:Hpub; simpl.
    + split; [reflexivity |]. split; [discriminate |]. intros e [= <-].
      split; [reflexivity | now rewrite Hpub].
    + split; [reflexivity |]. split; [discriminate |]. discriminate.
  - split; [reflexivity |]. split; [discriminate |]. discriminate.
  - split; [reflexivity |]. split; [reflexivity |]. discriminate.
Qed.

(** X18. Rejections by individual relays do not fail a publication: as
    soon as the event is signed and the pool returns its promises,
    [createAndPublishNote] and [updateUserMetadata] resolve with the
    signed event, whatever the promises settle to, even when every relay
    rejected it. *)
Theorem publication_ignores_relay_rejections {Metadata : Type}
    (JSON_stringify : Metadata -> string) (finalizeEvent : Events.Signer)
    (p : Events.SimplePool) (ks : Keys.KeyStore) (rst : Relays.State) (now_ms : Z)
    (content : string) (tags : list (list string)) (metadata : Metadata)
    (relayUrls : option (list string))
    (privateKeyHex : string) (bytes : list Byte.byte) (note update : Event) :
  Events.usable_key (Keys.getPrivateKey ks) = Some privateKeyHex ->
  Keys.hexToBytes privateKeyHex = Fulfilled bytes ->
  finalizeEvent (mkTemplate TEXT_NOTE_KIND (now_ms / 1000) tags content) bytes
    = Fulfilled note ->
  finalizeEvent (mkTemplate METADATA_KIND (now_ms / 1000) [] (JSON_stringify metadata)) bytes
    = Fulfilled update ->
  (forall event, exists outcomes,
     Events.publish p (Events.relayUrls_or_saved rst relayUrls) event = Fulfilled outcomes) ->
  Events.createAndPublishNote finalizeEvent p ks rst now_ms content tags relayUrls
    = Fulfilled (Some note) /\
  Events.updateUserMetadata JSON_stringify finalizeEvent p ks rst now_ms metadata relayUrls
    = Fulfilled (Some update).
Proof.
  intros Hkey Hbytes Hnote Hupdate Hpool.
  unfold Events.createAndPublishNote, Events.createNoteEvent, Events.updateUserMetadata,
    Events.sign_or_null, Events.now_seconds, Events.publishEvent.
  rewrite Hkey, Hbytes, Hnote, Hupdate.
  destruct (Hpool note) as [outcomes ->]. destruct (Hpool update) as [outcomes' ->].
  now split.
Qed.

Lemma publication_ignores_relay_rejections_witness :
  let key := "3bf0c63fcb93463407af97a5e5ee64fa883d107ef9e558472c4eb9aaaefa459d" in
  let ks := Keys.mkKeyStore true (Some key) in
  let rst := Relays.initial true None in
  let all_rejected := map (fun _ : string => @Rejected string "rejected") Relays.DEFAULT_RELAYS in
  let p := Events.publishing_pool all_rejected in
  let stringify := fun fields : list (string * string) => "{}" in
  (exists results,
     Events.publishEvent p (mkEvent "id" "pubkey" 1700000000 TEXT_NOTE_KIND [] "hello" "sig")
       Relays.DEFAULT_RELAYS = Fulfilled results /\
     results !! "wss://nos.lol" = Some false) /\
  Events.createAndPublishNote Events.strict_signer p ks rst 1700000000000 "hello" [] None
    = Fulfilled (Some (mkEvent "id" "pubkey" 1700000000 TEXT_NOTE_KIND [] "hello" "sig")) /\
  Events.updateUserMetadata stringify Events.strict_signer p ks rst 1700000000000
    [("name", "alice")] None
    = Fulfilled (Some (mkEvent "id" "pubkey" 1700000000 METADATA_KIND [] "{}" "sig")).
Proof.
  intros key ks rst all_rejected p stringify.
  assert (Hvalid : Keys.valid_key key) by (split; vm_compute; reflexivity).
  destruct (hexToBytes_lower_hex 32 key (proj1 Hvalid) (proj2 Hvalid))
    as (bytes & Hbytes & _ & Hlen).
  assert (Hsign : forall template,
            Events.strict_signer template bytes
            = Fulfilled (mkEvent "id" "pubkey" (t_created_at template) (t_kind template)
                           (t_tags template) (t_content template) "sig"))
    by (intros template; unfold Events.strict_signer; now rewrite Hlen).
  split.
  - eexists. split; [reflexivity |]. vm_compute. reflexivity.
  - apply (publication_ignores_relay_rejections stringify Events.strict_signer p ks rst
             1700000000000 "hello" [] [("name", "alice")] None key bytes).
    + reflexivity.
    + exact Hbytes.
    + apply Hsign.
    + apply Hsign.
    + intros event. now exists all_rejected.
Defined.

(** A signer is faithful when the event it returns carries the fields of
    the template it was given, as [finalizeEvent] does. *)
Lemma strict_signer_faithful (template : EventTemplate) (bytes : list Byte.byte)
    (event : Event) :
  Events.strict_signer template bytes = Fulfilled event ->
  kind event = t_kind template /\ created_at event = t_created_at template /\
  tags event = t_tags template /\ content event = t_content template.
Proof.
  unfold Events.strict_signer. destruct (Nat.eqb _ _); [| discriminate].
  intros [= <-]. now repeat split.
Qed.

(** X19. With a signer that copies the template into the event, every
    event [createNoteEvent] returns is a text note (kind 1) with the given
    content and tags, and every event [createReactionEvent] returns is a
    reaction (kind 7) whose tags name first the target event, then its
    author.  Both are stamped with the current time in whole seconds,
    rounded down. *)
Theorem constructed_events_fields (finalizeEvent : Events.Signer) (ks : Keys.KeyStore)
    (now_ms : Z) (text : string) (given_tags : list (list string))
    (eventId pubkey reaction : string) :
  (forall template bytes event,
     finalizeEvent template bytes = Fulfilled event ->
     kind event = t_kind template /\ created_at event = t_created_at template /\
     tags event = t_tags template /\ content event = t_content template) ->
  (forall note,
     Events.createNoteEvent finalizeEvent ks now_ms text given_tags = Fulfilled (Some note) ->
     kind note = 1 /\ tags note = given_tags /\ content note = text /\
     1000 * created_at note <= now_ms < 1000 * created_at note + 1000) /\
  (forall like,
     Events.createReactionEvent finalizeEvent ks now_ms eventId pubkey reaction
       = Fulfilled (Some like) ->
     kind like = 7 /\ tags like = [["e"; eventId]; ["p"; pubkey]] /\
     content like = reaction /\
     1000 * created_at like <= now_ms < 1000 * created_at like + 1000).
Proof.
  intros Hfaithful.
  assert (Htime : 1000 * (now_ms / 1000) <= now_ms < 1000 * (now_ms / 1000) + 1000).
  { pose proof (Z.mod_pos_bound now_ms 1000 ltac:(lia)).
    pose proof (Z.div_mod now_ms 1000 ltac:(lia)). lia. }
  assert (Hsigned : forall template event,
            (exists key, Fulfilled (Events.sign_or_null finalizeEvent key template)
                         = Fulfilled (Some event)) ->
            kind event = t_kind template /\ created_at event = t_created_at template /\
            tags event = t_tags template /\ content event = t_content template).
  { intros template event [key Hsign]. unfold Events.sign_or_null in Hsign.
    destruct (Keys.hexToBytes key) as [bytes|]; [| discriminate].
    destruct (finalizeEvent template bytes) as [e|] eqn:He; [| discriminate].
    injection Hsign as <-. now apply (Hfaithful template bytes). }
  unfold Events.createNoteEvent, Events.createReactionEvent, Events.now_seconds.
  destruct (Events.usable_key (Keys.getPrivateKey ks)) as [key|];
    [| split; intros e H; discriminate].
  split; intros e He.
  - destruct (Hsigned _ e (ex_intro _ key He)) as (Hk & Ht & Hg & Hc). simpl in *.
    rewrite Hk, Hg, Hc, Ht. now repeat split.
  - destruct (Hsigned _ e (ex_intro _ key He)) as (Hk & Ht & Hg & Hc). simpl in *.
    rewrite Hk, Hg, Hc, Ht. now repeat split.
Qed.

Lemma constructed_events_fields_witness :
  let key := "3bf0c63fcb93463407af97a5e5ee64fa883d107ef9e558472c4eb9aaaefa459d" in
  let ks := Keys.mkKeyStore true (Some key) in
  exists like,
    Events.createReactionEvent Events.strict_signer ks 1700000000999 "target" "author" "+"
      = Fulfilled (Some like) /\
    kind like = 7 /\ tags like = [["e"; "target"]; ["p"; "author"]] /\
    content like = "+" /\ created_at like = 1700000000.
Proof.
  intros key ks.
  assert (Hvalid : Keys.valid_key key) by (split; vm_compute; reflexivity).
  destruct (hexToBytes_lower_hex 32 key (proj1 Hvalid) (proj2 Hvalid))
    as (bytes & Hbytes & _ & Hlen).
  assert (Hlike : Events.createReactionEvent Events.strict_signer ks 1700000000999
                    "target" "author" "+"
                  = Fulfilled (Some (mkEvent "id" "pubkey" 1700000000 REACTION_KIND
                                       [["e"; "target"]; ["p"; "author"]] "+" "sig"))).
  { unfold Events.createReactionEvent, Events.sign_or_null. cbn [Events.usable_key
      Keys.getPrivateKey Keys.ks_window_defined Keys.ks_private_key ks].
    change (String.eqb key "") with false. cbv iota.
    rewrite Hbytes. unfold Events.strict_signer. now rewrite Hlen. }
  destruct (constructed_events_fields Events.strict_signer ks 1700000000999 "hello" []
              "target" "author" "+" strict_signer_faithful) as [_ Hreaction].
  destruct (Hreaction _ Hlike) as (Hk & Ht & Hc & _).
  eexists. split; [exact Hlike |]. split; [exact Hk |]. split; [exact Ht |].
  split; [exact Hc | reflexivity].
Defined.

(** X20. The query helpers never reject.  When the pool's query fails,
    [fetchRecentNotes] and [fetchUserNotes] yield the empty list and
    [fetchEventById] and [fetchUserMetadata] yield [null]; [fetchEventById]
    also yields [null] for an empty answer and otherwise the first event
    of the answer. *)
Theorem query_helpers_never_reject (p : Events.SimplePool) (rst : Relays.State)
    (limit since : Z) (pubkey eventId : string) (relayUrls : option (list string)) :
  is_fulfilled (Events.fetchRecentNotes p rst limit since relayUrls) = true /\
  is_fulfilled (Events.fetchUserNotes p rst pubkey limit relayUrls) = true /\
  is_fulfilled (Events.fetchEventById p rst eventId relayUrls) = true /\
  is_fulfilled (Events.fetchUserMetadata p rst pubkey relayUrls) = true /\
  ((forall urls filter timeout, is_fulfilled (Events.querySync p urls filter timeout) = false) ->
   Events.fetchRecentNotes p rst limit since relayUrls = Fulfilled [] /\
   Events.fetchUserNotes p rst pubkey limit relayUrls = Fulfilled [] /\
   Events.fetchEventById p rst eventId relayUrls = Fulfilled None /\
   Events.fetchUserMetadata p rst pubkey relayUrls = Fulfilled None) /\
  (forall answer,
     Events.querySync p (Events.relayUrls_or_saved rst relayUrls)
       (mkFilter (Some [eventId]) None None None None None) Events.DEFAULT_TIMEOUT
       = Fulfilled answer ->
     Events.fetchEventById p rst eventId relayUrls = Fulfilled (head answer)).
Proof.
  unfold Events.fetchRecentNotes, Events.fetchUserNotes, Events.fetchEventById,
    Events.fetchUserMetadata, Events.fetchEvents.
  split; [now destruct (Events.querySync p _ _ _) |].
  split; [now destruct (Events.querySync p _ _ _) |].
  split; [now destruct (Events.querySync p _ _ _) |].
  split; [now destruct (Events.querySync p _ _ _) |].
  split.
  - intros Hdown.
    assert (Hrej : forall urls filter timeout,
              exists reason, Events.querySync p urls filter timeout = Rejected reason).
    { intros urls filter timeout. specialize (Hdown urls filter timeout).
      destruct (Events.querySync p urls filter timeout); [discriminate | now eexists]. }
    repeat split;
      match goal with |- context [Events.querySync p ?u ?f ?t] =>
        destruct (Hrej u f t) as [reason ->] end; reflexivity.
  - intros answer ->. reflexivity.
Qed.

Lemma query_helpers_never_reject_witness :
  let down := Events.answering_pool (Rejected "all relays unreachable") in
  let rst := Relays.initial true None in
  Events.fetchRecentNotes down rst 20 1700000000 None = Fulfilled [] /\
  Events.fetchUserNotes down rst "pk" 20 None = Fulfilled [] /\
  Events.fetchEventById down rst "id" None = Fulfilled None /\
  Events.fetchUserMetadata down rst "pk" None = Fulfilled None.
Proof.
  intros down rst.
  destruct (query_helpers_never_reject down rst 20 1700000000 "pk" "id" None)
    as (_ & _ & _ & _ & Hdown & _).
  apply Hdown. reflexivity.
Defined.

(** ** hooks.ts: the lists of [useNostrEvents] *)

Lemma some_id_false (i : string) (l : list Event) :
  Hooks.some_id i l = false <-> i ∉ map id l.
Proof.
  unfold Hooks.some_id. induction l as [|e l IH]; simpl.
  - split; [intros _ H; inversion H | reflexivity].
  - rewrite orb_false_iff, IH, not_elem_of_cons, String.eqb_neq.
    split; intros [H1 H2]; split; congruence.
Qed.

Lemma keep_first_NoDup (l : list Event) (seen : list string) :
  NoDup (map id l) ->
  (forall e, e ∈ l -> existsb (String.eqb (id e)) seen = false) ->
  keep_first seen l = l.
Proof.
  revert seen. induction l as [|e rest IH]; intros seen Hnd Hseen; [reflexivity |].
  simpl in *. apply NoDup_cons in Hnd as [Hout Hnd].
  rewrite (Hseen e) by constructor. f_equal.
  apply IH; [exact Hnd |]. intros x Hx. simpl.
  rewrite (Hseen x) by (now constructor).
  rewrite orb_false_r. apply String.eqb_neq. intros Heq.
  apply Hout. rewrite <- Heq. apply list_elem_of_fmap. now exists x.
Qed.

(** X21. [applyPendingEvents] does nothing when there are no pending
    events, and applying it twice is the same as applying it once; after
    it there are no pending events and the "new events" indicator is off,
    provided there was something pending. *)
Theorem applyPendingEvents_idempotent (st : Hooks.HookState) :
  (Hooks.pendingEvents st = [] -> Hooks.applyPendingEvents st = st) /\
  Hooks.applyPendingEvents (Hooks.applyPendingEvents st) = Hooks.applyPendingEvents st /\
  (Hooks.pendingEvents st <> [] ->
   Hooks.pendingEvents (Hooks.applyPendingEvents st) = [] /\
   Hooks.hasNewEvents (Hooks.applyPendingEvents st) = false).
Proof.
  assert (Hnone : forall s, Hooks.pendingEvents s = [] -> Hooks.applyPendingEvents s = s)
    by (intros s Hs; unfold Hooks.applyPendingEvents; now rewrite Hs).
  destruct (Hooks.pendingEvents st) as [|e rest] eqn:Hp.
  - split; [intros _; now apply Hnone |]. split; [| congruence].
    now rewrite !(Hnone st Hp).
  - assert (Hsome : Hooks.applyPendingEvents st
                    = Hooks.mkHook (Hooks.merge_pending (e :: rest) (Hooks.events st))
                                   [] false (Hooks.isLoading st))
      by (unfold Hooks.applyPendingEvents; now rewrite Hp).
    rewrite Hsome. split; [discriminate |]. split; [now apply Hnone |].
    intros _. now split.
Qed.

(** X22. A subscription callback whose closure has seen the current lists
    keeps them tidy.  A known id changes nothing.  A new event goes to
    exactly one list: with [autoUpdate] it is inserted into the shown
    events, the pending events and the "new events" indicator staying as
    they are; without it, it is inserted into the pending events, the
    shown events staying as they are and the indicator being raised.  No
    id occurs twice afterwards and both lists are in descending order;
    the loading flag is not touched. *)
Theorem subscription_event_keeps_tidy (autoUpdate : bool) (event : Event)
    (relay : string) (st : Hooks.HookState) :
  tidy st ->
  let st' := Hooks.on_subscription_event autoUpdate
               (Hooks.events st) (Hooks.pendingEvents st) event relay st in
  tidy st' /\
  Hooks.isLoading st' = Hooks.isLoading st /\
  (id event ∈ map id (Hooks.events st ++ Hooks.pendingEvents st) -> st' = st) /\
  (id event ∉ map id (Hooks.events st ++ Hooks.pendingEvents st) ->
   (autoUpdate = true ->
    Permutation (Hooks.events st') (event :: Hooks.events st) /\
    Hooks.pendingEvents st' = Hooks.pendingEvents st /\
    Hooks.hasNewEvents st' = Hooks.hasNewEvents st) /\
   (autoUpdate = false ->
    Hooks.events st' = Hooks.events st /\
    Permutation (Hooks.pendingEvents st') (event :: Hooks.pendingEvents st) /\
    Hooks.hasNewEvents st' = true)).
Proof.
  intros (Hnd & Hse & Hsp). cbv zeta.
  destruct (Hooks.some_id (id event) (Hooks.events st ++ Hooks.pendingEvents st))
    eqn:Hseen.
  - rewrite (on_subscription_event_duplicate _ _ _ _ _ _ Hseen).
    split; [now repeat split |]. split; [reflexivity |]. split; [reflexivity |].
    intros Hout. apply some_id_false in Hout. congruence.
  - destruct (on_subscription_event_fresh autoUpdate _ _ event relay st Hseen)
      as [Hperm Hsorted].
    destruct (Hsorted Hse Hsp) as [Hse' Hsp'].
    assert (Hfresh : Hooks.on_subscription_event autoUpdate
                       (Hooks.events st) (Hooks.pendingEvents st) event relay st
                     = if autoUpdate
                       then Hooks.mkHook
                              (Array_sort by_created_at_desc (event :: Hooks.events st))
                              (Hooks.pendingEvents st) (Hooks.hasNewEvents st)
                              (Hooks.isLoading st)
                       else Hooks.mkHook (Hooks.events st)
                              (Array_sort by_created_at_desc
                                 (event :: Hooks.pendingEvents st))
                              true (Hooks.isLoading st)).
    { unfold Hooks.on_subscription_event. unfold Hooks.some_id in Hseen.
      rewrite existsb_app in Hseen. unfold Hooks.some_id. now rewrite Hseen. }
    apply some_id_false in Hseen.
    split; [| split; [| split; [contradiction |]]].
    + split; [| now split].
      rewrite (Permutation_map id Hperm). simpl. now apply NoDup_cons.
    + rewrite Hfresh. now destruct autoUpdate.
    + intros _. rewrite Hfresh.
      split; intros ->; cbn [Hooks.events Hooks.pendingEvents Hooks.hasNewEvents].
      * split; [apply Array_sort_perm | now split].
      * split; [reflexivity |]. split; [apply Array_sort_perm | reflexivity].
Qed.

Lemma subscription_event_keeps_tidy_witness :
  let e1 := mkEvent "a" "pk" 100 TEXT_NOTE_KIND [] "one" "sig" in
  let e2 := mkEvent "b" "pk" 200 TEXT_NOTE_KIND [] "two" "sig" in
  let e3 := mkEvent "c" "pk" 150 TEXT_NOTE_KIND [] "three" "sig" in
  let st := Hooks.mkHook [e2; e1] [] false false in
  Hooks.on_subscription_event false [e2; e1] [] e1 "unknown-relay" st = st /\
  Hooks.on_subscription_event false [e2; e1] [] e3 "unknown-relay" st
    = Hooks.mkHook [e2; e1] [e3] true false /\
  Hooks.on_subscription_event true [e2; e1] [] e3 "unknown-relay" st
    = Hooks.mkHook [e2; e3; e1] [] false false /\
  tidy (Hooks.on_subscription_event true [e2; e1] [] e3 "unknown-relay" st).
Proof.
  intros e1 e2 e3 st.
  assert (Htidy : tidy st).
  { split; [| split].
    - apply (bool_decide_unpack _). vm_compute. exact I.
    - repeat constructor; unfold newer_first; simpl; lia.
    - constructor. }
  destruct (subscription_event_keeps_tidy false e1 "unknown-relay" st Htidy)
    as (_ & _ & Hknown & _).
  destruct (subscription_event_keeps_tidy true e3 "unknown-relay" st Htidy)
    as (Htidy' & _ & _ & _).
  split; [apply Hknown; apply (bool_decide_unpack _); vm_compute; exact I |].
  split; [reflexivity |]. split; [reflexivity | exact Htidy'].
Defined.

(** X23. On tidy lists [applyPendingEvents] loses nothing and shows
    everything: the shown events afterwards are a rearrangement of the
    shown and the pending events of before, no event is pending any more,
    and the lists are tidy again. *)
Theorem applyPendingEvents_keeps_tidy (st : Hooks.HookState) :
  tidy st ->
  tidy (Hooks.applyPendingEvents st) /\
  Permutation (Hooks.events (Hooks.applyPendingEvents st))
              (Hooks.events st ++ Hooks.pendingEvents st) /\
  Hooks.pendingEvents (Hooks.applyPendingEvents st) = [].
Proof.
  intros Htidy. pose proof Htidy as (Hnd & Hse & Hsp).
  destruct (Hooks.pendingEvents st) as [|e rest] eqn:Hp.
  - assert (Hsame : Hooks.applyPendingEvents st = st)
      by (unfold Hooks.applyPendingEvents; now rewrite Hp).
    rewrite Hsame, Hp, app_nil_r. split; [exact Htidy |]. now split.
  - assert (Hsome : Hooks.applyPendingEvents st
                    = Hooks.mkHook
                        (Array_sort by_created_at_desc (Hooks.events st ++ e :: rest))
                        [] false (Hooks.isLoading st)).
    { unfold Hooks.applyPendingEvents. rewrite Hp. cbn [List.length].
      change (0 <? Z.of_nat (S (List.length rest))) with true. cbv iota.
      unfold Hooks.merge_pending.
      rewrite uniqueEvents_keep_first, keep_first_NoDup; [reflexivity | exact Hnd |].
      reflexivity. }
    rewrite Hsome. cbn [Hooks.events Hooks.pendingEvents].
    assert (Hperm : Permutation
                      (Array_sort by_created_at_desc (Hooks.events st ++ e :: rest))
                      (Hooks.events st ++ e :: rest)) by apply Array_sort_perm.
    split; [| split; [exact Hperm | reflexivity]].
    split; [| split; [apply Array_sort_newer_first | constructor]].
    cbn [Hooks.events Hooks.pendingEvents]. rewrite app_nil_r.
    now rewrite (Permutation_map id Hperm).
Qed.

Lemma applyPendingEvents_keeps_tidy_witness :
  let e1 := mkEvent "a" "pk" 100 TEXT_NOTE_KIND [] "one" "sig" in
  let e2 := mkEvent "b" "pk" 200 TEXT_NOTE_KIND [] "two" "sig" in
  let e3 := mkEvent "c" "pk" 150 TEXT_NOTE_KIND [] "three" "sig" in
  let st := Hooks.mkHook [e2; e1] [e3] true false in
  Hooks.events (Hooks.applyPendingEvents st) = [e2; e3; e1] /\
  Hooks.pendingEvents (Hooks.applyPendingEvents st) = [] /\
  tidy (Hooks.applyPendingEvents st).
Proof.
  intros e1 e2 e3 st.
  assert (Htidy : tidy st).
  { split; [| split].
    - apply (bool_decide_unpack _). vm_compute. exact I.
    - repeat constructor; unfold newer_first; simpl; lia.
    - repeat constructor. }
  destruct (applyPendingEvents_keeps_tidy st Htidy) as (Htidy' & _ & Hnone).
  split; [reflexivity |]. split; [exact Hnone | exact Htidy'].
Defined.

(** X24. A disabled [fetchEventsData] changes nothing.  An enabled one
    replaces the shown events by what [fetchEvents] returned (the pool's
    answer, or nothing when the query failed), always in descending order
    of [created_at], drops all pending events, and clears the
    "new events" and "loading" flags; when no id occurs twice in the
    answer the lists are tidy afterwards. *)
Theorem fetchEventsData_resets (p : Events.SimplePool) (filter : Filter)
    (relayUrls : list string) (st : Hooks.HookState) :
  Hooks.fetchEventsData p filter relayUrls false st = st /\
  exists answer,
    Events.fetchEvents p filter relayUrls Events.DEFAULT_TIMEOUT = Fulfilled answer /\
    (forall found,
       Events.querySync p relayUrls filter Events.DEFAULT_TIMEOUT = Fulfilled found ->
       answer = found) /\
    ((exists reason,
        Events.querySync p relayUrls filter Events.DEFAULT_TIMEOUT = Rejected reason) ->
     answer = []) /\
    let st' := Hooks.fetchEventsData p filter relayUrls true st in
    StronglySorted newer_first (Hooks.events st') /\
    Permutation (Hooks.events st') answer /\
    Hooks.pendingEvents st' = [] /\
    Hooks.hasNewEvents st' = false /\
    Hooks.isLoading st' = false /\
    (NoDup (map id answer) -> tidy st').
Proof.
  split; [reflexivity |].
  unfold Hooks.fetchEventsData, Events.fetchEvents.
  destruct (Events.querySync p relayUrls filter Events.DEFAULT_TIMEOUT)
    as [found | reason]; simpl.
  - exists found. split; [reflexivity |]. split; [now intros ? [= <-] |].
    split; [intros [? H]; discriminate |].
    split; [apply Array_sort_newer_first |]. split; [apply Array_sort_perm |].
    split; [reflexivity |]. split; [reflexivity |]. split; [reflexivity |].
    intros Hnd. split; [| split; [apply Array_sort_newer_first | constructor]].
    simpl. rewrite app_nil_r.
    now rewrite (Permutation_map id (Array_sort_perm by_created_at_desc found)).
  - exists []. split; [reflexivity |]. split; [discriminate |].
    split; [reflexivity |].
    split; [constructor |]. split; [reflexivity |].
    split; [reflexivity |]. split; [reflexivity |]. split; [reflexivity |].
    intros _. repeat split; constructor.
Qed.

Lemma fetchEventsData_resets_witness :
  let e1 := mkEvent "a" "pk" 100 TEXT_NOTE_KIND [] "one" "sig" in
  let e2 := mkEvent "b" "pk" 200 TEXT_NOTE_KIND [] "two" "sig" in
  let e3 := mkEvent "c" "pk" 150 TEXT_NOTE_KIND [] "three" "sig" in
  let p := Events.answering_pool (Fulfilled [e1; e2]) in
  let filter := mkFilter None None (Some [TEXT_NOTE_KIND]) None None (Some 20) in
  let st := Hooks.mkHook [] [e3] true true in
  Hooks.fetchEventsData p filter ["wss://nos.lol"] true st
    = Hooks.mkHook [e2; e1] [] false false /\
  tidy (Hooks.fetchEventsData p filter ["wss://nos.lol"] true st).
Proof.
  intros e1 e2 e3 p filter st.
  destruct (fetchEventsData_resets p filter ["wss://nos.lol"] st)
    as (_ & answer & _ & Hfound & _ & _ & _ & _ & _ & _ & Htidy).
  split; [reflexivity |]. apply Htidy.
  rewrite (Hfound [e1; e2] eq_refl).
  apply (bool_decide_unpack _). vm_compute. exact I.
Defined.

(** ** hooks.ts: [useNostrProfile] *)

(** X25. [fetchProfile] always ends with the loading flag off.  Without a
    public key, or when disabled, profile and event stay as they were.
    Otherwise the event becomes the newest metadata event of the answer
    (the first-arrived among the newest) and the profile becomes: whatever
    [JSON.parse] makes of that event's content (an object, but just as
    well [null], a number, a string or an array, none of which is
    checked); the empty object when the content is not valid JSON; and,
    when no event was found, an object whose only field [name] is
    [pubkey.slice(0, 8)] followed by "...".  So after a fetch the profile
    is [null] exactly when the content of the event found is the JSON text
    of [null]. *)
Theorem fetchProfile_outcome (JSON_parse : string -> Settled Json) (slice : Slice)
    (p : Events.SimplePool) (rst : Relays.State) (pubkey : option string)
    (enabled : bool) (relayUrls : list string) (st : Hooks.ProfileState) :
  let st' := Hooks.fetchProfile JSON_parse slice p rst pubkey enabled relayUrls st in
  Hooks.profile_isLoading st' = false /\
  (Events.usable_key pubkey = None \/ enabled = false ->
   Hooks.profile st' = Hooks.profile st /\
   Hooks.profile_event st' = Hooks.profile_event st) /\
  (forall pk, Events.usable_key pubkey = Some pk -> enabled = true ->
     exists candidates,
       Events.fetchEvents p
         (mkFilter None (Some [pk]) (Some [METADATA_KIND]) None None (Some 1))
         relayUrls Events.DEFAULT_TIMEOUT = Fulfilled candidates /\
       first_newest candidates (Hooks.profile_event st') /\
       Hooks.profile st'
       = match Hooks.profile_event st' with
         | Some metadataEvent =>
             match JSON_parse (content metadataEvent) with
             | Fulfilled metadata => metadata
             | Rejected _ => JObject []
             end
         | None => JObject [ ("name", JString (slice pk 0 (Some 8) ++ "...")%string) ]
         end /\
       (Hooks.profile st' = JNull <->
        exists metadataEvent,
          Hooks.profile_event st' = Some metadataEvent /\
          JSON_parse (content metadataEvent) = Fulfilled JNull)).
Proof.
  cbv zeta. unfold Hooks.fetchProfile.
  destruct (Events.usable_key pubkey) as [pk|].
  - destruct enabled; simpl.
    + unfold Events.fetchUserMetadata. simpl.
      destruct (Events.fetchEvents p _ relayUrls Events.DEFAULT_TIMEOUT)
        as [candidates | reason] eqn:Hfetch.
      * pose proof (latest_first_newest candidates) as Hnewest.
        destruct (Events.latest candidates) as [metadataEvent|]; simpl.
        -- split; [reflexivity |]. split; [intros [H | H]; discriminate |].
           intros pk' [= <-] _. exists candidates.
           split; [exact Hfetch |]. split; [exact Hnewest |].
           unfold Events.parseUserMetadata. split; [reflexivity |].
           destruct (JSON_parse (content metadataEvent)) as [metadata|] eqn:Hparse.
           ++ split.
              ** intros ->. now exists metadataEvent.
              ** intros (ev & [= <-] & Hev). congruence.
           ++ split; [discriminate |]. intros (ev & [= <-] & Hev). congruence.
        -- split; [reflexivity |]. split; [intros [H | H]; discriminate |].
           intros pk' [= <-] _. exists candidates.
           split; [exact Hfetch |]. split; [exact Hnewest |]. split; [reflexivity |].
           split; [discriminate | intros (ev & H & _); discriminate].
      * unfold Events.fetchEvents in Hfetch.
        destruct (Events.querySync p _ _ _); discriminate.
    + split; [reflexivity |]. split; [now split | discriminate].
  - simpl. split; [reflexivity |]. split; [now split | discriminate].
Qed.

Lemma fetchProfile_outcome_witness :
  let older := mkEvent "a" "pk" 100 METADATA_KIND [] "{name: old}" "sig" in
  let newer := mkEvent "b" "pk" 200 METADATA_KIND [] "not json" "sig" in
  let null := mkEvent "c" "pk" 300 METADATA_KIND [] "null" "sig" in
  let parse : string -> Settled Json :=
    fun text => if String.eqb text "not json" then Rejected "SyntaxError"
                else if String.eqb text "null" then Fulfilled JNull
                else Fulfilled (JObject [ ("name", JString "old") ]) in
  let rst := Relays.initial true None in
  let st := Hooks.mkProfile JNull None true in
  let key := "3bf0c63fcb93463407af97a5e5ee64fa883d107ef9e558472c4eb9aaaefa459d" in
  Hooks.fetchProfile parse ascii_slice (Events.answering_pool (Fulfilled [older; newer])) rst
    (Some key) true Relays.DEFAULT_RELAYS st
    = Hooks.mkProfile (JObject []) (Some newer) false /\
  Hooks.fetchProfile parse ascii_slice (Events.answering_pool (Fulfilled [older; null])) rst
    (Some key) true Relays.DEFAULT_RELAYS st
    = Hooks.mkProfile JNull (Some null) false /\
  Hooks.profile (Hooks.fetchProfile parse ascii_slice (Events.answering_pool (Fulfilled []))
                   rst (Some key) true Relays.DEFAULT_RELAYS st)
    = JObject [ ("name", JString "3bf0c63f...") ].
Proof.
  intros older newer null parse rst st key.
  destruct (fetchProfile_outcome parse ascii_slice (Events.answering_pool (Fulfilled [])) rst
              (Some key) true Relays.DEFAULT_RELAYS st) as (_ & _ & Hfound).
  destruct (Hfound key eq_refl eq_refl) as (candidates & _ & _ & Hprofile & _).
  split; [reflexivity |]. split; [reflexivity | exact Hprofile].
Defined.

(** ** hooks.ts as first written: deduplication in the callback *)

Lemma add_event_tidy (event : Event) (prev : list Event) :
  NoDup (map id prev) -> StronglySorted newer_first prev ->
  NoDup (map id (HooksV1.add_event event prev)) /\
  StronglySorted newer_first (HooksV1.add_event event prev) /\
  (forall i, i ∈ map id (HooksV1.add_event event prev) <-> i = id event \/ i ∈ map id prev).
Proof.
  intros Hnd Hsorted. unfold HooksV1.add_event.
  destruct (Hooks.some_id (id event) prev) eqn:Hseen.
  - split; [exact Hnd |]. split; [exact Hsorted |]. intros i.
    split; [now right |]. intros [-> | Hin]; [| exact Hin].
    destruct (decide (id event ∈ map id prev)) as [Hin | Hout]; [exact Hin |].
    apply some_id_false in Hout. congruence.
  - apply some_id_false in Hseen.
    pose proof (Array_sort_perm by_created_at_desc (event :: prev)) as Hperm.
    split; [| split].
    + rewrite (Permutation_map id Hperm). simpl. now apply NoDup_cons.
    + apply Array_sort_newer_first.
    + intros i. rewrite (Permutation_map id Hperm). simpl. apply elem_of_cons.
Qed.

(** X26. In the first version of the hook the callback checks the current
    list, so it deduplicates on its own: whatever the pool delivers, even
    the same event many times, a list that was free of duplicate ids and
    in descending order stays so, and it holds exactly the ids it held
    before together with the ids delivered. *)
Theorem subscription_callback_dedups (p : Events.SimplePool) (filter : Filter)
    (relayUrls : list string) (events : list Event) :
  NoDup (map id events) ->
  StronglySorted newer_first events ->
  let events' := HooksV1.subscribed p filter relayUrls events in
  NoDup (map id events') /\
  StronglySorted newer_first events' /\
  (forall i, i ∈ map id events' <->
             i ∈ map id events \/ i ∈ map id (Events.subscribeMany p relayUrls [filter])).
Proof.
  cbv zeta. unfold HooksV1.subscribed, Events.subscribeToEvents, HooksV1.on_event.
  generalize (Events.subscribeMany p relayUrls [filter]). intros delivered.
  revert events. induction delivered as [|e rest IH]; intros events Hnd Hsorted.
  - simpl. split; [exact Hnd |]. split; [exact Hsorted |]. intros i.
    split; [now left |]. intros [H | H]; [exact H | inversion H].
  - cbn [fold_left].
    destruct (add_event_tidy e events Hnd Hsorted) as (Hnd1 & Hs1 & Hids1).
    destruct (IH _ Hnd1 Hs1) as (Hnd2 & Hs2 & Hids2).
    split; [exact Hnd2 |]. split; [exact Hs2 |]. intros i.
    rewrite Hids2, Hids1. cbn [map]. rewrite elem_of_cons. tauto.
Qed.

Lemma subscription_callback_dedups_witness :
  let e1 := mkEvent "a" "pk" 100 TEXT_NOTE_KIND [] "one" "sig" in
  let e2 := mkEvent "b" "pk" 200 TEXT_NOTE_KIND [] "two" "sig" in
  let e3 := mkEvent "c" "pk" 150 TEXT_NOTE_KIND [] "three" "sig" in
  let p := Events.mkPool (fun _ _ => Fulfilled []) (fun _ _ _ => Fulfilled [])
                         (fun _ _ => [e3; e1; e3; e3]) in
  let filter := mkFilter None None (Some [TEXT_NOTE_KIND]) None None (Some 20) in
  HooksV1.subscribed p filter ["wss://nos.lol"] [e2; e1] = [e2; e3; e1] /\
  NoDup (map id (HooksV1.subscribed p filter ["wss://nos.lol"] [e2; e1])).
Proof.
  intros e1 e2 e3 p filter.
  destruct (subscription_callback_dedups p filter ["wss://nos.lol"] [e2; e1])
    as (Hnd & _ & _).
  - apply (bool_decide_unpack _). vm_compute. exact I.
  - repeat constructor; unfold newer_first; simpl; lia.
  - split; [reflexivity | exact Hnd].
Defined.

(** ** Note form and profile page *)

Lemma createAndPublishNote_never_rejects_lemma (finalizeEvent : Events.Signer)
    (p : Events.SimplePool) (ks : Keys.KeyStore) (rst : Relays.State) (now_ms : Z)
    (text : string) (given_tags : list (list string)) (relayUrls : option (list string))
    (event : Event) :
  Events.createAndPublishNote finalizeEvent p ks rst now_ms text given_tags relayUrls
    = Fulfilled (Some event) ->
  Events.createNoteEvent finalizeEvent ks now_ms text given_tags = Fulfilled (Some event).
Proof.
  unfold Events.createAndPublishNote.
  destruct (Events.createNoteEvent finalizeEvent ks now_ms text given_tags)
    as [[e|] | reason]; try discriminate.
  destruct (Events.publishEvent p e _); [| discriminate]. now intros [= <-].
Qed.

(** X27. The note form publishes nothing while a submission is running or
    when the text is blank after trimming.  When it does publish, the
    event is the one [createNoteEvent] made from the untrimmed text, with
    a single ["e"] tag naming the note replied to, or with no tag; the
    text field is then emptied.  When nothing was published the text is
    kept. *)
Theorem noteForm_handleSubmit (trim : string -> string) (finalizeEvent : Events.Signer)
    (p : Events.SimplePool) (ks : Keys.KeyStore) (rst : Relays.State) (now_ms : Z)
    (replyTo : option string) (ui : NoteForm.FormState) :
  let result := NoteForm.handleSubmit trim finalizeEvent p ks rst now_ms replyTo ui in
  (trim (NoteForm.content ui) = "" \/ NoteForm.isSubmitting ui = true ->
   result = (ui, None)) /\
  (forall event, snd result = Some event ->
     fst result = NoteForm.mkForm "" false /\
     trim (NoteForm.content ui) <> "" /\
     Events.createNoteEvent finalizeEvent ks now_ms (NoteForm.content ui)
       match replyTo with
       | Some "" | None => []
       | Some target => [["e"; target]]
       end = Fulfilled (Some event)) /\
  (snd result = None -> NoteForm.content (fst result) = NoteForm.content ui).
Proof.
  cbv zeta. unfold NoteForm.handleSubmit.
  assert (Htags : NoteForm.reply_tags replyTo
                  = match replyTo with
                    | Some "" | None => []
                    | Some target => [["e"; target]]
                    end).
  { unfold NoteForm.reply_tags, Events.usable_key.
    destruct replyTo as [[|c rest]|]; reflexivity. }
  destruct (String.eqb (trim (NoteForm.content ui)) "") eqn:Hblank; simpl.
  - split; [reflexivity |]. split; [discriminate | reflexivity].
  - apply String.eqb_neq in Hblank.
    destruct (NoteForm.isSubmitting ui) eqn:Hbusy.
    + split; [reflexivity |]. split; [discriminate | reflexivity].
    + pose proof (createAndPublishNote_never_rejects_lemma finalizeEvent p ks rst now_ms
                    (NoteForm.content ui) (NoteForm.reply_tags replyTo) None) as Hcreated.
      destruct (Events.createAndPublishNote finalizeEvent p ks rst now_ms
                  (NoteForm.content ui) (NoteForm.reply_tags replyTo) None)
        as [[event|] | reason]; simpl.
      * split; [intros [H | H]; congruence |]. split; [| discriminate].
        intros e [= <-]. split; [reflexivity |]. split; [exact Hblank |].
        rewrite <- Htags. now apply Hcreated.
      * split; [intros [H | H]; congruence |]. split; [discriminate | reflexivity].
      * split; [intros [H | H]; congruence |]. split; [discriminate | reflexivity].
Qed.

(** X28. A profile address in [npub] form resolves to the same key as the
    key itself, for a key in canonical form and a codec whose [decode]
    inverts its encoders and whose [npub] texts begin with "npub"; an
    address that begins with "npub" and cannot be decoded resolves to
    nothing (the page redirects). *)
Theorem profile_address_forms (nip19 : Keys.Nip19) (key : string) :
  Keys.Nip19_laws nip19 Keys.valid_key ->
  Keys.valid_key key ->
  String.prefix "npub" (Keys.hexToNpub nip19 key) = true ->
  ProfilePage.resolve nip19 (Keys.hexToNpub nip19 key) = Some (Keys.DString key) /\
  ProfilePage.resolve nip19 key = Some (Keys.DString key) /\
  (forall address,
     String.prefix "npub" address = true ->
     is_fulfilled (Keys.decode nip19 address) = false ->
     ProfilePage.resolve nip19 address = None).
Proof.
  intros [Hlaw _] Hvalid Hprefix. unfold ProfilePage.resolve.
  split; [| split].
  - rewrite Hprefix. unfold Keys.npubToHex, Keys.hexToNpub. now rewrite (Hlaw key Hvalid).
  - assert (Hplain : String.prefix "npub" key = false).
    { destruct Hvalid as [Hlen Hall]. destruct key as [|c rest]; [reflexivity |].
      simpl in Hall. apply andb_true_iff in Hall as [Hc _].
      change (String.prefix "npub" (String c rest))
        with (if ascii_dec "n" c then String.prefix "pub" rest else false).
      destruct (ascii_dec "n" c) as [<- | Hne]; [| reflexivity].
      vm_compute in Hc. discriminate Hc. }
    now rewrite Hplain.
  - intros address -> Hbad. unfold Keys.npubToHex.
    destruct (Keys.decode nip19 address); [discriminate | reflexivity].
Qed.

Lemma profile_address_forms_witness :
  let key := "3bf0c63fcb93463407af97a5e5ee64fa883d107ef9e558472c4eb9aaaefa459d" in
  ProfilePage.resolve Keys.hex_nip19 (String.append "npub1" key) = Some (Keys.DString key) /\
  ProfilePage.resolve Keys.hex_nip19 key = Some (Keys.DString key).
Proof.
  intros key.
  assert (Hvalid : Keys.valid_key key) by (split; vm_compute; reflexivity).
  destruct (profile_address_forms Keys.hex_nip19 key hex_nip19_laws Hvalid eq_refl)
    as (Hnpub & Hhex & _).
  exact (conj Hnpub Hhex).
Defined.
